(** * Hancho: a shallow embedding of [hancho.py]

    The development follows the layout of the source file: the value
    model, the path helpers, the template expander, the task life cycle
    ([Task.__init__], [task_init], [needs_rerun], [run_commands],
    [run_async]) and the job pool of [App].  Python exceptions are values
    of type [exn]; functions that touch the global [app] object, the file
    system or the task objects run in the monad [M] over [World].

    What Python itself provides (the expression evaluator behind [eval],
    [posixpath], the subprocess layer, [json]) is not part of the
    repository: [posixpath] is transcribed, [eval] is given for the
    expression forms that hancho's own templates use, and subprocesses,
    callbacks and [json.load] are fields of the [Host] record. *)

From Stdlib Require Import ZArith Lia Ascii String.
From stdpp Require Import gmap strings list pretty.

Local Open Scope Z_scope.

(** ** Exceptions *)

Inductive exn_class :=
| BaseException | Exception | CancelledError
| ValueError | NameError | RuntimeError | RecursionError
| OSError | FileNotFoundError
| TypeError | AttributeError | SyntaxError | AssertionError
| CalledProcessError | IndexError.

#[global] Instance exn_class_eq_dec : EqDecision exn_class.
Proof. solve_decision. Defined.

(** The direct base class; [asyncio.CancelledError] derives from
    [BaseException] directly. *)
Definition base_class (c : exn_class) : option exn_class :=
  match c with
  | BaseException => None
  | Exception | CancelledError => Some BaseException
  | RecursionError => Some RuntimeError
  | FileNotFoundError => Some OSError
  | _ => Some Exception
  end.

Fixpoint issubclass_upto (n : nat) (c d : exn_class) : bool :=
  bool_decide (c = d) ||
  match n, base_class c with
  | S n', Some b => issubclass_upto n' b d
  | _, _ => false
  end.

Definition issubclass : exn_class → exn_class → bool := issubclass_upto 3.

Record exn := mkExn { exn_cls : exn_class; exn_msg : string }.

#[global] Instance exn_eq_dec : EqDecision exn.
Proof. solve_decision. Defined.

(** [except cls as err] matches [e]. *)
Definition isinstance_exn (e : exn) (cls : exn_class) : bool :=
  issubclass (exn_cls e) cls.

(** ** Results of pure helpers *)

Inductive result (A : Type) :=
| Ok (a : A)
| Err (e : exn).
Arguments Ok {A} a.
Arguments Err {A} e.

#[global] Instance result_ret : MRet result := λ A a, Ok a.
#[global] Instance result_bind : MBind result := λ A B f m,
  match m with Ok a => f a | Err e => Err e end.
#[global] Instance result_fmap : FMap result := λ A B f m,
  match m with Ok a => Ok (f a) | Err e => Err e end.

(** ** Values

    [variant] is what a config field, a macro result or a task promise can
    hold.  Configs and dicts are insertion-ordered, so they are association
    lists; tasks are mutable shared objects, so a value refers to one by
    its index in the task table. *)

(** The module-level Python functions that [Config] republishes as static
    attributes; [inspect.isfunction] holds of each. *)
Inductive helper :=
| HAbsPath | HRelPath | HJoinPath | HColor | HGlob
| HRunCmd | HSwapExt | HFlatten | HBasename.

#[global] Instance helper_eq_dec : EqDecision helper.
Proof. solve_decision. Defined.

#[local] Set Warnings "-register-all,-clear-no-such-hyp".
Inductive variant :=
| VNone
| VBool (b : bool)
| VInt (n : Z)
| VStr (s : string)
| VList (l : list variant)
| VDict (d : list (string * variant))
| VConfig (d : list (string * variant))
| VExpander (d : list (string * variant))   (* Expander(config) *)
| VTask (t : nat)                           (* a Task object *)
| VFuture (t : nat)                         (* the asyncio.Task running task t *)
| VExc (e : exn)                            (* an exception instance *)
| VFunc (h : helper)                        (* a Python function *)
| VCallback (k : nat)                       (* a user-written Python function *)
| VNative (name : string).                  (* builtin function or bound method *)

Abbreviation fields := (list (string * variant)).

(** [type(v).__name__], used in messages. *)
Definition type_name (v : variant) : string :=
  match v with
  | VNone => "NoneType" | VBool _ => "bool" | VInt _ => "int"
  | VStr _ => "str" | VList _ => "list" | VDict _ => "dict"
  | VConfig _ => "Config" | VExpander _ => "Expander" | VTask _ => "Task"
  | VFuture _ => "Task" | VExc _ => "BaseException"
  | VFunc _ | VCallback _ => "function"
  | VNative _ => "builtin_function_or_method"
  end.

(** ** Strings *)

Definition sep : ascii := "/"%char.

Fixpoint strip_prefix (p s : string) : option string :=
  match p with
  | EmptyString => Some s
  | String a p' =>
      match s with
      | String b s' => if Ascii.eqb a b then strip_prefix p' s' else None
      | EmptyString => None
      end
  end.

Definition startswith (s p : string) : bool :=
  match strip_prefix p s with Some _ => true | None => false end.

(** [str.removeprefix] *)
Definition removeprefix (s p : string) : string :=
  default s (strip_prefix p s).

Fixpoint endswith_char (s : string) (c : ascii) : bool :=
  match s with
  | EmptyString => false
  | String a EmptyString => Ascii.eqb a c
  | String _ s' => endswith_char s' c
  end.

(** [str.split(sep)] for a one-character separator: never returns []. *)
Fixpoint split_on (c : ascii) (s : string) : list string :=
  match s with
  | EmptyString => [EmptyString]
  | String a s' =>
      if Ascii.eqb a c then EmptyString :: split_on c s'
      else match split_on c s' with
           | [] => [String a EmptyString]
           | w :: ws => String a w :: ws
           end
  end.

Fixpoint join_with (d : string) (l : list string) : string :=
  match l with
  | [] => ""
  | [x] => x
  | x :: l' => x +:+ d +:+ join_with d l'
  end.

(** ** Path helpers *)

(** [_flatten] *)
Fixpoint _flatten (v : variant) : list variant :=
  match v with
  | VList l => concat (map _flatten l)
  | _ => [v]
  end.

(** [posixpath.join] with one component after the first. *)
Definition posix_join (a b : string) : string :=
  if startswith b "/" then b
  else if bool_decide (a = "") || endswith_char a sep then a +:+ b
  else a +:+ "/" +:+ b.

Definition type_error (what : string) (v : variant) : exn :=
  mkExn TypeError (what +:+ ", not " +:+ type_name v).

Definition fspath (v : variant) : result string :=
  match v with
  | VStr s => Ok s
  | _ => Err (type_error "expected str, bytes or os.PathLike object" v)
  end.

(** [path.join(arg0, arg1)] on two values. *)
Definition path_join (a b : variant) : result variant :=
  x ← fspath a; y ← fspath b; Ok (VStr (posix_join x y)).

(** The two-argument case of [_join_path]:
    [[path.join(a0, a1) for a0 in args0 for a1 in args1]], collapsed when
    it has one element. *)
Definition collapse (l : list variant) : variant :=
  match l with
  | [x] => x
  | _ => VList l
  end.

Definition join_pairs (args0 args1 : list variant) : result (list variant) :=
  rows ← mapM (λ a0, mapM (λ a1, path_join a0 a1) args1) args0;
  Ok (concat rows).

Definition _join_path2 (a b : variant) : result variant :=
  collapse <$> join_pairs (_flatten a) (_flatten b).

(** [_join_path], variadic in the source: [args] is the argument tuple. *)
Fixpoint _join_path (args : list variant) : result variant :=
  match args with
  | [] => Ok (VStr "")
  | a :: rest =>
      match rest with
      | [] => Ok (VList [a])
      | [b] => _join_path2 a b
      | _ => r ← _join_path rest; _join_path2 a r
      end
  end.

(** Python's [==] on the values that reach [_rel_path]. *)
Definition str_eqb (a b : variant) : bool :=
  match a, b with
  | VStr s, VStr t => bool_decide (s = t)
  | _, _ => false
  end.

(** [_rel_path(path1, path2)]; the scalar case is
    [path1.removeprefix(path2 + "/") if path1 != path2 else ""]. *)
Definition rel_path1 (path1 path2 : variant) : result variant :=
  match path1 with
  | VStr s1 =>
      if str_eqb path1 path2 then Ok (VStr "")
      else match path2 with
           | VStr s2 => Ok (VStr (removeprefix s1 (s2 +:+ "/")))
           | _ => Err (type_error "unsupported operand type(s) for +: str" path2)
           end
  | _ => Err (mkExn AttributeError
                (type_name path1 +:+ " object has no attribute removeprefix"))
  end.

Fixpoint _rel_path (path1 path2 : variant) : result variant :=
  match path1 with
  | VList l => VList <$> mapM (λ p, _rel_path p path2) l
  | _ => rel_path1 path1 path2
  end.

(** [posixpath.normpath] *)
Definition norm_step (initial_slashes : nat) (new_comps : list string)
    (comp : string) : list string :=
  if bool_decide (comp = "") || bool_decide (comp = ".") then new_comps
  else if negb (bool_decide (comp = ".."))
          || (bool_decide (initial_slashes = 0%nat) && bool_decide (new_comps = []))
          || bool_decide (last new_comps = Some "..")
       then new_comps ++ [comp]
       else removelast new_comps.

Definition normpath (path : string) : string :=
  if bool_decide (path = "") then "."
  else
    let initial_slashes :=
      if startswith path "/" then
        if startswith path "//" && negb (startswith path "///") then 2%nat
        else 1%nat
      else 0%nat in
    let comps := fold_left (norm_step initial_slashes) (split_on sep path) [] in
    let path' :=
      String.concat "" (replicate initial_slashes "/") +:+ join_with "/" comps in
    if bool_decide (path' = "") then "." else path'.

(** [posixpath.abspath] relative to the working directory [cwd]. *)
Definition abspath (cwd path : string) : string :=
  normpath (if startswith path "/" then path else posix_join cwd path).

(** [posixpath.basename]: what follows the last separator. *)
Definition basename (p : string) : string :=
  default "" (last (split_on sep p)).

(** [posixpath.dirname]: what precedes the last separator, with trailing
    separators removed unless the head consists of separators only. *)
Fixpoint rstrip_char (c : ascii) (s : string) : string :=
  match s with
  | EmptyString => EmptyString
  | String a s' =>
      match rstrip_char c s' with
      | EmptyString => if Ascii.eqb a c then EmptyString else String a EmptyString
      | r => String a r
      end
  end.

Definition dirname (p : string) : string :=
  let comps := split_on sep p in
  match removelast comps with
  | [] => ""
  | hd => let head := join_with "/" hd +:+ "/" in
          let stripped := rstrip_char sep head in
          if bool_decide (stripped = "") then head else stripped
  end.

(** [posixpath.splitext]: the extension starts at the last dot of the
    last component, unless only dots precede it there. *)
Definition dot : ascii := "."%char.

Fixpoint all_dots (s : string) : bool :=
  match s with
  | EmptyString => true
  | String a s' => Ascii.eqb a dot && all_dots s'
  end.

Definition splitext (p : string) : string * string :=
  let comps := split_on sep p in
  let tail := default "" (last comps) in
  let pieces := split_on dot tail in
  match removelast pieces, last pieces with
  | stem_parts, Some ext =>
      let stem := join_with "." stem_parts in
      if bool_decide (stem_parts = []) || all_dots stem then (p, "")
      else (join_with "/" (removelast comps ++ [stem]), "." +:+ ext)
  | _, None => (p, "")
  end.

(** [_swap_ext] *)
Definition swap_ext1 (name new_ext : variant) : result variant :=
  n ← fspath name;
  match new_ext with
  | VStr e => Ok (VStr ((splitext n).1 +:+ e))
  | _ => Err (type_error "can only concatenate str to str" new_ext)
  end.

Fixpoint _swap_ext (name new_ext : variant) : result variant :=
  match name with
  | VList l => VList <$> mapM (λ n, _swap_ext n new_ext) l
  | _ => swap_ext1 name new_ext
  end.

(** ** Dynamic typing *)

(** Truth value of an object in a condition. *)
Definition truthy (v : variant) : bool :=
  match v with
  | VNone => false
  | VBool b => b
  | VInt n => negb (n =? 0)
  | VStr s => negb (bool_decide (s = ""))
  | VList l => negb (bool_decide (length l = 0%nat))
  | VDict d => negb (bool_decide (length d = 0%nat))
  | _ => true
  end.

(** An operand of an integer comparison or addition. *)
Definition as_int (v : variant) : option Z :=
  match v with
  | VInt n => Some n
  | VBool b => Some (if b then 1 else 0)
  | _ => None
  end.

(** Attribute tables: [setattr] keeps the position of an existing key. *)
Fixpoint assoc_get (key : string) (d : fields) : option variant :=
  match d with
  | [] => None
  | (k, v) :: d' => if bool_decide (k = key) then Some v else assoc_get key d'
  end.

Fixpoint assoc_set (key : string) (val : variant) (d : fields) : fields :=
  match d with
  | [] => [(key, val)]
  | (k, v) :: d' =>
      if bool_decide (k = key) then (k, val) :: d'
      else (k, v) :: assoc_set key val d'
  end.

(** [Config.merge]: [setattr] for every item, in order.  The code finds
    [self.merge] and [_dict.items] by attribute lookup on the instance, so
    a field named [merge], or a config argument with a field named
    [items], shadows the method, and [setattr] of [__class__], [__dict__]
    or [__weakref__] is not the store of a field; [merge] is the function
    for arguments that have none of these ([plain_arguments] below). *)
Definition merge (self : fields) (_dict : fields) : fields :=
  fold_left (λ acc kv, assoc_set kv.1 kv.2 acc) _dict self.

(** [Config.update(args..., kwargs)] and the constructor [Config(args..., kwargs)]. *)
Definition update (self : fields) (args : list fields) (kwargs : fields) : fields :=
  merge (fold_left merge args self) kwargs.

Definition Config (args : list fields) (kwargs : fields) : fields :=
  update [] (args ++ [kwargs]) [].




(** ** The world: [app], the [Config] class, tasks, files, the host *)

(** The [App] object. *)
Record App := mkApp {
  loaded_modules : list string;     (* [module.__file__] of each loaded module *)
  all_build_files : gset string;
  tasks_total : Z;
  tasks_pass : Z;
  tasks_fail : Z;
  tasks_skip : Z;
  tasks_cancel : Z;
  task_counter : Z;
  mtime_calls : Z;
  line_dirty : bool;
  expand_depth : Z;
  pending_tasks : list nat;
  queued_tasks : list nat;
  jobs_available : Z;
  log : string;
  dirstack : list string;
}.

(** The class attributes of [Config] that the code reads as [Config.x];
    [parse_args] sets them from the command line. *)
Record Flags := mkFlags {
  root_path : string;
  root_name : string;
  repo_path : string;
  repo_name : string;
  jobs : Z;
  verbose : bool;
  quiet : bool;
  dry_run : bool;
  debug : bool;
  force : bool;
  shuffle : bool;
  trace : bool;
  use_color : bool;
  extra_flags : fields;     (* unrecognised [--key=value] flags *)
}.

(** [Task.action] once [task_init] has filled it. *)
Record Action := mkAction {
  a_desc : variant;
  a_command : list variant;
  a_depformat : variant;
  a_job_count : variant;
  a_ext_build : variant;
  a_task_index : Z;
  a_base_path : variant;
  a_command_path : variant;
  a_source_path : variant;
  a_build_path : variant;
  a_command_files : list variant;
  a_source_files : list variant;
  a_build_files : list variant;
  a_build_deps : list variant;
  abs_command_path : variant;
  abs_source_path : variant;
  abs_build_path : variant;
  abs_command_files : list string;
  abs_source_files : list string;
  abs_build_files : list string;
  abs_build_deps : list string;
}.

(** A [Task] object. *)
Record Task := mkTask {
  config : fields;
  action : option Action;
  reason : variant;          (* [None] or the reason string *)
  promise : variant;         (* [None], the asyncio task, or its awaited value *)
  t_stdout : string;
  t_stderr : string;
  returncode : Z;
}.

(** A directory entry: [os.stat] and [open] see these. *)
Record node := mkNode { is_dir : bool; st_mtime_ns : Z; content : string }.

(** What the interpreter and the operating system provide.  A command or
    a user function is a function of its inputs here: it ends, with a
    result or an error; one that runs forever is not modelled. *)
Record Host := mkHost {
  (* [asyncio.create_subprocess_shell(command, cwd)] then [communicate()]:
     the new files, stdout, stderr and the return code *)
  shell : string → variant → gmap string node →
          gmap string node * (string * string * Z);
  (* a user callback applied to task [t] (awaited if it is awaitable) *)
  callback : nat → nat → gmap string node → gmap string node * result variant;
  (* a user function called from a template with these arguments *)
  call_function : nat → list variant → result variant;
  (* [json.load(depfile)["Data"]["Includes"]] on the file's text *)
  json_includes : string → result (list string);
  glob_glob : string → gmap string node → list string;
  (* [str(o)] of an object printed by address *)
  repr_object : variant → string;
  random_shuffle : list nat → list nat;
  isatty : bool;             (* [sys.stdout.isatty()] *)
  columns : nat;             (* [os.get_terminal_size().columns] *)
  os_name_nt : bool;         (* [os.name == "nt"] *)
}.

Record World := mkWorld {
  app : App;
  cls : Flags;
  tasks : list Task;                (* every Task object, by index *)
  futures : gmap nat variant;       (* results of the asyncio tasks that are done *)
  fs : gmap string node;
  cwd : string;                     (* [os.getcwd()] *)
  host : Host;
}.

Definition with_app (f : App → App) (w : World) : World :=
  mkWorld (f (app w)) (cls w) (tasks w) (futures w) (fs w) (cwd w) (host w).
Definition with_tasks (f : list Task → list Task) (w : World) : World :=
  mkWorld (app w) (cls w) (f (tasks w)) (futures w) (fs w) (cwd w) (host w).
Definition with_futures (f : gmap nat variant → gmap nat variant) (w : World) : World :=
  mkWorld (app w) (cls w) (tasks w) (f (futures w)) (fs w) (cwd w) (host w).
Definition with_fs (f : gmap string node → gmap string node) (w : World) : World :=
  mkWorld (app w) (cls w) (tasks w) (futures w) (f (fs w)) (cwd w) (host w).
Definition with_cwd (d : string) (w : World) : World :=
  mkWorld (app w) (cls w) (tasks w) (futures w) (fs w) d (host w).

(** Field updates of [app]. *)
Definition set_all_build_files v (a : App) : App :=
  mkApp (loaded_modules a) v (tasks_total a) (tasks_pass a) (tasks_fail a)
    (tasks_skip a) (tasks_cancel a) (task_counter a) (mtime_calls a)
    (line_dirty a) (expand_depth a) (pending_tasks a) (queued_tasks a)
    (jobs_available a) (log a) (dirstack a).
Definition set_tasks_total v (a : App) : App :=
  mkApp (loaded_modules a) (all_build_files a) v (tasks_pass a) (tasks_fail a)
    (tasks_skip a) (tasks_cancel a) (task_counter a) (mtime_calls a)
    (line_dirty a) (expand_depth a) (pending_tasks a) (queued_tasks a)
    (jobs_available a) (log a) (dirstack a).
Definition set_tasks_pass v (a : App) : App :=
  mkApp (loaded_modules a) (all_build_files a) (tasks_total a) v (tasks_fail a)
    (tasks_skip a) (tasks_cancel a) (task_counter a) (mtime_calls a)
    (line_dirty a) (expand_depth a) (pending_tasks a) (queued_tasks a)
    (jobs_available a) (log a) (dirstack a).
Definition set_tasks_fail v (a : App) : App :=
  mkApp (loaded_modules a) (all_build_files a) (tasks_total a) (tasks_pass a) v
    (tasks_skip a) (tasks_cancel a) (task_counter a) (mtime_calls a)
    (line_dirty a) (expand_depth a) (pending_tasks a) (queued_tasks a)
    (jobs_available a) (log a) (dirstack a).
Definition set_tasks_skip v (a : App) : App :=
  mkApp (loaded_modules a) (all_build_files a) (tasks_total a) (tasks_pass a)
    (tasks_fail a) v (tasks_cancel a) (task_counter a) (mtime_calls a)
    (line_dirty a) (expand_depth a) (pending_tasks a) (queued_tasks a)
    (jobs_available a) (log a) (dirstack a).
Definition set_tasks_cancel v (a : App) : App :=
  mkApp (loaded_modules a) (all_build_files a) (tasks_total a) (tasks_pass a)
    (tasks_fail a) (tasks_skip a) v (task_counter a) (mtime_calls a)
    (line_dirty a) (expand_depth a) (pending_tasks a) (queued_tasks a)
    (jobs_available a) (log a) (dirstack a).
Definition set_task_counter v (a : App) : App :=
  mkApp (loaded_modules a) (all_build_files a) (tasks_total a) (tasks_pass a)
    (tasks_fail a) (tasks_skip a) (tasks_cancel a) v (mtime_calls a)
    (line_dirty a) (expand_depth a) (pending_tasks a) (queued_tasks a)
    (jobs_available a) (log a) (dirstack a).
Definition set_mtime_calls v (a : App) : App :=
  mkApp (loaded_modules a) (all_build_files a) (tasks_total a) (tasks_pass a)
    (tasks_fail a) (tasks_skip a) (tasks_cancel a) (task_counter a) v
    (line_dirty a) (expand_depth a) (pending_tasks a) (queued_tasks a)
    (jobs_available a) (log a) (dirstack a).
Definition set_line_dirty v (a : App) : App :=
  mkApp (loaded_modules a) (all_build_files a) (tasks_total a) (tasks_pass a)
    (tasks_fail a) (tasks_skip a) (tasks_cancel a) (task_counter a)
    (mtime_calls a) v (expand_depth a) (pending_tasks a) (queued_tasks a)
    (jobs_available a) (log a) (dirstack a).
Definition set_expand_depth v (a : App) : App :=
  mkApp (loaded_modules a) (all_build_files a) (tasks_total a) (tasks_pass a)
    (tasks_fail a) (tasks_skip a) (tasks_cancel a) (task_counter a)
    (mtime_calls a) (line_dirty a) v (pending_tasks a) (queued_tasks a)
    (jobs_available a) (log a) (dirstack a).
Definition set_pending_tasks v (a : App) : App :=
  mkApp (loaded_modules a) (all_build_files a) (tasks_total a) (tasks_pass a)
    (tasks_fail a) (tasks_skip a) (tasks_cancel a) (task_counter a)
    (mtime_calls a) (line_dirty a) (expand_depth a) v (queued_tasks a)
    (jobs_available a) (log a) (dirstack a).
Definition set_queued_tasks v (a : App) : App :=
  mkApp (loaded_modules a) (all_build_files a) (tasks_total a) (tasks_pass a)
    (tasks_fail a) (tasks_skip a) (tasks_cancel a) (task_counter a)
    (mtime_calls a) (line_dirty a) (expand_depth a) (pending_tasks a) v
    (jobs_available a) (log a) (dirstack a).
Definition set_jobs_available v (a : App) : App :=
  mkApp (loaded_modules a) (all_build_files a) (tasks_total a) (tasks_pass a)
    (tasks_fail a) (tasks_skip a) (tasks_cancel a) (task_counter a)
    (mtime_calls a) (line_dirty a) (expand_depth a) (pending_tasks a)
    (queued_tasks a) v (log a) (dirstack a).
Definition set_log v (a : App) : App :=
  mkApp (loaded_modules a) (all_build_files a) (tasks_total a) (tasks_pass a)
    (tasks_fail a) (tasks_skip a) (tasks_cancel a) (task_counter a)
    (mtime_calls a) (line_dirty a) (expand_depth a) (pending_tasks a)
    (queued_tasks a) (jobs_available a) v (dirstack a).

(** Field updates of a task. *)
Definition set_config v (t : Task) : Task :=
  mkTask v (action t) (reason t) (promise t) (t_stdout t) (t_stderr t) (returncode t).
Definition set_action v (t : Task) : Task :=
  mkTask (config t) v (reason t) (promise t) (t_stdout t) (t_stderr t) (returncode t).
Definition set_reason v (t : Task) : Task :=
  mkTask (config t) (action t) v (promise t) (t_stdout t) (t_stderr t) (returncode t).
Definition set_promise v (t : Task) : Task :=
  mkTask (config t) (action t) (reason t) v (t_stdout t) (t_stderr t) (returncode t).
Definition set_proc (out err : string) (rc : Z) (t : Task) : Task :=
  mkTask (config t) (action t) (reason t) (promise t) out err rc.

(** ** The monad of stateful code

    A computation ends by returning, by raising, by suspending at an
    [await] that cannot complete yet, or by exhausting the fuel of the
    recursive expander.  The world is returned in every case: what was
    written before an exception stays written. *)

Inductive wait :=
| WaitFuture (t : nat)      (* awaiting the asyncio task of task [t] *)
| WaitJobs (count : Z).     (* [jobs_lock.wait_for(jobs_available >= count)] *)

Inductive outcome (A : Type) :=
| Return (a : A)
| Raise (e : exn)
| Blocked (b : wait)
| OutOfFuel.
Arguments Return {A} a.
Arguments Raise {A} e.
Arguments Blocked {A} b.
Arguments OutOfFuel {A}.

Definition M (A : Type) : Type := World → outcome A * World.

#[global] Instance M_ret : MRet M := λ A a w, (Return a, w).
#[global] Instance M_bind : MBind M := λ A B f m w,
  match m w with
  | (Return a, w') => f a w'
  | (Raise e, w') => (Raise e, w')
  | (Blocked b, w') => (Blocked b, w')
  | (OutOfFuel, w') => (OutOfFuel, w')
  end.
#[global] Instance M_fmap : FMap M := λ A B f m, a ← m; mret (f a).

Definition raise {A} (e : exn) : M A := λ w, (Raise e, w).
Definition block {A} (b : wait) : M A := λ w, (Blocked b, w).
Definition out_of_fuel {A} : M A := λ w, (OutOfFuel, w).
Definition gets {A} (f : World → A) : M A := λ w, (Return (f w), w).
Definition modify (f : World → World) : M unit := λ w, (Return tt, f w).
Definition modify_app (f : App → App) : M unit := modify (with_app f).

Definition lift {A} (r : result A) : M A :=
  match r with Ok a => mret a | Err e => raise e end.

(** [try: body / except BaseException as err: handler err] *)
Definition try_except {A} (body : M A) (handler : exn → M A) : M A := λ w,
  match body w with
  | (Raise e, w') => handler e w'
  | r => r
  end.

(** [try: body / finally: fin].  A suspended body has not reached its
    [finally] clause. *)
Definition try_finally {A} (body : M A) (fin : M unit) : M A := λ w,
  match body w with
  | (Return a, w') => (_ ← fin; mret a) w'
  | (Raise e, w') => (_ ← fin; raise e) w'
  | r => r
  end.

Definition skip : M unit := mret tt.

(** [if b: body] *)
Definition when (b : bool) (body : M unit) : M unit := if b then body else skip.

(** [for x in l: body x] *)
Fixpoint for_each {A} (l : list A) (body : A → M unit) : M unit :=
  match l with
  | [] => mret tt
  | x :: l' => _ ← body x; for_each l' body
  end.

(** ** The [Config] class *)

Definition MAX_EXPAND_DEPTH : Z := 20.

(** The template-valued class attributes. *)
Definition Config_templates : fields := [
  ("abs_command_path", VStr "{abs_path(join_path(base_path,   command_path))}");
  ("abs_source_path", VStr "{abs_path(join_path(base_path,   source_path))}");
  ("abs_build_path", VStr "{abs_path(join_path(base_path,   build_path))}");
  ("abs_command_files", VStr "{flatten(join_path(abs_command_path, command_files))}");
  ("abs_source_files", VStr "{flatten(join_path(abs_source_path,  source_files))}");
  ("abs_build_files", VStr "{flatten(join_path(abs_build_path,   build_files))}");
  ("abs_build_deps", VStr "{flatten(join_path(abs_build_path,   build_deps))}");
  ("rel_source_path", VStr "{rel_path(abs_source_path,   abs_command_path)}");
  ("rel_build_path", VStr "{rel_path(abs_build_path,    abs_command_path)}");
  ("rel_command_files", VStr "{rel_path(abs_command_files, abs_command_path)}");
  ("rel_source_files", VStr "{rel_path(abs_source_files,  abs_command_path)}");
  ("rel_build_files", VStr "{rel_path(abs_build_files,   abs_command_path)}");
  ("rel_build_deps", VStr "{rel_path(abs_build_deps,    abs_command_path)}");
  ("default_command_path", VStr "{base_path}");
  ("default_source_path", VStr "{base_path}");
  ("default_build_path",
   VStr "{root_path}/{build_dir}/{build_tag}/{repo_name}/{rel_path(abs_source_path, repo_path)}");
  ("command_path", VStr "{default_command_path}");
  ("source_path", VStr "{default_source_path}");
  ("build_path", VStr "{default_build_path}")
].

(** Static attributes: the Python functions pass [inspect.isfunction];
    [len] and [print] are builtins and the remaining callables are bound
    methods when read from an instance. *)
Definition Config_statics : fields := [
  ("abs_path", VFunc HAbsPath); ("rel_path", VFunc HRelPath);
  ("join_path", VFunc HJoinPath); ("color", VFunc HColor);
  ("glob", VFunc HGlob); ("run_cmd", VFunc HRunCmd);
  ("swap_ext", VFunc HSwapExt); ("flatten", VFunc HFlatten);
  ("basename", VFunc HBasename);
  ("len", VNative "len"); ("print", VNative "print");
  ("update", VNative "update"); ("merge", VNative "merge");
  ("items", VNative "items"); ("keys", VNative "keys");
  ("expand", VNative "expand"); ("config", VNative "config");
  ("extend", VNative "extend"); ("repo", VNative "repo");
  ("repo2", VNative "repo2"); ("command2", VNative "command2");
  ("task", VNative "task"); ("module", VNative "module");
  ("include", VNative "include"); ("reset", VNative "reset");
  ("build", VNative "build"); ("get_log", VNative "get_log")
].

(** The class attributes, as [getattr] on an instance finds them when the
    instance has no field of that name.  A flag given on the command line
    re-binds the class attribute of its name. *)
Definition Config_class (c : Flags) : fields :=
  extra_flags c ++
  [ ("root_path", VStr (root_path c)); ("root_name", VStr (root_name c));
    ("repo_path", VStr (repo_path c)); ("repo_name", VStr (repo_name c));
    ("depformat", VStr "gcc"); ("job_count", VInt 1); ("ext_build", VBool false);
    ("jobs", VInt (jobs c)); ("verbose", VBool (verbose c));
    ("quiet", VBool (quiet c)); ("dry_run", VBool (dry_run c));
    ("debug", VBool (debug c)); ("force", VBool (force c));
    ("shuffle", VBool (shuffle c)); ("trace", VBool (trace c));
    ("use_color", VBool (use_color c)) ]
  ++ Config_templates ++ Config_statics.

(** [getattr(config, key)] on a [Config] instance with fields [config]. *)
Definition getattr (config : fields) (key : string) : M variant :=
  match assoc_get key config with
  | Some v => mret v
  | None =>
      c ← gets cls;
      match assoc_get key (Config_class c) with
      | Some v => mret v
      | None => raise (mkExn AttributeError
                         ("'Config' object has no attribute '" +:+ key +:+ "'"))
      end
  end.

(** ** Logging *)

Definition LF : string := String (ascii_of_nat 10) EmptyString.
Definition CR : string := String (ascii_of_nat 13) EmptyString.
Definition ESC : string := String (ascii_of_nat 27) EmptyString.

(** [str(o)] *)
Definition py_str (h : Host) (v : variant) : string :=
  match v with
  | VNone => "None"
  | VBool b => if b then "True" else "False"
  | VInt n => pretty n
  | VStr s => s
  | VExc e => exn_msg e
  | _ => repr_object h v
  end.

(** [log_line]; what goes to [sys.stdout] is not recorded. *)
Definition log_line (message : string) : M unit :=
  modify_app (λ a, set_log (log a +:+ message) a).

(** [log(message, sameline=..., end=...)] with [message] already a
    string; [end_] is the [end] keyword, [None] when it is not given. *)
Definition log_with (message : string) (sameline : bool) (end_ : option string)
    : M unit :=
  h ← gets host;
  let sameline := sameline && isatty h in
  let output := message +:+ default (if sameline then "" else LF) end_ in
  if bool_decide (output = "") then skip
  else
    _ ← (if sameline then
           log_line (CR +:+ substring 0 (columns h - 1) output +:+ ESC +:+ "[K")
         else
           dirty ← gets (λ w, line_dirty (app w));
           _ ← when dirty (log_line LF);
           log_line output);
    modify_app (set_line_dirty sameline).

Definition log_msg (message : string) : M unit := log_with message false None.

Definition log_exn (err : exn) : M unit := log_msg (exn_msg err).

(** [_color(red, green, blue)]; an argument that is not given is [None]. *)
Definition _color (red green blue : variant) : M string :=
  c ← gets cls; h ← gets host;
  if negb (use_color c) || os_name_nt h then mret ""
  else match red with
       | VNone => mret (ESC +:+ "[0m")
       | _ => mret (ESC +:+ "[38;2;" +:+ py_str h red +:+ ";" +:+ py_str h green
                    +:+ ";" +:+ py_str h blue +:+ "m")
       end.

Definition color_rgb (r g b : Z) : M string := _color (VInt r) (VInt g) (VInt b).
Definition color_reset : M string := _color VNone VNone VNone.

(** ** Files *)

(** The entry a path names; relative paths are taken from [cwd]. *)
Definition lookup_path (w : World) (p : string) : option node :=
  fs w !! abspath (cwd w) p.

(** [path.exists] *)
Definition path_exists (p : string) : M bool :=
  gets (λ w, bool_decide (is_Some (lookup_path w p))).

(** [_abs_path(raw_path, strict)] *)
Definition abs_path1 (raw_path : variant) (strict : bool) : M variant :=
  p ← lift (fspath raw_path);
  d ← gets cwd;
  let result := abspath d p in
  e ← path_exists result;
  if strict && negb e then raise (mkExn FileNotFoundError p)
  else mret (VStr result).

Fixpoint _abs_path (raw_path : variant) (strict : bool) : M variant :=
  match raw_path with
  | VList l => l' ← mapM (M:=M) (λ p, _abs_path p strict) l; mret (VList l')
  | _ => abs_path1 raw_path strict
  end.

(** [_mtime] *)
Definition _mtime (filename : string) : M Z :=
  _ ← modify_app (λ a, set_mtime_calls (mtime_calls a + 1) a);
  n ← gets (λ w, lookup_path w filename);
  match n with
  | Some f => mret (st_mtime_ns f)
  | None => raise (mkExn FileNotFoundError
                     ("No such file or directory: '" +:+ filename +:+ "'"))
  end.

(** ** The two regular expressions *)

Definition lbrace : ascii := "{"%char.
Definition rbrace : ascii := "}"%char.

(** Splits at the first occurrence of [c]: what precedes it and what
    follows it. *)
Fixpoint split_first (c : ascii) (s : string) : option (string * string) :=
  match s with
  | EmptyString => None
  | String a s' =>
      if Ascii.eqb a c then Some (EmptyString, s')
      else '(x, y) ← split_first c s'; Some (String a x, y)
  end.

(** [template_regex.search(template)] for the pattern [{[^}]*}]: the
    leftmost match starts at the first opening brace and ends at the first
    closing brace after it.  Returns the text before the span, the span
    and the text after it. *)
Definition template_search (template : string) : option (string * string * string) :=
  '(before, rest) ← split_first lbrace template;
  '(inner, after) ← split_first rbrace rest;
  Some (before, String lbrace inner +:+ "}", after).

(** [macro_regex.search(variant)] for the pattern [^{[^}]*}$]: the whole
    string is one span; [$] also matches before a final newline. *)
Definition macro_search (s : string) : bool :=
  match template_search s with
  | Some (before, _, after) =>
      bool_decide (before = "") && (bool_decide (after = "") || bool_decide (after = LF))
  | None => false
  end.

(** [macro[1:-1]] *)
Definition strip_ends (macro : string) : string :=
  substring 1 (String.length macro - 2) macro.

(** ** Expressions

    [eval] is Python's.  It is modelled on the expression forms that the
    templates of [Config] are written in: names, attribute access, calls,
    list displays and the literals [None], [True], [False], integers and
    strings without escapes.  Any other text (arithmetic, subscripts,
    floats, tuples, ...) is a [SyntaxError] here.  Attribute reads are
    modelled on [Expander] and [Config] objects and on the fields and
    class attributes of [Config]; the attributes that Python's other
    objects have, the names of the object protocol ([__class__],
    [__dict__], ...) and the calls of builtins and bound methods are not:
    they raise here. *)

Inductive expr :=
| ELit (v : variant)
| EName (x : string)
| EList (es : list expr)
| EAttr (e : expr) (x : string)
| ECall (f : expr) (args : list expr).

Inductive token :=
| TName (s : string) | TInt (n : Z) | TStr (s : string)
| TLPar | TRPar | TLBrk | TRBrk | TComma | TDot.

#[global] Instance token_eq_dec : EqDecision token.
Proof. solve_decision. Defined.

Definition in_range (lo hi : nat) (a : ascii) : bool :=
  let n := nat_of_ascii a in (lo <=? n)%nat && (n <=? hi)%nat.

Definition is_digit (a : ascii) : bool := in_range 48 57 a.
Definition is_ident_start (a : ascii) : bool :=
  in_range 65 90 a || in_range 97 122 a || Ascii.eqb a "_".
Definition is_ident_char (a : ascii) : bool := is_ident_start a || is_digit a.
Definition is_blank (a : ascii) : bool :=
  Ascii.eqb a " " || Ascii.eqb a (ascii_of_nat 9).

Fixpoint span_while (p : ascii → bool) (s : string) : string * string :=
  match s with
  | EmptyString => (EmptyString, EmptyString)
  | String a s' =>
      if p a then let '(x, y) := span_while p s' in (String a x, y)
      else (EmptyString, s)
  end.

Fixpoint digits_value (acc : Z) (s : string) : Z :=
  match s with
  | EmptyString => acc
  | String a s' => digits_value (10 * acc + Z.of_nat (nat_of_ascii a - 48)) s'
  end.

(** A decimal literal; a leading zero is only allowed in a literal of
    zeros. *)
Definition int_literal (w : string) : option Z :=
  let n := digits_value 0 w in
  if startswith w "0" && negb (n =? 0) then None else Some n.

Fixpoint has_char (c : ascii) (s : string) : bool :=
  match s with
  | EmptyString => false
  | String a s' => Ascii.eqb a c || has_char c s'
  end.

Fixpoint lex (fuel : nat) (s : string) : option (list token) :=
  match fuel with
  | O => None
  | S fuel' =>
      match s with
      | EmptyString => Some []
      | String a s' =>
          if is_blank a then lex fuel' s'
          else if is_ident_start a then
            let '(w, rest) := span_while is_ident_char s in
            ts ← lex fuel' rest; Some (TName w :: ts)
          else if is_digit a then
            let '(w, rest) := span_while is_digit s in
            n ← int_literal w; ts ← lex fuel' rest; Some (TInt n :: ts)
          else if Ascii.eqb a "'" || Ascii.eqb a (ascii_of_nat 34) then
            '(body, rest) ← split_first a s';
            if has_char "\" body || has_char (ascii_of_nat 10) body then None
            else ts ← lex fuel' rest; Some (TStr body :: ts)
          else
            t ← (if Ascii.eqb a "(" then Some TLPar
                 else if Ascii.eqb a ")" then Some TRPar
                 else if Ascii.eqb a "[" then Some TLBrk
                 else if Ascii.eqb a "]" then Some TRBrk
                 else if Ascii.eqb a "," then Some TComma
                 else if Ascii.eqb a "." then Some TDot
                 else None);
            ts ← lex fuel' s'; Some (t :: ts)
      end
  end.

Definition keywords : list string :=
  ["and"; "as"; "assert"; "async"; "await"; "break"; "class"; "continue";
   "def"; "del"; "elif"; "else"; "except"; "finally"; "for"; "from";
   "global"; "if"; "import"; "in"; "is"; "lambda"; "nonlocal"; "not"; "or";
   "pass"; "raise"; "return"; "try"; "while"; "with"; "yield"].

Definition name_atom (x : string) : option expr :=
  if bool_decide (x = "None") then Some (ELit VNone)
  else if bool_decide (x = "True") then Some (ELit (VBool true))
  else if bool_decide (x = "False") then Some (ELit (VBool false))
  else if bool_decide (x ∈ keywords) then None
  else Some (EName x).

Fixpoint parse_expr (fuel : nat) (ts : list token) {struct fuel}
    : option (expr * list token) :=
  match fuel with
  | O => None
  | S fuel' => '(a, ts1) ← parse_atom fuel' ts; parse_trailers fuel' a ts1
  end
with parse_atom (fuel : nat) (ts : list token) {struct fuel}
    : option (expr * list token) :=
  match fuel with
  | O => None
  | S fuel' =>
      match ts with
      | TName x :: r => a ← name_atom x; Some (a, r)
      | TInt n :: r => Some (ELit (VInt n), r)
      | TStr s :: r => Some (ELit (VStr s), r)
      | TLBrk :: r => '(es, r') ← parse_items fuel' r TRBrk; Some (EList es, r')
      | TLPar :: r =>
          '(e, r') ← parse_expr fuel' r;
          match r' with TRPar :: r'' => Some (e, r'') | _ => None end
      | _ => None
      end
  end
with parse_trailers (fuel : nat) (e : expr) (ts : list token) {struct fuel}
    : option (expr * list token) :=
  match fuel with
  | O => None
  | S fuel' =>
      match ts with
      | TDot :: TName x :: r =>
          if bool_decide (x ∈ keywords) then None
          else parse_trailers fuel' (EAttr e x) r
      | TLPar :: r =>
          '(es, r') ← parse_items fuel' r TRPar;
          parse_trailers fuel' (ECall e es) r'
      | TDot :: _ => None
      | _ => Some (e, ts)
      end
  end
with parse_items (fuel : nat) (ts : list token) (close : token) {struct fuel}
    : option (list expr * list token) :=
  match fuel with
  | O => None
  | S fuel' =>
      match ts with
      | [] => None
      | t :: r =>
          if bool_decide (t = close) then Some ([], r)
          else
            '(e, r1) ← parse_expr fuel' ts;
            match r1 with
            | TComma :: r2 => '(es, r3) ← parse_items fuel' r2 close; Some (e :: es, r3)
            | t' :: r2 => if bool_decide (t' = close) then Some ([e], r2) else None
            | [] => None
            end
      end
  end.

(** The syntax tree of an expression text, [None] on a syntax error. *)
Definition py_parse (s : string) : option expr :=
  ts ← lex (S (String.length s)) s;
  '(e, rest) ← parse_expr (4 * length ts + 4) ts;
  if bool_decide (rest = []) then Some e else None.

(** ** Helpers callable from a template *)

Definition is_space (a : ascii) : bool :=
  is_blank a || in_range 10 13 a.

Fixpoint lstrip (s : string) : string :=
  match s with
  | String a s' => if is_space a then lstrip s' else s
  | EmptyString => EmptyString
  end.

Fixpoint rstrip (s : string) : string :=
  match s with
  | EmptyString => EmptyString
  | String a s' =>
      match rstrip s' with
      | EmptyString => if is_space a then EmptyString else String a EmptyString
      | r => String a r
      end
  end.

(** [_run_cmd]: [subprocess.check_output(cmd, shell=True, text=True).strip()] *)
Definition _run_cmd (cmd : variant) : M variant :=
  match cmd with
  | VStr c =>
      h ← gets host; d ← gets cwd; files ← gets fs;
      let '(files', (out, _, rc)) := shell h c (VStr d) files in
      _ ← modify (with_fs (λ _, files'));
      if rc =? 0 then mret (VStr (rstrip (lstrip out)))
      else raise (mkExn CalledProcessError
                    ("Command '" +:+ c +:+ "' returned non-zero exit status "
                     +:+ pretty rc +:+ "."))
  | _ => raise (type_error "expected str" cmd)
  end.

Definition arity_error (name : string) : exn :=
  mkExn TypeError (name +:+ "() called with the wrong number of arguments").

(** A call [f(args)] of one of the static helpers. *)
Definition apply_helper (f : helper) (args : list variant) : M variant :=
  match f, args with
  | HFlatten, [v] => mret (VList (_flatten v))
  | HJoinPath, _ => lift (_join_path args)
  | HRelPath, [a; b] => lift (_rel_path a b)
  | HAbsPath, [p] => _abs_path p false
  | HAbsPath, [p; strict] => _abs_path p (truthy strict)
  | HSwapExt, [n; e] => lift (_swap_ext n e)
  | HBasename, [p] => s ← lift (fspath p); mret (VStr (basename s))
  | HColor, [] => VStr <$> _color VNone VNone VNone
  | HColor, [r] => VStr <$> _color r VNone VNone
  | HColor, [r; g] => VStr <$> _color r g VNone
  | HColor, [r; g; b] => VStr <$> _color r g b
  | HGlob, [VStr pat] =>
      h ← gets host; files ← gets fs;
      mret (VList (VStr <$> glob_glob h pat files))
  | HGlob, [v] => raise (type_error "expected str, bytes or os.PathLike object" v)
  | HRunCmd, [c] => _run_cmd c
  | HFlatten, _ => raise (arity_error "_flatten")
  | HRelPath, _ => raise (arity_error "_rel_path")
  | HAbsPath, _ => raise (arity_error "_abs_path")
  | HSwapExt, _ => raise (arity_error "_swap_ext")
  | HBasename, _ => raise (arity_error "basename")
  | HColor, _ => raise (arity_error "_color")
  | HGlob, _ => raise (arity_error "glob")
  | HRunCmd, _ => raise (arity_error "_run_cmd")
  end.

(** [f(args)] for an evaluated callee. *)
Definition py_call (f : variant) (args : list variant) : M variant :=
  match f with
  | VFunc h => apply_helper h args
  | VCallback k => h ← gets host; lift (call_function h k args)
  | _ => raise (mkExn TypeError ("'" +:+ type_name f +:+ "' object is not callable"))
  end.

(** The task object with index [t]. *)
Definition get_task (t : nat) : M Task :=
  ts ← gets tasks;
  match ts !! t with
  | Some tk => mret tk
  | None => raise (mkExn RuntimeError "dangling task reference")
  end.

Definition modify_task (t : nat) (f : Task → Task) : M unit :=
  modify (with_tasks (λ ts, match ts !! t with
                            | Some tk => <[t := f tk]> ts
                            | None => ts
                            end)).

Definition bars (depth : Z) : string :=
  String.concat "" (replicate (Z.to_nat depth) "┃").

(** ** Template expansion

    [expand], [expand_template], [eval_macro], [Expander.get] and the
    evaluator call one another; [fuel] bounds the nesting of these
    calls.  The interpreter's own recursion limit is not modelled: a call
    that runs out of every amount of fuel stands for a nesting that only
    that limit would stop. *)

Definition incr_depth : M unit :=
  modify_app (λ a, set_expand_depth (expand_depth a + 1) a).
Definition decr_depth : M unit :=
  modify_app (λ a, set_expand_depth (expand_depth a - 1) a).

(** The last case of [expand]: log and raise [ValueError]. *)
Definition expand_unknown (v : variant) : M variant :=
  h ← gets host;
  c1 ← color_rgb 255 0 0; c0 ← color_reset;
  let message := c1 +:+ "Don't know how to expand " +:+ type_name v +:+ " ='"
                 +:+ py_str h v +:+ "'" +:+ c0 in
  _ ← log_msg message;
  raise (mkExn ValueError message).

(** The [except] clause of [eval_macro]. *)
Definition eval_macro_failed (macro : string) (fail_ok : bool) (err : exn)
    : M variant :=
  if fail_ok then mret (VStr "")
  else
    _ ← log_exn err;
    c1 ← color_rgb 255 255 0; c0 ← color_reset;
    _ ← log_msg (c1 +:+ "Expanding macro '" +:+ macro +:+ "' failed! - "
                 +:+ exn_msg err +:+ c0);
    raise err.

(** The inner [except] clause of [expand_template]. *)
Definition expand_template_failed {A} (old_template : string) (err : exn) : M A :=
  _ ← log_exn err;
  c1 ← color_rgb 255 255 0; c0 ← color_reset;
  _ ← log_msg (c1 +:+ "Expanding template '" +:+ old_template +:+ "' failed! - "
               +:+ exn_msg err +:+ c0);
  raise err.

(** [" ".join([str(s) for s in _flatten(variant)])] *)
Definition stringify (h : Host) (v : variant) : string :=
  join_with " " (py_str h <$> _flatten v).

Fixpoint expand (fuel : nat) (config : fields) (v : variant) (fail_ok : bool)
    {struct fuel} : M variant :=
  match fuel with
  | O => out_of_fuel
  | S fuel' =>
      match v with
      | VConfig _ => mret v
      | VDict _ => mret v
      | VExc e => raise e
      | VTask t => tk ← get_task t; expand fuel' config (promise tk) fail_ok
      | VList l =>
          l' ← mapM (M:=M) (λ s, expand fuel' config s false) l; mret (VList l')
      | VStr s =>
          if macro_search s then eval_macro fuel' config s fail_ok
          else if bool_decide (is_Some (template_search s)) then
            r ← expand_template fuel' config s fail_ok; mret (VStr r)
          else mret v
      | VInt _ | VBool _ => mret v
      | VFunc _ | VCallback _ => mret v
      | _ => expand_unknown v
      end
  end

(** [expand_template] *)
with expand_template (fuel : nat) (config : fields) (template : string)
    (fail_ok : bool) {struct fuel} : M string :=
  match fuel with
  | O => out_of_fuel
  | S fuel' =>
      tr ← getattr config "trace";
      d ← gets (λ w, expand_depth (app w));
      _ ← when (truthy tr) (log_msg (bars d +:+ "┏ Expand '" +:+ template +:+ "'"));
      result ← try_finally
        (_ ← incr_depth;
         template_loop fuel' config template template "" fail_ok)
        decr_depth;
      tr' ← getattr config "trace";
      d' ← gets (λ w, expand_depth (app w));
      _ ← when (truthy tr') (log_msg (bars d' +:+ "┗ '" +:+ result +:+ "'"));
      mret result
  end

(** The [while span := template_regex.search(template)] loop of
    [expand_template], from the current [template] and [result]. *)
with template_loop (fuel : nat) (config : fields) (old_template template : string)
    (result : string) (fail_ok : bool) {struct fuel} : M string :=
  match fuel with
  | O => out_of_fuel
  | S fuel' =>
      match template_search template with
      | Some (before, macro, after) =>
          let result := result +:+ before in
          piece ← try_except
            (variant ← eval_macro fuel' config macro fail_ok;
             h ← gets host; mret (stringify h variant))
            (expand_template_failed old_template);
          template_loop fuel' config old_template after (result +:+ piece) fail_ok
      | None => mret (result +:+ template)
      end
  end

(** [eval_macro] *)
with eval_macro (fuel : nat) (config : fields) (macro : string) (fail_ok : bool)
    {struct fuel} : M variant :=
  match fuel with
  | O => out_of_fuel
  | S fuel' =>
      d ← gets (λ w, expand_depth (app w));
      if MAX_EXPAND_DEPTH <? d then
        raise (mkExn RecursionError
                 ("Expanding '" +:+ macro +:+ "' failed to terminate"))
      else
        tr ← getattr config "trace";
        _ ← when (truthy tr) (log_msg (bars d +:+ "┏ Eval '" +:+ macro +:+ "'"));
        _ ← incr_depth;
        result ← try_finally
          (try_except
             match py_parse (strip_ends macro) with
             | Some e => py_eval fuel' config e
             | None => raise (mkExn SyntaxError "invalid syntax")
             end
             (eval_macro_failed macro fail_ok))
          decr_depth;
        tr' ← Expander_get fuel' config "trace";
        d' ← gets (λ w, expand_depth (app w));
        h ← gets host;
        _ ← when (truthy tr') (log_msg (bars d' +:+ "┗ " +:+ py_str h result));
        mret result
  end

(** [Expander(config).get(key)] *)
with Expander_get (fuel : nat) (config : fields) (key : string) {struct fuel}
    : M variant :=
  match fuel with
  | O => out_of_fuel
  | S fuel' =>
      v ← getattr config key;
      expanded ← expand fuel' config v false;
      match expanded with
      | VConfig d => mret (VExpander d)
      | _ => mret expanded
      end
  end

(** [eval(e, {}, Expander(config))] on a syntax tree. *)
with py_eval (fuel : nat) (config : fields) (e : expr) {struct fuel} : M variant :=
  match fuel with
  | O => out_of_fuel
  | S fuel' =>
      match e with
      | ELit v => mret v
      | EName x => Expander_get fuel' config x
      | EList es => l ← mapM (M:=M) (py_eval fuel' config) es; mret (VList l)
      | EAttr e1 x =>
          o ← py_eval fuel' config e1;
          match o with
          | VExpander d =>
              (* [config] is found on the instance and [get] on the class;
                 [__getattr__] is only the fallback *)
              if bool_decide (x = "config") then mret (VConfig d)
              else if bool_decide (x = "get") then mret (VNative "get")
              else Expander_get fuel' d x
          | VConfig d => getattr d x
          | _ => raise (mkExn AttributeError
                          ("'" +:+ type_name o +:+ "' object has no attribute '"
                           +:+ x +:+ "'"))
          end
      | ECall f args =>
          fv ← py_eval fuel' config f;
          vs ← mapM (M:=M) (py_eval fuel' config) args;
          py_call fv vs
      end
  end.

(** ** Tasks *)

(** [app.topdir()] *)
Definition topdir : M string :=
  ds ← gets (λ w, dirstack (app w));
  match last ds with
  | Some d => mret d
  | None => raise (mkExn IndexError "list index out of range")
  end.

(** The [defaults] config of [Task.__init__]. *)
Definition Task_defaults (root base : string) : fields :=
  Config [] [
    ("desc", VStr "{source_files} -> {build_files}");
    ("root_path", VStr root);
    ("repo_path", VStr root);
    ("base_path", VStr base);
    ("command", VNone);
    ("command_path", VStr "{default_command_path}");
    ("command_files", VList []);
    ("source_path", VStr "{default_source_path}");
    ("source_files", VList []);
    ("build_tag", VStr "");
    ("build_dir", VStr "build");
    ("build_path", VStr "{default_build_path}");
    ("build_files", VList []);
    ("build_deps", VList []);
    ("other_files", VList [])
  ].

Definition is_None (v : variant) : bool :=
  match v with VNone => true | _ => false end.

(** [Task.__init__(self, args..., kwargs...)]: returns the index of the
    new task object.  An object whose constructor raises is never
    referenced, so it does not enter the task table. *)
Definition Task_init (args : list fields) (kwargs : fields) : M nat :=
  root ← gets (λ w, root_path (cls w));
  base ← topdir;
  let defaults := Task_defaults root base in
  let self_config := Config (defaults :: args) kwargs in
  self ← gets (λ w, length (tasks w));
  command ← getattr self_config "command";
  if is_None command then
    h ← gets host;
    raise (mkExn ValueError ("Task has no command - " +:+ repr_object h (VTask self)))
  else
    _ ← modify (with_tasks (λ ts, ts ++ [mkTask self_config None VNone VNone "" "" 0]));
    _ ← modify_app (λ a, set_tasks_total (tasks_total a + 1) a);
    _ ← modify_app (λ a, set_pending_tasks (pending_tasks a ++ [self]) a);
    mret self.

Definition is_Config (v : variant) : bool :=
  match v with VConfig _ => true | _ => false end.

(** [Command.__call__(self, source_files, build_files, kwargs...)];
    [None] stands for an argument that is not given. *)
Definition Command_call (self : fields) (source_files build_files : variant)
    (kwargs : fields) : M nat :=
  if is_Config build_files then
    _ ← log_msg "You've got a config in your build_files";
    raise (mkExn AssertionError "")
  else
    let new_config := Config [self] [] in
    let new_config :=
      if is_None source_files then new_config
      else assoc_set "source_files" source_files new_config in
    let new_config :=
      if is_None build_files then new_config
      else assoc_set "build_files" build_files new_config in
    Task_init [] (update new_config [kwargs] []).

(** [app.queue_pending_tasks()]: every pending task gets its asyncio
    task and moves to the queue. *)
Definition queue_pending_tasks : M unit :=
  pending ← gets (λ w, pending_tasks (app w));
  if bool_decide (pending = []) then skip
  else
    c ← gets cls; h ← gets host;
    pending ← (if shuffle c then
                 _ ← log_msg ("Shufflin' " +:+ pretty (length pending) +:+ " tasks");
                 mret (random_shuffle h pending)
               else mret pending);
    _ ← for_each pending (λ t,
          _ ← modify_task t (set_promise (VFuture t));
          modify_app (λ a, set_queued_tasks (queued_tasks a ++ [t]) a));
    modify_app (set_pending_tasks []).

(** [await fut] for the asyncio task of task [t]. *)
Definition await_future (t : nat) : M variant :=
  r ← gets (λ w, futures w !! t);
  match r with
  | Some v => mret v
  | None => block (WaitFuture t)
  end.

Definition is_cancel (v : variant) : option exn :=
  match v with
  | VExc e => if isinstance_exn e CancelledError then Some e else None
  | _ => None
  end.

(** [_await_variant]: dicts, lists and configs are returned with their
    entries replaced. *)
Fixpoint _await_variant (fuel : nat) (v : variant) {struct fuel} : M variant :=
  match fuel with
  | O => out_of_fuel
  | S fuel' =>
      let await_items (d : fields) : M fields :=
        mapM (M:=M) (λ kv : string * variant,
                      x ← _await_variant fuel' kv.2; mret (kv.1, x)) d in
      match is_cancel v, v with
      | Some e, _ => raise e
      | None, VTask t =>
          tk ← get_task t;
          _ ← when (is_None (promise tk)) queue_pending_tasks;
          tk ← get_task t;
          match promise tk with
          | VFuture u =>
              p ← await_future u;
              p' ← _await_variant fuel' p;
              _ ← modify_task t (set_promise p');
              mret v
          | _ => mret v
          end
      | None, VConfig d => d' ← await_items d; mret (VConfig d')
      | None, VDict d => d' ← await_items d; mret (VDict d')
      | None, VList l => l' ← mapM (M:=M) (_await_variant fuel') l; mret (VList l')
      | None, VFuture u => await_future u
      | None, _ => mret v
      end
  end.

(** *** [task_init] *)

(** The elements of a flattened [_abs_path] result are strings. *)
Definition as_paths (v : variant) : M (list string) :=
  mapM (M:=M) (λ x, lift (fspath x)) (_flatten v).

(** The duplicate check of [task_init]:
    [for abs_file in abs_build_files: if abs_file in all_build_files:
    raise NameError; all_build_files.add(abs_file)]. *)
Definition register_build_file (abs_file : string) : M unit :=
  seen ← gets (λ w, all_build_files (app w));
  if bool_decide (abs_file ∈ seen) then
    raise (mkExn NameError ("Multiple rules build " +:+ abs_file +:+ "!"))
  else modify_app (λ a, set_all_build_files ({[abs_file]} ∪ all_build_files a) a).

Definition register_build_files (files : list string) : M unit :=
  for_each files register_build_file.

(** The directories on the way to [p], outermost first. *)
Definition path_prefixes (p : string) : list string :=
  let comps := split_on sep p in
  omap (λ n, let pre := join_with "/" (take n comps) in
             if bool_decide (pre = "") then None else Some pre)
       (seq 1 (length comps)).

(** [os.makedirs(d, exist_ok=True)] *)
Definition makedirs (d : string) : M unit :=
  c ← gets cwd;
  for_each (path_prefixes (abspath c d)) (λ p,
    n ← gets (λ w, fs w !! p);
    match n with
    | None => modify (with_fs (λ f, <[p := mkNode true 0 ""]> f))
    | Some e =>
        if is_dir e then skip
        else raise (mkExn OSError ("File exists: '" +:+ p +:+ "'"))
    end).

Definition str_of (v : variant) : M string := h ← gets host; mret (py_str h v).

(** [Task.task_init] for the task with index [self]. *)
Definition task_init (fuel : nat) (self : nat) : M unit :=
  _ ← modify_app (λ a, set_task_counter (task_counter a + 1) a);
  tk ← get_task self;
  let config := config tk in
  let expand_attr (key : string) : M variant :=
    v ← getattr config key; expand fuel config v false in
  desc ← expand_attr "desc";
  command ← expand_attr "command";
  depformat ← expand_attr "depformat";
  job_count ← expand_attr "job_count";
  ext_build ← expand_attr "ext_build";
  task_index ← gets (λ w, task_counter (app w));
  base_path ← getattr config "base_path";
  command_path ← expand_attr "command_path";
  source_path ← expand_attr "source_path";
  build_path ← expand_attr "build_path";
  command_files ← expand_attr "command_files";
  source_files ← expand_attr "source_files";
  build_files ← expand_attr "build_files";
  build_deps ← expand_attr "build_deps";
  let command_files := _flatten command_files in
  let source_files := _flatten source_files in
  let build_files := _flatten build_files in
  let build_deps := _flatten build_deps in
  j ← lift (_join_path [base_path; command_path]);
  abs_command_path ← _abs_path j true;
  j ← lift (_join_path [base_path; source_path]);
  abs_source_path ← _abs_path j true;
  j ← lift (_join_path [base_path; build_path]);
  abs_build_path ← _abs_path j false;
  j ← lift (_join_path [abs_command_path; VList command_files]);
  abs_command_files ← _abs_path (VList (_flatten j)) true;
  j ← lift (_join_path [abs_source_path; VList source_files]);
  abs_source_files ← _abs_path (VList (_flatten j)) true;
  j ← lift (_join_path [abs_build_path; VList build_files]);
  abs_build_files ← _abs_path (VList (_flatten j)) false;
  j ← lift (_join_path [abs_build_path; VList build_deps]);
  abs_build_deps ← _abs_path (VList (_flatten j)) false;
  abs_command_files ← as_paths abs_command_files;
  abs_source_files ← as_paths abs_source_files;
  abs_build_files ← as_paths abs_build_files;
  abs_build_deps ← as_paths abs_build_deps;
  _ ← modify_task self (set_action (Some (mkAction
         desc (_flatten command) depformat job_count ext_build task_index
         base_path command_path source_path build_path
         command_files source_files build_files build_deps
         abs_command_path abs_source_path abs_build_path
         abs_command_files abs_source_files abs_build_files abs_build_deps)));
  root ← gets (λ w, root_path (cls w));
  bp ← str_of abs_build_path;
  if negb (startswith bp root) then
    raise (mkExn ValueError ("Path error, build_path " +:+ bp
                             +:+ " is not under root_path " +:+ root))
  else
    (* Check for duplicate task outputs *)
    _ ← register_build_files abs_build_files;
    (* Make sure our output directories exist *)
    dry ← getattr config "dry_run";
    when (negb (truthy dry))
      (for_each abs_build_files (λ abs_file, makedirs (dirname abs_file))).

(** *** [needs_rerun] *)

(** [repr] of a list of strings, as an f-string prints it. *)
Definition repr_paths (l : list string) : string :=
  "[" +:+ join_with ", " ((λ s, "'" +:+ s +:+ "'") <$> l) +:+ "]".

(** [str.split()]: the maximal runs of characters that are not white
    space. *)
Fixpoint split_ws (s : string) : list string :=
  match s with
  | EmptyString => []
  | String a s' =>
      if is_space a then split_ws s'
      else match s' with
           | EmptyString => [String a EmptyString]
           | String b _ =>
               if is_space b then String a EmptyString :: split_ws s'
               else match split_ws s' with
                    | w :: ws => String a w :: ws
                    | [] => [String a EmptyString]
                    end
           end
  end.

(** [min(_mtime(f) for f in files)] *)
Definition min_mtime (files : list string) : M Z :=
  times ← mapM (M:=M) _mtime files;
  match times with
  | [] => raise (mkExn ValueError "min() arg is an empty sequence")
  | t :: ts => mret (foldl Z.min t ts)
  end.

(** [for abs_file in files: if _mtime(abs_file) >= min_out: return ...]:
    the reason of the first hit, if there is one. *)
Fixpoint first_changed (files : list string) (min_out : Z) : M (option string) :=
  match files with
  | [] => mret None
  | abs_file :: rest =>
      t ← _mtime abs_file;
      if min_out <=? t then
        mret (Some ("Rebuilding because " +:+ abs_file +:+ " has changed"))
      else first_changed rest min_out
  end.

(** [for abs_file in files: if not path.exists(abs_file): return ...] *)
Fixpoint first_missing (files : list string) : M (option string) :=
  match files with
  | [] => mret None
  | abs_file :: rest =>
      e ← path_exists abs_file;
      if e : bool then first_missing rest
      else mret (Some ("Rebuilding because " +:+ abs_file +:+ " is missing"))
  end.

(** [open(abs_depfile).read()] *)
Definition read_file (p : string) : M string :=
  n ← gets (λ w, lookup_path w p);
  match n with
  | Some f =>
      if is_dir f then raise (mkExn OSError ("Is a directory: '" +:+ p +:+ "'"))
      else mret (content f)
  | None => raise (mkExn FileNotFoundError
                     ("No such file or directory: '" +:+ p +:+ "'"))
  end.

(** The body of the depfile loop for one existing depfile.  In the last
    branch the f-string names [depformat], which is bound neither in the
    function nor in the module: evaluating it raises [NameError] before
    [ValueError] is constructed. *)
Definition check_depfile (config : fields) (a : Action) (abs_depfile : string)
    (min_out : Z) : M (option string) :=
  dbg ← getattr config "debug";
  _ ← when (truthy dbg) (log_msg ("Found depfile " +:+ abs_depfile));
  text ← read_file abs_depfile;
  deplines ←
    (if str_eqb (a_depformat a) (VStr "msvc") then
       (* MSVC /sourceDependencies json depfile *)
       h ← gets host; lift (json_includes h text)
     else if str_eqb (a_depformat a) (VStr "gcc") then
       (* GCC .d depfile *)
       mret (filter (λ d, d ≠ "\") (tail (split_ws text)))
     else raise (mkExn NameError "name 'depformat' is not defined"));
  (* The contents of the depfile are RELATIVE TO THE WORKING DIRECTORY *)
  deplines ← mapM (M:=M)
    (λ d, p ← lift (path_join (abs_command_path a) (VStr d)); lift (fspath p))
    deplines;
  first_changed deplines min_out.

Fixpoint check_depfiles (config : fields) (a : Action) (deps : list string)
    (min_out : Z) : M (option string) :=
  match deps with
  | [] => mret None
  | abs_depfile :: rest =>
      e ← path_exists abs_depfile;
      if negb e then check_depfiles config a rest min_out
      else
        r ← check_depfile config a abs_depfile min_out;
        match r with
        | Some reason => mret (Some reason)
        | None => check_depfiles config a rest min_out
        end
  end.

Definition get_action (self : nat) : M Action :=
  tk ← get_task self;
  match action tk with
  | Some a => mret a
  | None => raise (mkExn AttributeError "'Config' object has no attribute of the action")
  end.

(** Runs [first]; if it finds no reason, continues with [next]. *)
Definition or_else (first : M (option string)) (next : M string) : M string :=
  r ← first;
  match r with
  | Some reason => mret reason
  | None => next
  end.

(** [Task.needs_rerun(force)] *)
Definition needs_rerun (self : nat) (force : bool) : M string :=
  tk ← get_task self;
  a ← get_action self;
  if force then
    mret ("Files " +:+ repr_paths (abs_build_files a) +:+ " forced to rebuild")
  else if bool_decide (abs_source_files a = []) then
    mret "Always rebuild a target with no inputs"
  else if bool_decide (abs_build_files a = []) then
    mret "Always rebuild a target with no outputs"
  else
    (* Check if any of our output files are missing. *)
    or_else (first_missing (abs_build_files a)) (
    (* Check if any of our input files are newer than the output files. *)
    min_out ← min_mtime (abs_build_files a);
    or_else (first_changed (abs_source_files a) min_out) (
    or_else (first_changed (abs_command_files a) min_out) (
    mods ← gets (λ w, loaded_modules (app w));
    or_else (first_changed mods min_out) (
    (* Check all dependencies in the depfile, if present. *)
    or_else (check_depfiles (config tk) a (abs_build_deps a) min_out) (
    (* All checks passed; we don't need to rebuild this output. *)
    mret ""))))).

(** *** The job pool *)

Definition int_arg (v : variant) : M Z :=
  match as_int v with
  | Some n => mret n
  | None => raise (type_error "unsupported operand type(s) for an int operation" v)
  end.

(** [App.acquire_jobs(count)] *)
Definition acquire_jobs (count : variant) : M unit :=
  c ← int_arg count;
  pool ← gets (λ w, jobs (cls w));
  if pool <? c then
    raise (mkExn ValueError ("Nedd " +:+ pretty c +:+ " jobs, but pool is "
                             +:+ pretty pool +:+ "."))
  else
    (* await self.jobs_lock.wait_for(lambda: self.jobs_available >= count) *)
    avail ← gets (λ w, jobs_available (app w));
    if avail <? c then block (WaitJobs c)
    else modify_app (λ a, set_jobs_available (jobs_available a - c) a).

(** [App.release_jobs(count)] *)
Definition release_jobs (count : variant) : M unit :=
  c ← int_arg count;
  modify_app (λ a, set_jobs_available (jobs_available a + c) a).

(** *** Running the commands *)

Definition paths_value (l : list string) : variant := VList (VStr <$> l).

(** [Task.run_command(command)] *)
Definition run_command (self : nat) (command : variant) : M variant :=
  a ← get_action self;
  tk ← get_task self;
  (* Early exit if this is just a dry run *)
  dry ← getattr [] "dry_run";
  if truthy dry then mret (paths_value (abs_build_files a))
  else
    match command with
    (* Custom commands just get called and then early-out'ed. *)
    | VCallback k =>
        h ← gets host; files ← gets fs;
        let '(files', r) := callback h k self files in
        _ ← modify (with_fs (λ _, files'));
        lift r
    | VFunc f => apply_helper f [VTask self]
    | VNative name =>
        raise (mkExn TypeError (name +:+ "() cannot be applied to a Task"))
    | VStr cmd =>
        (* Create the subprocess via asyncio and then await the result. *)
        h ← gets host; files ← gets fs;
        let '(files', (out, err, rc)) := shell h cmd (abs_command_path a) files in
        _ ← modify (with_fs (λ _, files'));
        _ ← modify_task self (set_proc out err rc);
        (* Print command output if needed *)
        q ← getattr (config tk) "quiet";
        _ ← when ((negb (bool_decide (out = "")) || negb (bool_decide (err = "")))
                  && negb (truthy q))
              (_ ← when (negb (bool_decide (err = "")))
                     (_ ← log_msg "-----stderr-----"; log_with err false (Some ""));
               when (negb (bool_decide (out = "")))
                 (_ ← log_msg "-----stdout-----"; log_with out false (Some "")));
        (* Task complete, check the task return code *)
        if negb (rc =? 0) then
          raise (mkExn ValueError ("Command '" +:+ cmd +:+ "' exited with return code "
                                   +:+ pretty rc))
        else
          (* Task passed, return the output file list *)
          mret (paths_value (abs_build_files a))
    (* Non-string non-callable commands are not valid *)
    | _ =>
        h ← gets host;
        raise (mkExn ValueError ("Don't know what to do with " +:+ py_str h command))
    end.

(** The status line [[i/N] desc]. *)
Definition status_line (r g b : Z) (a : Action) : M string :=
  c1 ← color_rgb r g b; c0 ← color_reset;
  total ← gets (λ w, tasks_total (app w));
  h ← gets host;
  mret (c1 +:+ "[" +:+ pretty (a_task_index a) +:+ "/" +:+ pretty total +:+ "]"
        +:+ c0 +:+ " " +:+ py_str h (a_desc a)).

(** The [for exp_command in self.action.command] loop of [run_commands];
    [result] is the value of the last command. *)
Fixpoint run_each (self : nat) (a : Action) (chatty : bool)
    (commands : list variant) (result : variant) : M variant :=
  match commands with
  | [] => mret result
  | exp_command :: rest =>
      _ ← when chatty
        (root ← gets (λ w, root_path (cls w));
         rel_command_path ← lift (_rel_path (abs_command_path a) (VStr root));
         h ← gets host;
         c1 ← color_rgb 128 128 255; c0 ← color_reset;
         _ ← log_with (c1 +:+ py_str h rel_command_path +:+ "$ " +:+ c0) false (Some "");
         dry ← getattr [] "dry_run";
         _ ← log_with (if truthy dry then "(DRY RUN) " else "") false (Some "");
         log_msg (py_str h exp_command));
      result ← run_command self exp_command;
      run_each self a chatty rest result
  end.

(** [Task.run_commands] *)
Definition run_commands (self : nat) : M variant :=
  a ← get_action self;
  tk ← get_task self;
  try_finally
    ((* Wait for enough jobs to free up to run this task. *)
     _ ← acquire_jobs (a_job_count a);
     v ← getattr (config tk) "verbose";
     dbg ← getattr (config tk) "debug";
     line ← status_line 128 255 196 a;
     _ ← log_with line (negb (truthy v)) None;
     let chatty := truthy v || truthy dbg in
     _ ← when chatty
           (c1 ← color_rgb 128 128 128; c0 ← color_reset; h ← gets host;
            log_msg (c1 +:+ "Reason: " +:+ py_str h (reason tk) +:+ c0));
     run_each self a chatty (a_command a) (VList []))
    (release_jobs (a_job_count a)).

(** *** [run_async] *)

(** [try: body / except c1 as err: h1 / except c2 as err: h2 / ...]: the
    first clause whose class the exception is an instance of handles it. *)
Fixpoint select_clause {A} (clauses : list (exn_class * (exn → M A))) (e : exn)
    : M A :=
  match clauses with
  | [] => raise e
  | (c, handler) :: rest =>
      if isinstance_exn e c then handler e else select_clause rest e
  end.

Definition try_clauses {A} (body : M A) (clauses : list (exn_class * (exn → M A)))
    : M A :=
  try_except body (select_clause clauses).

(** The [try] block of [run_async]. *)
Definition run_async_body (fuel : nat) (self : nat) : M variant :=
  tk ← get_task self;
  (* Await everything awaitable in this task's rule. *)
  awaited ← _await_variant fuel (VConfig (config tk));
  _ ← modify_task self (set_config match awaited with
                                   | VConfig d => d
                                   | _ => config tk
                                   end);
  (* Everything awaited, task_init runs synchronously. *)
  _ ← task_init fuel self;
  (* Check if we need a rebuild *)
  tk ← get_task self;
  f ← getattr (config tk) "force";
  r ← needs_rerun self (truthy f);
  _ ← modify_task self (set_reason (VStr r));
  dbg ← getattr (config tk) "debug";
  v ← getattr (config tk) "verbose";
  h ← gets host;
  _ ← when (truthy dbg) (log_msg (repr_object h (VTask self)));
  (* Run the commands if we need to. *)
  if negb (bool_decide (r = "")) then
    result ← run_commands self;
    _ ← modify_app (λ a, set_tasks_pass (tasks_pass a + 1) a);
    mret result
  else
    a ← get_action self;
    line ← status_line 128 196 255 a;
    _ ← log_with line (negb (truthy v)) None;
    _ ← when (truthy v || truthy dbg)
          (c1 ← color_rgb 128 128 128; c0 ← color_reset;
           log_msg (c1 +:+ "Files " +:+ py_str h (VList (a_build_files a))
                    +:+ " are up to date" +:+ c0));
    _ ← modify_app (λ a, set_tasks_skip (tasks_skip a + 1) a);
    mret (paths_value (abs_build_files a)).

(** [except BaseException as err] of [run_async]. *)
Definition on_failure (err : exn) : M variant :=
  c1 ← color_rgb 255 128 128;
  _ ← log_msg c1;
  _ ← log_exn err;
  c0 ← color_reset;
  _ ← log_msg c0;
  _ ← modify_app (λ a, set_tasks_fail (tasks_fail a + 1) a);
  mret (VExc (mkExn CancelledError "")).

(** [except asyncio.CancelledError as cancel] of [run_async]. *)
Definition on_cancel (cancel : exn) : M variant :=
  _ ← modify_app (λ a, set_tasks_cancel (tasks_cancel a + 1) a);
  mret (VExc cancel).

(** [Task.run_async]: the clauses in the order of the source. *)
Definition run_async (fuel : nat) (self : nat) : M variant :=
  try_clauses (run_async_body fuel self)
    [ (BaseException, on_failure);
      (CancelledError, on_cancel) ].

(** ** The event loop

    One schedule of the cooperative loop: the asyncio task of a Hancho
    task runs until it completes; when it awaits the future of a task
    that is not done, that task is run first and the waiting coroutine
    then starts over, which up to that await has only replaced awaited
    values by themselves. *)

Fixpoint run_future (fuel : nat) (t : nat) {struct fuel} : M unit :=
  match fuel with
  | O => out_of_fuel
  | S fuel' =>
      done ← gets (λ w, futures w !! t);
      match done with
      | Some _ => skip
      | None => λ w,
          match run_async fuel' t w with
          | (Return v, w') => (Return tt, with_futures (λ f, <[t := v]> f) w')
          | (Blocked (WaitFuture u), w') =>
              (_ ← run_future fuel' u; run_future fuel' t) w'
          | (Blocked b, w') => (Blocked b, w')
          | (Raise e, w') => (Raise e, w')
          | (OutOfFuel, w') => (OutOfFuel, w')
          end
      end
  end.

(** The [while self.queued_tasks] loop of [async_run_tasks]. *)
Fixpoint drain_queue (fuel : nat) {struct fuel} : M unit :=
  match fuel with
  | O => out_of_fuel
  | S fuel' =>
      queued ← gets (λ w, queued_tasks (app w));
      match queued with
      | [] => skip
      | task :: rest =>
          _ ← modify_app (set_queued_tasks rest);
          tk ← get_task task;
          _ ← match promise tk with
              | VFuture u => run_future fuel' u
              | _ => skip
              end;
          _ ← queue_pending_tasks;
          drain_queue fuel'
      end
  end.

(** [App.async_run_tasks]: the exit status. *)
Definition async_run_tasks (fuel : nat) : M Z :=
  n ← gets (λ w, jobs (cls w));
  _ ← modify_app (set_jobs_available n);
  (* Run all tasks in the queue until we run out. *)
  _ ← queue_pending_tasks;
  _ ← drain_queue fuel;
  c ← gets cls;
  a ← gets app;
  _ ← when (debug c)
        (_ ← log_msg ("tasks total:     " +:+ pretty (tasks_total a));
         _ ← log_msg ("tasks passed:    " +:+ pretty (tasks_pass a));
         _ ← log_msg ("tasks failed:    " +:+ pretty (tasks_fail a));
         _ ← log_msg ("tasks skipped:   " +:+ pretty (tasks_skip a));
         _ ← log_msg ("tasks cancelled: " +:+ pretty (tasks_cancel a));
         log_msg ("mtime calls:     " +:+ pretty (mtime_calls a)));
  c0 ← color_reset;
  _ ← (if negb (tasks_fail a =? 0) then
         c1 ← color_rgb 255 128 128; log_msg ("hancho: " +:+ c1 +:+ "BUILD FAILED" +:+ c0)
       else if negb (tasks_pass a =? 0) then
         c1 ← color_rgb 128 255 128; log_msg ("hancho: " +:+ c1 +:+ "BUILD PASSED" +:+ c0)
       else
         c1 ← color_rgb 128 128 255; log_msg ("hancho: " +:+ c1 +:+ "BUILD CLEAN" +:+ c0));
  mret (if negb (tasks_fail a =? 0) then -1 else 0).

(** ** What the specification says of [join_path] and the round trip *)

(** The strings at the leaves of an argument. *)
Definition str_leaves (v : variant) : result (list string) :=
  mapM (M:=result) fspath (_flatten v).

(** The Cartesian product of a list of sequences, first sequence
    outermost. *)
Fixpoint cartesian (ls : list (list string)) : list (list string) :=
  match ls with
  | [] => [[]]
  | l :: ls' => x ← l; t ← cartesian ls'; [x :: t]
  end.

(** The components of one tuple joined pairwise. *)
Fixpoint join_tuple (t : list string) : string :=
  match t with
  | [] => ""
  | [x] => x
  | x :: t' => posix_join x (join_tuple t')
  end.

(** [join_path] as the specification words it: the product of the
    flattened arguments, each tuple joined, one result collapsed. *)
Definition join_path_spec (args : list variant) : result variant :=
  ls ← mapM (M:=result) str_leaves args;
  Ok (collapse (VStr <$> (join_tuple <$> cartesian ls))).

(** [rel_path(join_path(base, p), base)] *)
Definition rel_of_join (base p : string) : result variant :=
  j ← _join_path [VStr base; VStr p]; _rel_path j (VStr base).

(** [p] has no [..] segment. *)
Definition no_dotdot (p : string) : bool :=
  negb (bool_decide (".." ∈ split_on sep p)).

(** ** The duplicate check over a build

    The output lists of several tasks checked in turn, the way
    [run_async] drives [task_init]: a task whose check raises has failed
    and the next task runs; [true] marks a task whose check passed. *)

Definition declare_outputs (files : list string) : M bool :=
  try_except (_ ← register_build_files files; mret true) (λ _, mret false).

Definition declare_all (tasks : list (list string)) : M (list bool) :=
  mapM (M:=M) declare_outputs tasks.

(** [all_build_files] *)
Definition seen (w : World) : gset string := all_build_files (app w).

(** What differs between two worlds is at most the set of outputs. *)
Definition same_but_outputs (w w' : World) : Prop :=
  w' = with_app (set_all_build_files (seen w')) w.

(** ** Observations of the world

    [preserves f m]: running [m] leaves the observation [f] of the world
    as it was, however [m] ends. *)

Definition preserves {X A} (f : World → X) (m : M A) : Prop :=
  ∀ w, f (m w).2 = f w.

(** An observation that looks neither at [app] nor at the files. *)
Definition stable {X} (f : World → X) : Prop :=
  (∀ g w, f (with_app g w) = f w) ∧ (∀ g w, f (with_fs g w) = f w).

(** Tracing is off: no field and no flag re-binds [trace], and the
    [--trace] flag is not set. *)
Definition tracing_off (C : fields) (w : World) : Prop :=
  assoc_get "trace" C = None
  ∧ assoc_get "trace" (extra_flags (cls w)) = None
  ∧ trace (cls w) = false.

(** [returns m]: [m] returns from every world. *)
Definition returns {A} (m : M A) : Prop := ∀ w, ∃ a, (m w).1 = Return a.

(** The two counters that tell a failure from a cancellation. *)
Definition blame (w : World) : Z * Z := (tasks_fail (app w), tasks_cancel (app w)).

Definition jobs_of (w : World) : Z := jobs_available (app w).
Definition depth_of (w : World) : Z := expand_depth (app w).
Definition files_of (w : World) : gmap string node * string := (fs w, cwd w).

(** ** Modification times, as the staleness rules speak of them *)

(** The mtime of the entry that [f] names, if there is one. *)
Definition mtime_of (w : World) (f : string) : option Z :=
  st_mtime_ns <$> lookup_path w f.

(** [m] is the minimum of the mtimes of [files]. *)
Definition is_min_mtime (w : World) (files : list string) (m : Z) : Prop :=
  (∃ b, b ∈ files ∧ mtime_of w b = Some m)
  ∧ ∀ b t, b ∈ files → mtime_of w b = Some t → m ≤ t.

(** Every file of the list is on disk. *)
Definition all_exist (w : World) (files : list string) : Prop :=
  ∀ f, f ∈ files → is_Some (lookup_path w f).

(** ** Well-founded values and plain tracing *)

(** No config, dict or expander inside [v] has a field named [trace]. *)
Fixpoint clean (v : variant) : bool :=
  let clean_fields := fix go (d : fields) : bool :=
    match d with
    | [] => true
    | (k, x) :: d' => negb (bool_decide (k = "trace")) && clean x && go d'
    end in
  match v with
  | VList l => forallb clean l
  | VDict d | VConfig d | VExpander d => clean_fields d
  | _ => true
  end.

(** The lists and task promises of [v] unfold in fewer than [n] steps. *)
Fixpoint shallow (n : nat) (ts : list Task) (v : variant) : bool :=
  match n with
  | O => false
  | S n' =>
      match v with
      | VList l => forallb (shallow n' ts) l
      | VTask t =>
          match ts !! t with
          | Some tk => shallow n' ts (promise tk)
          | None => true
          end
      | _ => true
      end
  end.

(** What expansion reads but never writes: the tasks, the class
    attributes, the host. *)
Definition env_of (w : World) : list Task * Flags * Host := (tasks w, cls w, host w).

(** The promises refer to one another without a cycle, and tracing is
    left to the command-line flag everywhere. *)
Record tame_env (E : list Task * Flags * Host) : Prop := {
  env_acyclic : ∃ N, ∀ t tk, E.1.1 !! t = Some tk → shallow N E.1.1 (promise tk) = true;
  env_promises : ∀ t tk, E.1.1 !! t = Some tk → clean (promise tk) = true;
  env_flags : clean (VConfig (extra_flags E.1.2)) = true;
  env_host : ∀ k args r, call_function E.2 k args = Ok r → clean r = true;
}.

Definition at_depth (E : list Task * Flags * Host) (d : Z) (w : World) : Prop :=
  env_of w = E ∧ expand_depth (app w) = d.

(** [conv P f Q]: from every world in [P], [f] with enough fuel ends
    in one outcome, which is a return with a value in [Q] or a raise, and
    in one world, which is in [P] again. *)
Definition conv {A} (P : World → Prop) (f : nat → M A) (Q : A → Prop) : Prop :=
  ∀ w, P w →
    ∃ n r w', (∀ fuel, (n ≤ fuel)%nat → f fuel w = (r, w'))
              ∧ P w'
              ∧ match r with
                | Return a => Q a
                | Raise _ => True
                | _ => False
                end.

(** An observation that does not see the log or the files. *)
Definition logfree {X} (f : World → X) : Prop :=
  (∀ w s, f (with_app (set_log s) w) = f w)
  ∧ (∀ w b, f (with_app (set_line_dirty b) w) = f w)
  ∧ (∀ g w, f (with_fs g w) = f w).

(** [settles m]: [m] returns or raises, from every world. *)
Definition settles {A} (m : M A) : Prop :=
  ∀ w, match (m w).1 with Return _ | Raise _ => True | _ => False end.

(** The literals of a parsed expression are atoms. *)
Fixpoint atomic (e : expr) : bool :=
  match e with
  | ELit v => match v with VNone | VBool _ | VInt _ | VStr _ => true | _ => false end
  | EName _ => true
  | EList es => forallb atomic es
  | EAttr e1 _ => atomic e1
  | ECall f args => atomic f && forallb atomic args
  end.

(** The environment and the depth counter together: what a call of the
    expander leaves as it found them. *)
Definition place (w : World) : (list Task * Flags * Host) * Z := (env_of w, depth_of w).

(** No field table inside the fields [d], nor [d] itself, binds [trace]. *)
Definition clean_fields (d : fields) : bool := clean (VConfig d).

(** ** Expansion that ends

    For each of the mutually recursive functions of the expander: called
    at depth [d] in the environment [E] with a clean config, it ends for
    enough fuel, and what it returns is clean. *)

Definition eval_macro_ends E (d : Z) : Prop :=
  ∀ C macro fo, clean_fields C = true →
    conv (at_depth E d) (λ fuel, eval_macro fuel C macro fo) (λ a, clean a = true).

Definition template_loop_ends E (d : Z) : Prop :=
  ∀ C old t res fo, clean_fields C = true →
    conv (at_depth E d) (λ fuel, template_loop fuel C old t res fo) (λ _, True).

Definition expand_template_ends E (d : Z) : Prop :=
  ∀ C t fo, clean_fields C = true →
    conv (at_depth E d) (λ fuel, expand_template fuel C t fo) (λ _, True).

Definition expand_ends E (d : Z) : Prop :=
  ∀ C v fo, clean_fields C = true → clean v = true →
    conv (at_depth E d) (λ fuel, expand fuel C v fo) (λ a, clean a = true).

Definition Expander_get_ends E (d : Z) : Prop :=
  ∀ C key, clean_fields C = true →
    conv (at_depth E d) (λ fuel, Expander_get fuel C key) (λ a, clean a = true).

Definition py_eval_ends E (d : Z) : Prop :=
  ∀ C e, clean_fields C = true → atomic e = true →
    conv (at_depth E d) (λ fuel, py_eval fuel C e) (λ a, clean a = true).

(** ** Chains of fields *)

(** The error that the depth guard of [eval_macro] raises on [macro]. *)
Definition overflow (macro : string) : exn :=
  mkExn RecursionError ("Expanding '" +:+ macro +:+ "' failed to terminate").

(** [macro] is a pure macro whose expression is a name, and [C] binds
    that name to the string [next]. *)
Definition refers (C : fields) (macro next : string) : Prop :=
  macro_search macro = true
  ∧ ∃ x, py_parse (strip_ends macro) = Some (EName x)
         ∧ assoc_get x C = Some (VStr next).

(** Every macro of [ring] refers to a macro of [ring]: following the
    references from any of them never leaves the list, so it runs into a
    cycle. *)
Definition cyclic_chain (C : fields) (ring : list string) : Prop :=
  ∀ m, m ∈ ring → ∃ m', m' ∈ ring ∧ refers C m m'.

(** ** A concrete host and world for the examples *)

(** A shell in which [false] exits with status 1 and every other command
    succeeds without output. *)
Definition shell0 (cmd : string) (_ : variant) (f : gmap string node)
    : gmap string node * (string * string * Z) :=
  if bool_decide (cmd = "false") then (f, ("", "", 1)) else (f, ("", "", 0)).

Definition host0 : Host :=
  mkHost shell0 (λ _ _ f, (f, Ok VNone)) (λ _ _, Ok VNone) (λ _, Ok [])
         (λ _ _, []) (λ _, "<object>") (λ l, l) false 80 false.

Definition app0 : App :=
  mkApp [] ∅ 0 0 0 0 0 0 0 false 0 [] [] 4 "" ["/root"].

Definition flags0 : Flags :=
  mkFlags "/root" "build.hancho" "/root" "" 4
          false false false false false false false true [].

Definition fs0 : gmap string node := {[ "/root" := mkNode true 5 "" ]}.

Definition world0 : World := mkWorld app0 flags0 [] ∅ fs0 "/root" host0.

(** A task that compiles [a.c] to [a.o] with a depfile [a.d]. *)
Definition fs_dep : gmap string node :=
  <["/root/build/a.d" := mkNode false 10 "a.o: a.c a.h"]>
  (<["/root/build/a.o" := mkNode false 10 ""]>
  (<["/root/build" := mkNode true 10 ""]>
  (<["/root/a.h" := mkNode false 1 ""]>
  (<["/root/a.c" := mkNode false 1 ""]> fs0)))).

Definition world_dep : World := with_fs (λ _, fs_dep) world0.

Definition compile_task (depformat : string) : fields :=
  [("command", VStr "true"); ("source_files", VList [VStr "a.c"]);
   ("build_files", VList [VStr "a.o"]); ("build_deps", VList [VStr "a.d"]);
   ("depformat", VStr depformat)].

(** Declare the task, initialise it, ask whether it must run. *)
Definition rerun_check (depformat : string) : M string :=
  t ← Task_init [] (compile_task depformat);
  _ ← task_init 100 t;
  needs_rerun t false.

(** One task that lists the same output twice. *)
Definition dup_task : fields :=
  [("command", VStr "true"); ("build_files", VList [VStr "dup.out"; VStr "dup.out"])].

(** The world in which one task that asks for five jobs has been
    initialised; the pool has four. *)
Definition greedy_task : fields :=
  [("command", VStr "true"); ("job_count", VInt 5)].

Definition world_greedy : World :=
  ((t ← Task_init [] greedy_task; task_init 100 t) world0).2.

(** The same task after [a.c] was written at the very time of [a.o]. *)
Definition world_touched : World :=
  ((t ← Task_init [] (compile_task "gcc"); task_init 100 t)
     (with_fs (λ f, <["/root/a.c" := mkNode false 10 ""]> f) world_dep)).2.

(** The cancellation fan-out: [T_fail], whose command exits with status
    1, and three tasks that depend on it through [source_files], through
    a nested list and through a nested config. *)
Definition fan_out_build : M Z :=
  t_fail ← Task_init [] [("command", VStr "false")];
  _ ← Task_init [] [("command", VStr "true"); ("source_files", VList [VTask t_fail])];
  _ ← Task_init [] [("command", VStr "true");
                    ("source_files", VList [VStr "a.c"; VList [VTask t_fail]])];
  _ ← Task_init [] [("command", VStr "true");
                    ("options", VConfig [("inputs", VList [VTask t_fail])])];
  async_run_tasks 200.

(** The counters and the futures after a build. *)
Definition tally (w : World) : Z * Z * Z * Z :=
  (tasks_pass (app w), tasks_fail (app w), tasks_skip (app w), tasks_cancel (app w)).

(** A config with a list field and a nested config. *)
Definition C_files : fields :=
  [("files", VList [VStr "a.c"; VStr "b.c"]); ("sub", VConfig [("x", VInt 1)])].

(** The same list in a config that switches tracing on. *)
Definition C_traced : fields :=
  [("trace", VBool true); ("files", VList [VStr "a.c"; VStr "b.c"])].

(** A config that binds [trace] to a macro. *)
Definition C_trace : fields :=
  [("trace", VStr "{y}"); ("y", VBool false); ("x", VInt 1)].

(** Two fields that name one another, and a template over a plain
    field. *)
Definition C_cycle : fields :=
  [("a", VStr "{b}"); ("b", VStr "{a}"); ("c", VStr "lib{d}.a"); ("d", VStr "z")].

(** * Properties *)

(** ** Facts about strings *)

Lemma strip_prefix_app (p s : string) : strip_prefix p (p +:+ s) = Some s.
Proof.
  induction p as [|a p IH]; simpl; [done|].
  by rewrite Ascii.eqb_refl.
Qed.

Lemma strip_prefix_app_both (a b c : string) :
  strip_prefix (a +:+ b) (a +:+ c) = strip_prefix b c.
Proof.
  induction a as [|x a IH]; simpl; [done|].
  by rewrite Ascii.eqb_refl.
Qed.

Lemma app_length_string (a b : string) :
  String.length (a +:+ b) = (String.length a + String.length b)%nat.
Proof. induction a; simpl; [done|]. by rewrite IHa. Qed.

Lemma app_nonempty_neq (a b : string) : b ≠ "" → a +:+ b ≠ a.
Proof.
  intros Hb Heq. apply (f_equal String.length) in Heq.
  rewrite app_length_string in Heq.
  destruct b; [done|]. simpl in Heq. lia.
Qed.

(** ** [join_path] and [rel_path] *)

Lemma join_path_two_strings (a b : string) :
  _join_path [VStr a; VStr b] = Ok (VStr (posix_join a b)).
Proof. reflexivity. Qed.

Lemma rel_of_join_unfold (base p : string) :
  rel_of_join base p = rel_path1 (VStr (posix_join base p)) (VStr base).
Proof. reflexivity. Qed.

(** The round trip for a base that does not end in a separator and a
    relative path. *)
Lemma rel_of_join_relative (base p : string) :
  endswith_char base sep = false →
  startswith p "/" = false →
  rel_of_join base p = Ok (VStr p).
Proof.
  intros Hbase Hrel.
  rewrite rel_of_join_unfold. unfold posix_join. rewrite Hrel, Hbase.
  rewrite orb_false_r. destruct (decide (base = "")) as [->|Hne].
  - change ("" +:+ p) with p. rewrite bool_decide_eq_true_2 by done.
    unfold rel_path1, str_eqb.
    case_bool_decide as Hp; [by subst|].
    unfold removeprefix, startswith in *. change ("" +:+ "/") with "/".
    by destruct (strip_prefix "/" p).
  - rewrite bool_decide_eq_false_2 by done. unfold rel_path1, str_eqb.
    rewrite bool_decide_eq_false_2 by (by apply app_nonempty_neq).
    unfold removeprefix. by rewrite strip_prefix_app_both, (strip_prefix_app "/" p).
Qed.

(** ** [join_path] as a Cartesian product *)

Lemma fspath_all (l : list variant) (xs : list string) :
  mapM (M:=result) fspath l = Ok xs → l = VStr <$> xs.
Proof.
  revert xs. induction l as [|v l IH]; intros xs; simpl.
  - by intros [= <-].
  - destruct v; simpl; try done.
    destruct (mapM fspath l) as [ys|] eqn:E; simpl; [|done].
    intros [= <-]. simpl. f_equal. by apply IH.
Qed.

Lemma str_leaves_flatten (a : variant) (xs : list string) :
  str_leaves a = Ok xs → _flatten a = VStr <$> xs.
Proof. apply fspath_all. Qed.

Lemma flatten_strs (l : list string) :
  _flatten (VList (VStr <$> l)) = VStr <$> l.
Proof.
  change (concat (map _flatten (VStr <$> l)) = VStr <$> l).
  induction l as [|x l IH]; [done|].
  change (VStr x :: concat (map _flatten (VStr <$> l)) = VStr x :: (VStr <$> l)).
  by rewrite IH.
Qed.

Lemma flatten_collapse_strs (l : list string) :
  _flatten (collapse (VStr <$> l)) = VStr <$> l.
Proof.
  destruct l as [|x [|y l]]; [done|done|].
  exact (flatten_strs (x :: y :: l)).
Qed.

Lemma mapM_result_cons {A B} (f : A → result B) (x : A) (l : list A) :
  mapM (M:=result) f (x :: l) = y ← f x; k ← mapM f l; Ok (y :: k).
Proof. reflexivity. Qed.

Lemma join_row_strs (x : string) (ys : list string) :
  mapM (M:=result) (λ a1, path_join (VStr x) a1) (VStr <$> ys)
  = Ok (VStr <$> (posix_join x <$> ys)).
Proof.
  induction ys as [|y ys IH]; [done|].
  rewrite !fmap_cons, mapM_result_cons, IH. done.
Qed.

Lemma join_pairs_strs (xs ys : list string) :
  join_pairs (VStr <$> xs) (VStr <$> ys)
  = Ok (VStr <$> (x ← xs; posix_join x <$> ys)).
Proof.
  unfold join_pairs.
  assert (mapM (M:=result) (λ a0, mapM (λ a1, path_join a0 a1) (VStr <$> ys))
            (VStr <$> xs)
          = Ok ((λ x, VStr <$> (posix_join x <$> ys)) <$> xs)) as ->.
  { induction xs as [|x xs IH]; [done|].
    rewrite !fmap_cons, mapM_result_cons, join_row_strs, IH. done. }
  change (Ok (concat ((λ x, VStr <$> (posix_join x <$> ys)) <$> xs))
          = Ok (VStr <$> (x ← xs; posix_join x <$> ys))).
  f_equal.
  induction xs as [|x xs IH]; [done|].
  rewrite fmap_cons, bind_cons, fmap_app, <- IH. done.
Qed.

Lemma cartesian_length (ls : list (list string)) (t : list string) :
  t ∈ cartesian ls → length t = length ls.
Proof.
  revert t. induction ls as [|l ls IH]; intros t; simpl.
  - by intros ->%list_elem_of_singleton.
  - intros (x & Hx & _)%list_elem_of_bind.
    apply list_elem_of_bind in Hx as (t' & Hx & Ht').
    apply list_elem_of_singleton in Hx as ->. simpl. f_equal. by apply IH.
Qed.

Lemma join_tuple_cons (x : string) (t : list string) :
  t ≠ [] → join_tuple (x :: t) = posix_join x (join_tuple t).
Proof. by destruct t. Qed.

Lemma join_tuple_row (x : string) (ts : list (list string)) :
  (∀ t, t ∈ ts → t ≠ []) →
  join_tuple <$> (ts ≫= λ t, [x :: t]) = posix_join x <$> (join_tuple <$> ts).
Proof.
  induction ts as [|t ts IH]; intros Hne; [done|].
  rewrite bind_cons, !fmap_cons.
  change ([x :: t] ++ (ts ≫= λ t0, [x :: t0])) with ((x :: t) :: (ts ≫= λ t0, [x :: t0])).
  rewrite fmap_cons, join_tuple_cons by (apply Hne; left).
  f_equal. apply IH. intros t' Ht'. apply Hne. by right.
Qed.

(** The joined tuples of a product, by its first sequence. *)
Lemma joined_product_cons (xs : list string) (ls : list (list string)) :
  ls ≠ [] →
  join_tuple <$> cartesian (xs :: ls)
  = x ← xs; posix_join x <$> (join_tuple <$> cartesian ls).
Proof.
  intros Hls.
  change (cartesian (xs :: ls)) with (x ← xs; t ← cartesian ls; [x :: t]).
  assert (∀ t, t ∈ cartesian ls → t ≠ []) as Hne.
  { intros t Ht%cartesian_length ->. by destruct ls. }
  induction xs as [|x xs IH]; [done|].
  rewrite !bind_cons, fmap_app, IH. f_equal. by apply join_tuple_row.
Qed.

Lemma joined_product_one (ys : list string) :
  join_tuple <$> cartesian [ys] = ys.
Proof.
  change (cartesian [ys]) with (y ← ys; t ← [[]]; [y :: t]).
  induction ys as [|y ys IH]; [done|].
  rewrite bind_cons, fmap_app, IH. done.
Qed.

(** With two or more arguments whose leaves are strings, [_join_path] is
    the collapsed Cartesian product. *)
Lemma join_path_cartesian (args : list variant) :
  (2 ≤ length args)%nat →
  (∃ ls, mapM (M:=result) str_leaves args = Ok ls) →
  _join_path args = join_path_spec args.
Proof.
  intros Hlen [ls Hls]. unfold join_path_spec. rewrite Hls. simpl.
  revert ls Hls Hlen.
  induction args as [|a rest IH]; intros ls Hls Hlen; [simpl in Hlen; lia|].
  simpl in Hls.
  destruct (str_leaves a) as [xs|] eqn:Ha; simpl in Hls; [|done].
  destruct (mapM str_leaves rest) as [ls'|] eqn:Hrest; simpl in Hls; [|done].
  injection Hls as <-.
  assert (ls' ≠ []) as Hne.
  { intros ->. destruct rest; [simpl in Hlen; lia|].
    simpl in Hrest. destruct (str_leaves v); simpl in Hrest; [|done].
    by destruct (mapM str_leaves rest). }
  rewrite joined_product_cons by done.
  assert (∃ r, (match rest with
                | [] => Ok (VList [a])
                | [b] => _join_path2 a b
                | _ => r ← _join_path rest; _join_path2 a r
                end = _join_path2 a r)
               ∧ _flatten r = VStr <$> (join_tuple <$> cartesian ls')) as (r & Hr & Hfl).
  { destruct rest as [|b [|c rest']]; [simpl in Hlen; lia| |].
    - exists b. split; [done|].
      simpl in Hrest. destruct (str_leaves b) as [ys|] eqn:Hb; simpl in Hrest; [|done].
      injection Hrest as <-. rewrite joined_product_one. by apply str_leaves_flatten.
    - rewrite (IH ls') by (done || simpl; lia). simpl.
      eexists. split; [done|]. apply flatten_collapse_strs. }
  change (_join_path (a :: rest)) with
    (match rest with
     | [] => Ok (VList [a])
     | [b] => _join_path2 a b
     | _ => r ← _join_path rest; _join_path2 a r
     end).
  rewrite Hr. unfold _join_path2.
  rewrite (str_leaves_flatten _ _ Ha), Hfl, join_pairs_strs. done.
Qed.

Lemma join_path_no_argument : _join_path [] = join_path_spec [].
Proof. reflexivity. Qed.

(** C6. [join_path] with exactly one argument does not return the
    collapsed Cartesian product: for a scalar argument [s] the product of
    the flattened argument has the single element [s], which the claim
    says is returned as a scalar, but [_join_path] returns the argument
    tuple as a list, [[s]].  With no argument or with two and more
    ([join_path_no_argument], [join_path_cartesian]) the code and the
    specification agree. *)
Theorem join_path_one_argument_not_collapsed (s : string) :
  _join_path [VStr s] = Ok (VList [VStr s])
  ∧ join_path_spec [VStr s] = Ok (VStr s)
  ∧ _join_path [VStr s] ≠ join_path_spec [VStr s].
Proof. by repeat split. Qed.

(** A list argument is not flattened either. *)
Example join_path_one_list_argument :
  _join_path [VList [VStr "a"; VStr "b"]] = Ok (VList [VList [VStr "a"; VStr "b"]])
  ∧ join_path_spec [VList [VStr "a"; VStr "b"]] = Ok (VList [VStr "a"; VStr "b"]).
Proof. by split. Qed.

(** C9, as stated, fails for the base path ["/"]: [join_path] does not
    double the separator, [rel_path] strips [base + "/"], which is ["//"],
    and the joined path comes back unchanged. *)
Lemma rel_path_join_path_root_base :
  startswith "b" "/" = false ∧ no_dotdot "b" = true
  ∧ rel_of_join "/" "b" = Ok (VStr "/b")
  ∧ rel_of_join "/" "b" ≠ Ok (VStr "b").
Proof. by repeat split. Qed.

(** C9, amended: for every base path that does not end in a separator
    and every path [p] that is relative and has no [..] segment,
    [rel_path(join_path(base, p), base) == p]. *)
Theorem rel_path_join_path_roundtrip (base p : string) :
  endswith_char base sep = false →
  startswith p "/" = false →
  no_dotdot p = true →
  rel_of_join base p = Ok (VStr p).
Proof. intros Hbase Hrel _. by apply rel_of_join_relative. Qed.

Lemma rel_path_join_path_roundtrip_witness :
  rel_of_join "/root/repo" "src/main.c" = Ok (VStr "src/main.c").
Proof. apply rel_path_join_path_roundtrip; reflexivity. Defined.

(** ** Running a computation from a world *)

(** Running a computation from a world. *)
Lemma bind_run {A B} (m : M A) (k : A → M B) (w : World) :
  (m ≫= k) w = match m w with
               | (Return a, w') => k a w'
               | (Raise e, w') => (Raise e, w')
               | (Blocked b, w') => (Blocked b, w')
               | (OutOfFuel, w') => (OutOfFuel, w')
               end.
Proof. reflexivity. Qed.

Lemma get_task_run (w : World) (t : nat) (tk : Task) :
  tasks w !! t = Some tk → get_task t w = (Return tk, w).
Proof. intros H. unfold get_task. rewrite bind_run. simpl. by rewrite H. Qed.

Lemma get_action_run (w : World) (t : nat) (tk : Task) (a : Action) :
  tasks w !! t = Some tk → action tk = Some a → get_action t w = (Return a, w).
Proof.
  intros H Ha. unfold get_action. rewrite bind_run, (get_task_run _ _ _ H).
  by rewrite Ha.
Qed.


Lemma mapM_M_cons {A B} (f : A → M B) (x : A) (l : list A) :
  mapM (M:=M) f (x :: l) = y ← f x; k ← mapM f l; mret (y :: k).
Proof. reflexivity. Qed.

(** ** Frame conditions *)

Section preserves.
Context {X : Type} (f : World → X).

Lemma preserves_ret {A} (a : A) : preserves f (mret a).
Proof. done. Qed.

Lemma preserves_raise {A} (e : exn) : preserves f (raise (A:=A) e).
Proof. done. Qed.

Lemma preserves_block {A} (b : wait) : preserves f (block (A:=A) b).
Proof. done. Qed.

Lemma preserves_out_of_fuel {A} : preserves f (out_of_fuel (A:=A)).
Proof. done. Qed.

Lemma preserves_gets {A} (g : World → A) : preserves f (gets g).
Proof. done. Qed.

Lemma preserves_lift {A} (r : result A) : preserves f (lift r).
Proof. by destruct r. Qed.

Lemma preserves_modify (g : World → World) :
  (∀ w, f (g w) = f w) → preserves f (modify g).
Proof. intros H w. apply H. Qed.

Lemma preserves_bind {A B} (m : M A) (k : A → M B) :
  preserves f m → (∀ a, preserves f (k a)) → preserves f (m ≫= k).
Proof.
  intros Hm Hk w. unfold mbind, M_bind. specialize (Hm w).
  destruct (m w) as [[a| | |] w']; simpl in *; try done.
  by rewrite Hk.
Qed.

Lemma preserves_fmap {A B} (g : A → B) (m : M A) :
  preserves f m → preserves f (g <$> m).
Proof. intros Hm. apply preserves_bind; [done|]. intros. apply preserves_ret. Qed.

Lemma preserves_try_except {A} (body : M A) (handler : exn → M A) :
  preserves f body → (∀ e, preserves f (handler e)) →
  preserves f (try_except body handler).
Proof.
  intros Hb Hh w. unfold try_except. specialize (Hb w).
  destruct (body w) as [[a| e | |] w']; simpl in *; try done.
  by rewrite Hh.
Qed.

Lemma preserves_try_finally {A} (body : M A) (fin : M unit) :
  preserves f body → preserves f fin → preserves f (try_finally body fin).
Proof.
  intros Hb Hf w. unfold try_finally. specialize (Hb w).
  destruct (body w) as [[a| e | |] w']; simpl in *; try done.
  - rewrite <- Hb. apply (preserves_bind fin (λ _, mret a)); [done|].
    intros. apply preserves_ret.
  - rewrite <- Hb. apply (preserves_bind fin (λ _, raise e)); [done|].
    intros. apply preserves_raise.
Qed.

Lemma preserves_when (b : bool) (body : M unit) :
  preserves f body → preserves f (when b body).
Proof. destruct b; [done|]. intros _. apply preserves_ret. Qed.

Lemma preserves_for_each {A} (l : list A) (body : A → M unit) :
  (∀ x, preserves f (body x)) → preserves f (for_each l body).
Proof.
  intros Hb. induction l as [|x l IH]; [apply preserves_ret|].
  simpl. apply preserves_bind; [apply Hb|done].
Qed.

Lemma preserves_mapM {A B} (g : A → M B) (l : list A) :
  (∀ x, preserves f (g x)) → preserves f (mapM (M:=M) g l).
Proof.
  intros Hg. induction l as [|x l IH]; [apply preserves_ret|].
  simpl. apply preserves_bind; [apply Hg|]. intros y.
  apply preserves_bind; [done|]. intros. apply preserves_ret.
Qed.
End preserves.

Create HintDb frame discriminated.
#[export] Hint Resolve preserves_ret preserves_raise preserves_block
  preserves_out_of_fuel preserves_gets preserves_lift preserves_fmap
  preserves_when : frame.

(** Breaks a frame goal along the structure of the computation. *)
Ltac frame_step :=
  match goal with
  | |- preserves _ (mbind _ _) => apply preserves_bind; [|intros ?]
  | |- preserves _ (_ ≫= _) => apply preserves_bind; [|intros ?]
  | |- preserves _ (try_except _ _) => apply preserves_try_except; [|intros ?]
  | |- preserves _ (try_finally _ _) => apply preserves_try_finally
  | |- preserves _ (when _ _) => apply preserves_when
  | |- preserves _ (for_each _ _) => apply preserves_for_each; intros ?
  | |- preserves _ (mapM _ _) => apply preserves_mapM; intros ?
  | |- preserves _ (fmap _ _) => apply preserves_fmap
  | |- preserves _ (mret _) => apply preserves_ret
  | |- preserves _ (raise _) => apply preserves_raise
  | |- preserves _ (block _) => apply preserves_block
  | |- preserves _ out_of_fuel => apply preserves_out_of_fuel
  | |- preserves _ (gets _) => apply preserves_gets
  | |- preserves _ (lift _) => apply preserves_lift
  | |- preserves _ skip => apply preserves_ret
  | |- preserves _ (modify _) => apply preserves_modify; intros ?; try reflexivity
  | |- preserves _ (modify_app _) => apply preserves_modify; intros ?; try reflexivity
  | |- preserves _ (if ?b then _ else _) => destruct b
  | |- preserves _ (match ?x with _ => _ end) => destruct x
  | |- preserves _ (let '(_, _) := ?x in _) => destruct x
  end.

Ltac frame := repeat (frame_step || eauto with frame).


Lemma log_line_frame {X} (f : World → X) (message : string) :
  (∀ w s, f (with_app (set_log s) w) = f w) → preserves f (log_line message).
Proof. intros H. unfold log_line. apply preserves_modify. intros w. apply H. Qed.

Lemma log_with_frame {X} (f : World → X) message sameline end_ :
  (∀ w s, f (with_app (set_log s) w) = f w) →
  (∀ w b, f (with_app (set_line_dirty b) w) = f w) →
  preserves f (log_with message sameline end_).
Proof.
  intros H1 H2. unfold log_with. frame; try by apply log_line_frame.
  all: apply H2.
Qed.

(** Logging always returns. *)
Lemma log_with_returns message sameline end_ (w : World) :
  (log_with message sameline end_ w).1 = Return tt.
Proof.
  unfold log_with. rewrite bind_run. simpl.
  destruct (bool_decide _); [done|].
  destruct (sameline && isatty (host w)); simpl; [done|].
  rewrite !bind_run. simpl. by destruct (line_dirty (app w)).
Qed.

Lemma log_with_files message sameline end_ :
  preserves files_of (log_with message sameline end_).
Proof. by apply log_with_frame. Qed.

Lemma assoc_get_app (key : string) (d1 d2 : fields) :
  assoc_get key (d1 ++ d2)
  = match assoc_get key d1 with Some v => Some v | None => assoc_get key d2 end.
Proof.
  induction d1 as [|[k v] d1 IH]; simpl; [done|].
  by destruct (bool_decide (k = key)).
Qed.

(** A name that [Config] declares is always found. *)
Lemma getattr_declared (config : fields) (key : string) (w : World) :
  is_Some (assoc_get key (Config_class (mkFlags "" "" "" "" 0 false false false
                             false false false false false []))) →
  ∃ v, getattr config key w = (Return v, w).
Proof.
  intros Hdecl. unfold getattr.
  destruct (assoc_get key config) as [v|]; [by exists v|].
  rewrite bind_run. simpl.
  unfold Config_class in *. rewrite !assoc_get_app in *.
  destruct (assoc_get key (extra_flags (cls w))) as [v|]; [by exists v|].
  simpl in Hdecl. simpl.
  repeat (case_bool_decide; [eexists; reflexivity|]).
  by destruct Hdecl.
Qed.

Lemma getattr_preserves {X} (f : World → X) config key : preserves f (getattr config key).
Proof. unfold getattr. frame. Qed.

Lemma read_file_run (w : World) (p : string) (n : node) :
  lookup_path w p = Some n → is_dir n = false →
  read_file p w = (Return (content n), w).
Proof.
  intros Hn Hd. unfold read_file. rewrite bind_run. simpl. by rewrite Hn, Hd.
Qed.


(** ** [Task.__init__] *)



(** ** The duplicate check *)


Lemma register_build_file_dup (w : World) (f : string) :
  f ∈ seen w →
  register_build_file f w
  = (Raise (mkExn NameError ("Multiple rules build " +:+ f +:+ "!")), w).
Proof.
  intros Hf. unfold register_build_file. rewrite bind_run. simpl.
  by rewrite bool_decide_eq_true_2.
Qed.

Lemma register_build_file_new (w : World) (f : string) :
  f ∉ seen w →
  register_build_file f w
  = (Return tt, with_app (λ a, set_all_build_files ({[f]} ∪ all_build_files a) a) w).
Proof.
  intros Hf. unfold register_build_file. rewrite bind_run. simpl.
  by rewrite bool_decide_eq_false_2.
Qed.


Lemma same_but_outputs_refl w : same_but_outputs w w.
Proof. by destruct w as [[] ? ? ? ? ? ?]. Qed.

Lemma same_but_outputs_step w w' s :
  same_but_outputs (with_app (λ a, set_all_build_files (s a) a) w) w' →
  same_but_outputs w w'.
Proof. unfold same_but_outputs. intros ->. by destruct w as [[] ? ? ? ? ? ?]. Qed.

(** The loop returns exactly when the files are new and pairwise
    distinct, and then it has added them all. *)
Lemma register_build_files_ok (files : list string) (w : World) :
  NoDup files → (∀ f, f ∈ files → f ∉ seen w) →
  ∃ w', register_build_files files w = (Return tt, w')
        ∧ seen w' = list_to_set files ∪ seen w
        ∧ same_but_outputs w w'.
Proof.
  revert w. induction files as [|f files IH]; intros w Hnd Hnew.
  - exists w. split; [done|]. split; [|apply same_but_outputs_refl].
    simpl. by rewrite (left_id_L ∅ (∪)).
  - apply NoDup_cons in Hnd as [Hf Hnd].
    unfold register_build_files. simpl. rewrite bind_run.
    rewrite register_build_file_new by (apply Hnew; left).
    set (w1 := with_app (λ a, set_all_build_files ({[f]} ∪ all_build_files a) a) w).
    assert (seen w1 = {[f]} ∪ seen w) as Hw1 by done.
    assert (∀ g, g ∈ files → g ∉ seen w1) as Hnew1.
    { intros g Hg. rewrite Hw1. intros [->%elem_of_singleton|Hin]%elem_of_union.
      - done.
      - apply (Hnew g); [by right|done]. }
    destruct (IH w1 Hnd Hnew1) as (w' & Hrun & Hseen & Hsame).
    exists w'. split; [exact Hrun|]. split.
    + rewrite Hseen, Hw1. set_solver.
    + apply (same_but_outputs_step w w' (λ a, {[f]} ∪ all_build_files a)). exact Hsame.
Qed.

(** Otherwise it raises at the first file that is registered already —
    by an earlier task or by an earlier entry of the same list — having
    added the files before it. *)
Lemma register_build_files_dup (files : list string) (w : World) :
  ¬ (NoDup files ∧ ∀ f, f ∈ files → f ∉ seen w) →
  ∃ f w', f ∈ files
          ∧ register_build_files files w
            = (Raise (mkExn NameError ("Multiple rules build " +:+ f +:+ "!")), w')
          ∧ seen w ⊆ seen w'
          ∧ (∀ p, p ∈ seen w' → p ∈ seen w ∨ p ∈ files)
          ∧ same_but_outputs w w'.
Proof.
  revert w. induction files as [|f files IH]; intros w Hbad.
  - exfalso. apply Hbad. split; [constructor|]. intros f Hf. by apply elem_of_nil in Hf.
  - unfold register_build_files. simpl. rewrite bind_run.
    destruct (decide (f ∈ seen w)) as [Hin|Hnew].
    + rewrite register_build_file_dup by done.
      exists f, w. split; [left|]. split; [done|]. split; [done|].
      split; [by left|apply same_but_outputs_refl].
    + rewrite register_build_file_new by done.
      set (w1 := with_app (λ a, set_all_build_files ({[f]} ∪ all_build_files a) a) w).
      destruct (IH w1) as (g & w' & Hg & Hrun & Hsub & Hfrom & Hsame).
      { intros [Hnd Hfresh]. apply Hbad. split.
        - apply NoDup_cons. split; [|done].
          intros Hf. apply (Hfresh f Hf). unfold w1, seen. simpl. set_solver.
        - intros p [->|Hp]%elem_of_cons; [done|].
          intros Hps. apply (Hfresh p Hp). unfold w1, seen. simpl. set_solver. }
      exists g, w'. split; [by right|]. split; [exact Hrun|]. split; [|split].
      * etrans; [|exact Hsub]. unfold w1, seen. simpl. set_solver.
      * intros p Hp. destruct (Hfrom p Hp) as [Hp1|Hp2]; [|right; by right].
        unfold w1, seen in Hp1. simpl in Hp1.
        apply elem_of_union in Hp1 as [->%elem_of_singleton|Hp1]; [right; left|by left].
      * apply (same_but_outputs_step w w' (λ a, {[f]} ∪ all_build_files a)). exact Hsame.
Qed.

(** Where it raises: the entries before the first one that is registered
    already have been added, and nothing else. *)
Lemma register_build_files_prefix (files : list string) (w : World) :
  ¬ (NoDup files ∧ ∀ f, f ∈ files → f ∉ seen w) →
  ∃ pre f post w',
    files = pre ++ f :: post
    ∧ (f ∈ seen w ∨ f ∈ pre)
    ∧ NoDup pre ∧ (∀ g, g ∈ pre → g ∉ seen w)
    ∧ register_build_files files w
      = (Raise (mkExn NameError ("Multiple rules build " +:+ f +:+ "!")), w')
    ∧ seen w' = list_to_set pre ∪ seen w.
Proof.
  revert w. induction files as [|f files IH]; intros w Hbad.
  - exfalso. apply Hbad. split; [constructor|]. intros f Hf. by apply elem_of_nil in Hf.
  - unfold register_build_files. simpl. rewrite bind_run.
    destruct (decide (f ∈ seen w)) as [Hin|Hnew].
    + rewrite register_build_file_dup by done.
      exists [], f, files, w. split; [done|]. split; [by left|].
      split; [constructor|]. split; [intros g Hg; by apply elem_of_nil in Hg|].
      split; [done|]. simpl. by rewrite (left_id_L ∅ (∪)).
    + rewrite register_build_file_new by done.
      set (w1 := with_app (λ a, set_all_build_files ({[f]} ∪ all_build_files a) a) w).
      assert (seen w1 = {[f]} ∪ seen w) as Hw1 by done.
      destruct (IH w1) as (pre & g & post & w' & Heq & Hg & Hnd & Hfresh & Hrun & Hseen).
      { intros [Hnd Hfresh]. apply Hbad. split.
        - apply NoDup_cons. split; [|done].
          intros Hf. apply (Hfresh f Hf). rewrite Hw1. set_solver.
        - intros p [->|Hp]%elem_of_cons; [done|].
          intros Hps. apply (Hfresh p Hp). rewrite Hw1. set_solver. }
      exists (f :: pre), g, post, w'. split; [by rewrite Heq|]. split; [|split; [|split; [|split]]].
      * destruct Hg as [Hg|Hg]; [|right; by right].
        rewrite Hw1 in Hg. apply elem_of_union in Hg as [->%elem_of_singleton|Hg];
          [right; left|by left].
      * apply NoDup_cons. split; [|done].
        intros Hf. apply (Hfresh f Hf). rewrite Hw1. set_solver.
      * intros h [->|Hh]%elem_of_cons; [done|].
        intros Hhw. apply (Hfresh h Hh). rewrite Hw1. set_solver.
      * exact Hrun.
      * rewrite Hseen, Hw1. simpl. set_solver.
Qed.

Lemma same_but_outputs_trans w1 w2 w3 :
  same_but_outputs w1 w2 → same_but_outputs w2 w3 → same_but_outputs w1 w3.
Proof.
  unfold same_but_outputs. intros H12 H23. rewrite H23 at 1. rewrite H12 at 1.
  by destruct w1 as [[] ? ? ? ? ? ?].
Qed.

(** One task of the sequence. *)
Lemma declare_outputs_run (files : list string) (w : World) :
  ∃ ok w', declare_outputs files w = (Return ok, w')
    ∧ (ok = true ↔ NoDup files ∧ ∀ f, f ∈ files → f ∉ seen w)
    ∧ (ok = true → seen w' = list_to_set files ∪ seen w)
    ∧ seen w ⊆ seen w'
    ∧ (∀ p, p ∈ seen w' → p ∈ seen w ∨ p ∈ files)
    ∧ same_but_outputs w w'.
Proof.
  unfold declare_outputs, try_except. rewrite bind_run.
  destruct (decide (NoDup files ∧ Forall (λ f, f ∉ seen w) files)) as [[Hnd Hnew]|Hbad];
    rewrite Forall_forall in *.
  - destruct (register_build_files_ok files w Hnd Hnew) as (w' & -> & Hseen & Hsame).
    exists true, w'. split; [done|]. split; [done|]. split; [done|].
    split; [set_solver|]. split; [|done].
    intros p. rewrite Hseen. set_solver.
  - destruct (register_build_files_dup files w Hbad) as (f & w' & Hf & -> & Hsub & Hfrom & Hsame).
    exists false, w'. split; [done|]. split; [split; [done|by intros]|].
    split; [done|]. done.
Qed.

(** The whole sequence. *)
Lemma declare_all_run (tasks : list (list string)) (w : World) :
  ∃ oks w', declare_all tasks w = (Return oks, w')
    ∧ length oks = length tasks
    ∧ seen w ⊆ seen w'
    ∧ same_but_outputs w w'
    ∧ (∀ i files, tasks !! i = Some files → oks !! i = Some true →
         NoDup files ∧ (∀ f, f ∈ files → (f ∉ seen w) ∧ (f ∈ seen w')))
    ∧ (∀ i j fi fj, (i < j)%nat → tasks !! i = Some fi → tasks !! j = Some fj →
         oks !! i = Some true → oks !! j = Some true → ∀ p, p ∈ fi → p ∉ fj)
    ∧ (∀ p, p ∈ seen w' →
         p ∈ seen w ∨ ∃ i files, tasks !! i = Some files ∧ p ∈ files).
Proof.
  revert w. induction tasks as [|files tasks IH]; intros w.
  - exists [], w. split; [done|]. split; [done|]. split; [done|].
    split; [apply same_but_outputs_refl|]. split; [|split].
    + intros i files Hi. by rewrite lookup_nil in Hi.
    + intros i j fi fj _ Hi. by rewrite lookup_nil in Hi.
    + intros p Hp. by left.
  - destruct (declare_outputs_run files w)
      as (ok & w1 & Hrun1 & Hok & Hadd & Hsub1 & Hfrom1 & Hsame1).
    destruct (IH w1) as (oks & w' & Hrun & Hlen & Hsub & Hsame & Hone & Hpair & Hfrom).
    exists (ok :: oks), w'.
    split. { unfold declare_all in *. rewrite mapM_M_cons, bind_run, Hrun1.
             rewrite bind_run, Hrun. done. }
    split; [simpl; by rewrite Hlen|]. split; [by etrans|].
    split; [by eapply same_but_outputs_trans|]. split; [|split].
    + intros [|i] fi Hi Hoki; simpl in Hi, Hoki.
      * injection Hi as <-. injection Hoki as ->.
        destruct Hok as [[Hnd Hnew] _]; [done|]. split; [done|].
        intros f Hf. split; [by apply Hnew|].
        apply Hsub. rewrite Hadd by done. set_solver.
      * destruct (Hone i fi Hi Hoki) as [Hnd Hfi]. split; [done|].
        intros f Hf. destruct (Hfi f Hf) as [Hnew Hin]. split; [|done].
        intros Hw. apply Hnew. by apply Hsub1.
    + intros [|i] [|j] fi fj Hij Hi Hj Hoki Hokj p Hp; simpl in *; try lia.
      * injection Hi as <-. injection Hoki as ->.
        destruct (Hone j fj Hj Hokj) as [_ Hfj].
        intros Hpj. destruct (Hfj p Hpj) as [Hnew _]. apply Hnew.
        rewrite Hadd by done. set_solver.
      * apply (Hpair i j fi fj); [lia|done..].
    + intros p Hp. destruct (Hfrom p Hp) as [Hp1|(i & fi & Hi & Hpi)].
      * destruct (Hfrom1 p Hp1) as [Hpw|Hpf]; [by left|].
        right. exists 0%nat, files. done.
      * right. exists (S i), fi. done.
Qed.

(** ** The job pool *)

(** [acquire_jobs] refuses a count above the pool before it takes
    anything. *)
Lemma acquire_jobs_overflow (w : World) (c : Z) :
  jobs (cls w) < c →
  ∃ e, exn_cls e = ValueError ∧ acquire_jobs (VInt c) w = (Raise e, w).
Proof.
  intros Hc. eexists. split; [|unfold acquire_jobs; rewrite bind_run; simpl;
    rewrite bind_run; simpl; apply Z.ltb_lt in Hc; rewrite Hc; reflexivity].
  done.
Qed.

Lemma release_jobs_run (w : World) (c : Z) :
  release_jobs (VInt c) w
  = (Return tt, with_app (λ a, set_jobs_available (jobs_available a + c) a) w).
Proof. reflexivity. Qed.

(** C7, on the path where job acquisition fails: [acquire_jobs] is
    called inside the [try] whose [finally] releases, so when the task
    asks for more jobs than the pool holds, [acquire_jobs] raises before
    it has taken any and [release_jobs] still adds [count]:
    [jobs_available] ends [count] above its prior value instead of at
    it. *)
Theorem run_commands_overflow_releases (w : World) (self : nat) (tk : Task)
    (a : Action) (c : Z) :
  tasks w !! self = Some tk →
  action tk = Some a →
  a_job_count a = VInt c →
  jobs (cls w) < c →
  ∃ e w', run_commands self w = (Raise e, w')
          ∧ exn_cls e = ValueError
          ∧ jobs_available (app w') = jobs_available (app w) + c.
Proof.
  intros Htk Ha Hcount Hc.
  destruct (acquire_jobs_overflow w c Hc) as (e & Hcls & Hacq).
  exists e. eexists. split; [|split; [exact Hcls|]].
  - unfold run_commands.
    rewrite bind_run, (get_action_run _ _ _ _ Htk Ha).
    rewrite bind_run, (get_task_run _ _ _ Htk).
    unfold try_finally. rewrite bind_run, Hcount, Hacq.
    rewrite bind_run, release_jobs_run. reflexivity.
  - reflexivity.
Qed.

(** ** An unknown [depformat] *)

Lemma check_depfile_unknown_format (config : fields) (a : Action)
    (abs_depfile : string) (min_out : Z) (w : World) (n : node) :
  lookup_path w abs_depfile = Some n → is_dir n = false →
  str_eqb (a_depformat a) (VStr "msvc") = false →
  str_eqb (a_depformat a) (VStr "gcc") = false →
  ∃ w', check_depfile config a abs_depfile min_out w
        = (Raise (mkExn NameError "name 'depformat' is not defined"), w').
Proof.
  intros Hn Hd Hmsvc Hgcc. unfold check_depfile.
  destruct (getattr_declared config "debug" w) as [dbg Hdbg]; [by eexists|].
  rewrite bind_run, Hdbg. rewrite bind_run.
  assert (∃ w1, when (truthy dbg) (log_msg ("Found depfile " +:+ abs_depfile)) w
                = (Return tt, w1) ∧ lookup_path w1 abs_depfile = Some n)
    as (w1 & -> & Hn1).
  { destruct (truthy dbg); simpl; [|by exists w].
    pose proof (log_with_returns ("Found depfile " +:+ abs_depfile) false None w) as Hr.
    pose proof (log_with_files ("Found depfile " +:+ abs_depfile) false None w) as Hf.
    unfold log_msg. destruct (log_with _ _ _ w) as [r w1]. simpl in *. subst r.
    exists w1. split; [done|]. unfold lookup_path, files_of in *.
    by injection Hf as -> ->. }
  rewrite bind_run, (read_file_run _ _ _ Hn1 Hd), bind_run, Hmsvc, Hgcc.
  eexists. reflexivity.
Qed.

Lemma run_commands_overflow_releases_witness :
  ∃ e w', run_commands 0 world_greedy = (Raise e, w')
          ∧ exn_cls e = ValueError
          ∧ jobs_available (app w') = jobs_available (app world_greedy) + 5.
Proof.
  eapply (run_commands_overflow_releases world_greedy 0); vm_compute; reflexivity.
Defined.

(** At the failing input: a pool of four jobs, all free, and a task with
    [job_count = 5].  The task fails and nine jobs are available after
    it. *)
Example run_commands_greedy_task :
  jobs_available (app world_greedy) = 4
  ∧ (run_commands 0 world_greedy).1
    = Raise (mkExn ValueError "Nedd 5 jobs, but pool is 4.")
  ∧ jobs_available (app (run_commands 0 world_greedy).2) = 9.
Proof. vm_compute. by repeat split. Qed.

(** C8. With an existing depfile and a [depformat] that is neither
    [gcc] nor [msvc], [needs_rerun] does not raise the invalid-depformat
    [ValueError] that names the value: the f-string of that [raise]
    refers to a variable [depformat] that is not bound, so what is raised
    is [NameError: name 'depformat' is not defined], and the message does
    not show the offending value ([clang] here). *)
Theorem needs_rerun_unknown_depformat :
  (rerun_check "gcc" world_dep).1 = Return ""
  ∧ (rerun_check "clang" world_dep).1
    = Raise (mkExn NameError "name 'depformat' is not defined").
Proof. vm_compute. by split. Qed.

(** ** Output uniqueness *)

(** C3, as stated, fails in two ways.  A task that lists one output twice
    raises the duplicate-output error at the second occurrence, although
    no earlier task has registered anything and no task exists before it.
    And a task whose check raises leaves the entries before its duplicate
    registered: of the three tasks with outputs [[a, b]], [[c, b]] and
    [[c]] the second fails at [b] after it registered [c], so the third
    fails too, and [c] ends in [all_build_files] declared by two tasks,
    neither of which passed. *)
Lemma duplicate_within_one_task :
  (seen world0 = ∅ ∧ tasks world0 = []
   ∧ ((t ← Task_init [] dup_task; task_init 100 t) world0).1
     = Raise (mkExn NameError "Multiple rules build /root/build/dup.out!"))
  ∧ (let r := declare_all [["a"; "b"]; ["c"; "b"]; ["c"]] world0 in
     r.1 = Return [true; false; false]
     ∧ seen r.2 = {["a"; "b"; "c"]}
     ∧ (register_build_files ["c"; "b"] (declare_outputs ["a"; "b"] world0).2).1
       = Raise (mkExn NameError "Multiple rules build b!")
     ∧ (register_build_files ["c"] (declare_all [["a"; "b"]; ["c"; "b"]] world0).2).1
       = Raise (mkExn NameError "Multiple rules build c!")).
Proof. vm_compute. by repeat split. Qed.

(** C3, amended.  The duplicate check of [task_init] registers the
    task's build files in order and raises the duplicate-output error
    exactly when one of them is registered already, by an earlier task or
    by an earlier entry of the same task's list; when it returns, every
    file of the task is in [all_build_files]; when it raises, the entries
    before the first duplicate stay registered.  Hence, over a build that
    starts with no outputs, every path in [all_build_files] is declared
    by some task whose check ran, passed or failed, every output of a task
    whose check passed is in [all_build_files], and no path is declared by
    two tasks whose checks passed. *)
Theorem build_outputs_registered_once :
  (∀ files w,
     (∃ w', register_build_files files w = (Return tt, w'))
     ↔ NoDup files ∧ ∀ f, f ∈ files → f ∉ seen w)
  ∧ (∀ files w w',
       register_build_files files w = (Return tt, w') →
       seen w' = list_to_set files ∪ seen w)
  ∧ (∀ files w,
       ¬ (NoDup files ∧ ∀ f, f ∈ files → f ∉ seen w) →
       ∃ pre f post w',
         files = pre ++ f :: post
         ∧ (f ∈ seen w ∨ f ∈ pre)
         ∧ NoDup pre ∧ (∀ g, g ∈ pre → g ∉ seen w)
         ∧ register_build_files files w
           = (Raise (mkExn NameError ("Multiple rules build " +:+ f +:+ "!")), w')
         ∧ seen w' = list_to_set pre ∪ seen w)
  ∧ (∀ tasks w, seen w = ∅ →
       ∃ oks w', declare_all tasks w = (Return oks, w')
         ∧ (∀ p, p ∈ seen w' → ∃ i files, tasks !! i = Some files ∧ p ∈ files)
         ∧ (∀ i files p, tasks !! i = Some files → oks !! i = Some true →
              p ∈ files → p ∈ seen w')
         ∧ (∀ i j fi fj p, tasks !! i = Some fi → tasks !! j = Some fj →
              oks !! i = Some true → oks !! j = Some true →
              p ∈ fi → p ∈ fj → i = j)).
Proof.
  assert (∀ files w, Decision (NoDup files ∧ ∀ f, f ∈ files → f ∉ seen w)) as Hdec.
  { intros files w.
    destruct (decide (NoDup files ∧ Forall (λ f, f ∉ seen w) files)) as [H|H];
      rewrite Forall_forall in H; [by left|by right]. }
  split; [|split; [|split]].
  - intros files w. split.
    + intros [w' Hrun]. destruct (Hdec files w) as [|Hbad]; [done|].
      destruct (register_build_files_dup files w Hbad) as (f & w1 & _ & Hraise & _).
      congruence.
    + intros [Hnd Hnew].
      destruct (register_build_files_ok files w Hnd Hnew) as (w' & Hrun & _).
      by exists w'.
  - intros files w w' Hrun. destruct (Hdec files w) as [[Hnd Hnew]|Hbad].
    + destruct (register_build_files_ok files w Hnd Hnew) as (w1 & Hrun1 & Hseen & _).
      congruence.
    + destruct (register_build_files_dup files w Hbad) as (f & w1 & _ & Hraise & _).
      congruence.
  - intros files w Hbad. exact (register_build_files_prefix files w Hbad).
  - intros tasks w Hempty.
    destruct (declare_all_run tasks w)
      as (oks & w' & Hrun & _ & _ & _ & Hone & Hpair & Hfrom).
    exists oks, w'. split; [done|]. split; [|split].
    + intros p Hp. destruct (Hfrom p Hp) as [Hw|]; [|done].
      rewrite Hempty in Hw. by apply not_elem_of_empty in Hw.
    + intros i files p Hi Hok Hp. by apply (Hone i files Hi Hok).
    + intros i j fi fj p Hi Hj Hoki Hokj Hpi Hpj.
      destruct (Nat.lt_trichotomy i j) as [Hlt|[->|Hgt]]; [|done|].
      * by destruct (Hpair i j fi fj Hlt Hi Hj Hoki Hokj p Hpi).
      * by destruct (Hpair j i fj fi Hgt Hj Hi Hokj Hoki p Hpj).
Qed.

(** Three tasks, the second of which repeats an output of the first:
    the second fails at its first entry, the others pass. *)
Lemma build_outputs_registered_once_witness :
  ∃ oks w', declare_all [["a"; "b"]; ["b"; "c"]; ["d"]] world0 = (Return oks, w')
    ∧ (∀ p, p ∈ seen w' →
         ∃ i files, [["a"; "b"]; ["b"; "c"]; ["d"]] !! i = Some files ∧ p ∈ files)
    ∧ (∀ i files p, [["a"; "b"]; ["b"; "c"]; ["d"]] !! i = Some files →
         oks !! i = Some true → p ∈ files → p ∈ seen w')
    ∧ (∀ i j fi fj p, [["a"; "b"]; ["b"; "c"]; ["d"]] !! i = Some fi →
         [["a"; "b"]; ["b"; "c"]; ["d"]] !! j = Some fj →
         oks !! i = Some true → oks !! j = Some true →
         p ∈ fi → p ∈ fj → i = j).
Proof.
  apply (proj2 (proj2 (proj2 build_outputs_registered_once))). reflexivity.
Defined.

Example declare_all_three_tasks :
  (declare_all [["a"; "b"]; ["b"; "c"]; ["d"]] world0).1 = Return [true; false; true].
Proof. vm_compute. reflexivity. Qed.

(** ** Staleness *)

Lemma lookup_path_files (w w' : World) (p : string) :
  files_of w' = files_of w → lookup_path w' p = lookup_path w p.
Proof. unfold files_of, lookup_path. by intros [= -> ->]. Qed.

Lemma mtime_of_files (w w' : World) (p : string) :
  files_of w' = files_of w → mtime_of w' p = mtime_of w p.
Proof. intros H. unfold mtime_of. by rewrite (lookup_path_files _ _ _ H). Qed.

Lemma mtime_run (w : World) (f : string) (t : Z) :
  mtime_of w f = Some t →
  ∃ w', _mtime f w = (Return t, w') ∧ files_of w' = files_of w.
Proof.
  unfold mtime_of. intros Ht. unfold _mtime.
  rewrite bind_run. unfold modify_app, modify. cbn beta iota.
  rewrite bind_run. unfold gets. cbn beta iota.
  change (lookup_path (with_app _ w) f) with (lookup_path w f).
  destruct (lookup_path w f) as [n|]; [|done]. injection Ht as <-.
  eexists. split; [reflexivity|done].
Qed.

Lemma all_exist_files (w w' : World) (files : list string) :
  files_of w' = files_of w → all_exist w files → all_exist w' files.
Proof. intros H Hall f Hf. rewrite (lookup_path_files _ _ _ H). by apply Hall. Qed.

Lemma exists_mtime (w : World) (f : string) :
  is_Some (lookup_path w f) → ∃ t, mtime_of w f = Some t.
Proof. intros [n Hn]. exists (st_mtime_ns n). unfold mtime_of. by rewrite Hn. Qed.

Lemma first_missing_none (files : list string) (w : World) :
  all_exist w files → first_missing files w = (Return None, w).
Proof.
  induction files as [|f files IH]; intros Hall; [done|].
  simpl. rewrite bind_run. unfold path_exists at 1. simpl.
  rewrite bool_decide_eq_true_2 by (apply Hall; left).
  apply IH. intros g Hg. apply Hall. by right.
Qed.

Lemma mtimes_run (files : list string) (w : World) :
  all_exist w files →
  ∃ ts w', mapM (M:=M) _mtime files w = (Return ts, w')
           ∧ files_of w' = files_of w
           ∧ Forall2 (λ f t, mtime_of w f = Some t) files ts.
Proof.
  revert w. induction files as [|f files IH]; intros w Hall.
  - exists [], w. by repeat split.
  - destruct (exists_mtime w f) as [t Ht]; [apply Hall; left|].
    destruct (mtime_run w f t Ht) as (w1 & Hrun1 & Hf1).
    destruct (IH w1) as (ts & w' & Hrun & Hf & Hall2).
    { eapply all_exist_files; [done|]. intros g Hg. apply Hall. by right. }
    exists (t :: ts), w'. rewrite mapM_M_cons, bind_run, Hrun1, bind_run, Hrun.
    split; [done|]. split; [congruence|].
    constructor; [done|].
    eapply Forall2_impl; [exact Hall2|]. intros g u Hgu. simpl in Hgu.
    by rewrite <- (mtime_of_files w w1 g Hf1).
Qed.

Lemma foldl_min_le (t : Z) (ts : list Z) :
  foldl Z.min t ts ≤ t ∧ ∀ u, u ∈ ts → foldl Z.min t ts ≤ u.
Proof.
  revert t. induction ts as [|x ts IH]; intros t; simpl.
  - split; [lia|]. intros u Hu. by apply elem_of_nil in Hu.
  - destruct (IH (Z.min t x)) as [H1 H2]. split; [lia|].
    intros u [->|Hu]%elem_of_cons; [lia|by apply H2].
Qed.

Lemma foldl_min_in (t : Z) (ts : list Z) :
  foldl Z.min t ts ∈ t :: ts.
Proof.
  revert t. induction ts as [|x ts IH]; intros t; simpl; [left|].
  pose proof (IH (Z.min t x)) as Hmin.
  apply elem_of_cons in Hmin as [Heq|Hin].
  - rewrite Heq. destruct (Z.min_spec t x) as [[_ ->]|[_ ->]]; [left|right; left].
  - right. by right.
Qed.

(** [min_mtime] computes the minimum. *)
Lemma min_mtime_run (files : list string) (w : World) (m : Z) :
  all_exist w files → is_min_mtime w files m →
  ∃ w', min_mtime files w = (Return m, w') ∧ files_of w' = files_of w.
Proof.
  intros Hall [(b & Hb & Hbm) Hmin].
  destruct (mtimes_run files w Hall) as (ts & w' & Hrun & Hf & Hts).
  exists w'. split; [|done]. unfold min_mtime. rewrite bind_run, Hrun.
  destruct ts as [|t ts].
  { apply Forall2_nil_inv_r in Hts as ->. by apply elem_of_nil in Hb. }
  assert (foldl Z.min t ts = m) as ->; [|done].
  apply Z.le_antisymm.
  - apply list_elem_of_lookup in Hb as [i Hi].
    destruct (Forall2_lookup_l _ _ _ _ _ Hts Hi) as (u & Hu & Hbu).
    simpl in Hbu. rewrite Hbm in Hbu. injection Hbu as <-.
    destruct (foldl_min_le t ts) as [H1 H2].
    apply list_elem_of_lookup_2 in Hu.
    apply elem_of_cons in Hu as [->|Hin]; [done|by apply H2].
  - pose proof (foldl_min_in t ts) as Hin.
    apply list_elem_of_lookup in Hin as [i Hi].
    destruct (Forall2_lookup_r _ _ _ _ _ Hts Hi) as (f & Hfi & Hfu).
    apply list_elem_of_lookup_2 in Hfi. by apply (Hmin f).
Qed.

Lemma reason_nonempty (a b : string) : "Rebuilding because " +:+ a +:+ b ≠ "".
Proof. done. Qed.

(** The scan of a list of existing files either finds a file that is not
    older than [min_out] and gives a reason, or all of them are older. *)
Lemma first_changed_run (files : list string) (min_out : Z) (w : World) :
  all_exist w files →
  ∃ r w', first_changed files min_out w = (Return r, w')
          ∧ files_of w' = files_of w
          ∧ match r with
            | Some reason => reason ≠ ""
            | None => ∀ f t, f ∈ files → mtime_of w f = Some t → t < min_out
            end.
Proof.
  revert w. induction files as [|f files IH]; intros w Hall.
  - exists None, w. split; [done|]. split; [done|].
    intros f t Hf. by apply elem_of_nil in Hf.
  - destruct (exists_mtime w f) as [t Ht]; [apply Hall; left|].
    destruct (mtime_run w f t Ht) as (w1 & Hrun1 & Hf1).
    simpl. rewrite bind_run, Hrun1.
    destruct (min_out <=? t) eqn:Hle.
    + eexists (Some _), w1. split; [done|]. split; [done|]. apply reason_nonempty.
    + destruct (IH w1) as (r & w' & Hrun & Hf & Hr).
      { eapply all_exist_files; [done|]. intros g Hg. apply Hall. by right. }
      exists r, w'. split; [done|]. split; [congruence|].
      destruct r as [reason|]; [done|].
      intros g u [->|Hg]%elem_of_cons Hgu.
      * rewrite Ht in Hgu. injection Hgu as <-. by apply Z.leb_gt.
      * apply (Hr g u Hg). by rewrite (mtime_of_files w w1 g Hf1).
Qed.

Lemma or_else_some (first : M (option string)) (next : M string) (w w' : World)
    (reason : string) :
  first w = (Return (Some reason), w') → or_else first next w = (Return reason, w').
Proof. intros H. unfold or_else. by rewrite bind_run, H. Qed.

Lemma or_else_none (first : M (option string)) (next : M string) (w w' : World) :
  first w = (Return None, w') → or_else first next w = next w'.
Proof. intros H. unfold or_else. by rewrite bind_run, H. Qed.

(** C2. For a task with non-empty source and build files, all on disk
    (the command files too, as [task_init] has checked), [needs_rerun]
    returns a non-empty reason whenever some source or command file has an
    mtime greater than or equal to [min_out], the minimum mtime of the
    build files.  Equality suffices: the comparison is [>=]. *)
Theorem needs_rerun_source_not_older (w : World) (self : nat) (tk : Task)
    (a : Action) (force : bool) (m : Z) :
  tasks w !! self = Some tk →
  action tk = Some a →
  abs_source_files a ≠ [] →
  abs_build_files a ≠ [] →
  all_exist w (abs_build_files a) →
  all_exist w (abs_source_files a) →
  all_exist w (abs_command_files a) →
  is_min_mtime w (abs_build_files a) m →
  (∃ f t, f ∈ abs_source_files a ++ abs_command_files a
          ∧ mtime_of w f = Some t ∧ m ≤ t) →
  ∃ reason w', needs_rerun self force w = (Return reason, w') ∧ reason ≠ "".
Proof.
  intros Htk Ha Hsrc Hbuild Hout Hin Hcmd Hm (f & t & Hf & Ht & Hmt).
  unfold needs_rerun.
  rewrite bind_run, (get_task_run _ _ _ Htk), bind_run, (get_action_run _ _ _ _ Htk Ha).
  destruct force.
  { eexists _, w. split; [reflexivity|done]. }
  rewrite !bool_decide_eq_false_2 by done.
  rewrite (or_else_none _ _ w w) by (by apply first_missing_none).
  destruct (min_mtime_run _ w m Hout Hm) as (w1 & Hmin & Hf1).
  rewrite bind_run, Hmin.
  destruct (first_changed_run (abs_source_files a) m w1) as (r & w2 & Hrun2 & Hf2 & Hr).
  { by eapply all_exist_files. }
  destruct r as [reason|].
  { exists reason, w2. split; [by apply or_else_some|done]. }
  rewrite (or_else_none _ _ w1 w2) by done.
  destruct (first_changed_run (abs_command_files a) m w2) as (r & w3 & Hrun3 & Hf3 & Hr3).
  { eapply all_exist_files; [|done]. congruence. }
  destruct r as [reason|].
  { exists reason, w3. split; [by apply or_else_some|done]. }
  exfalso. apply elem_of_app in Hf as [Hf|Hf].
  - specialize (Hr f t Hf). rewrite (mtime_of_files w w1 f Hf1) in Hr.
    specialize (Hr Ht). lia.
  - specialize (Hr3 f t Hf). rewrite (mtime_of_files w w2 f) in Hr3 by congruence.
    specialize (Hr3 Ht). lia.
Qed.

Lemma needs_rerun_source_not_older_witness :
  ∃ reason w', needs_rerun 0 false world_touched = (Return reason, w') ∧ reason ≠ "".
Proof.
  eapply (needs_rerun_source_not_older world_touched 0 _ _ false 10);
    try (vm_compute; reflexivity); try (vm_compute; discriminate).
  - intros f Hf. vm_compute in Hf. apply list_elem_of_singleton in Hf as ->.
    vm_compute. eauto.
  - intros f Hf. vm_compute in Hf. apply list_elem_of_singleton in Hf as ->.
    vm_compute. eauto.
  - intros f Hf. vm_compute in Hf. by apply elem_of_nil in Hf.
  - split.
    + exists "/root/build/a.o". split; [vm_compute; left|vm_compute; reflexivity].
    + intros b t Hb. vm_compute in Hb. apply list_elem_of_singleton in Hb as ->.
      vm_compute. intros [= <-]. done.
  - exists "/root/a.c", 10. split; [vm_compute; left|]. split; [vm_compute; reflexivity|done].
Defined.

(** Equal mtimes already trigger the rebuild. *)
Example needs_rerun_equal_mtime :
  (needs_rerun 0 false world_touched).1
  = Return "Rebuilding because /root/a.c has changed".
Proof. vm_compute. reflexivity. Qed.

(** ** Cancellation *)

(** Every exception is an instance of [BaseException]. *)
Lemma isinstance_BaseException (e : exn) : isinstance_exn e BaseException = true.
Proof. destruct e as [c msg]. by destruct c. Qed.

(** So the first clause of [run_async] handles whatever the body raises,
    a cancellation included; the second clause is never selected. *)
Lemma run_async_clause (e : exn) :
  select_clause [(BaseException, on_failure); (CancelledError, on_cancel)] e
  = on_failure e.
Proof. simpl. by rewrite isinstance_BaseException. Qed.

Lemma returns_ret {A} (a : A) : returns (mret a).
Proof. intros w. by exists a. Qed.

Lemma returns_gets {A} (g : World → A) : returns (gets g).
Proof. intros w. by eexists. Qed.

Lemma returns_modify (g : World → World) : returns (modify g).
Proof. intros w. by exists tt. Qed.

Lemma returns_bind {A B} (m : M A) (k : A → M B) :
  returns m → (∀ a, returns (k a)) → returns (m ≫= k).
Proof.
  intros Hm Hk w. rewrite bind_run. destruct (Hm w) as [a Ha].
  destruct (m w) as [r w1]. simpl in Ha. subst r. apply Hk.
Qed.

Lemma returns_log_with message sameline end_ :
  returns (log_with message sameline end_).
Proof. intros w. exists tt. apply log_with_returns. Qed.

Lemma returns_color (red green blue : variant) : returns (_color red green blue).
Proof.
  unfold _color. apply returns_bind; [apply returns_gets|]. intros c.
  apply returns_bind; [apply returns_gets|]. intros h.
  destruct (negb (use_color c) || os_name_nt h); [apply returns_ret|].
  destruct red; apply returns_ret.
Qed.

Lemma color_blame (red green blue : variant) : preserves blame (_color red green blue).
Proof. unfold _color. frame. Qed.

Lemma log_blame (message : string) : preserves blame (log_msg message).
Proof. by apply log_with_frame. Qed.

(** A step of a handler that returns and leaves the counters alone. *)
Lemma blame_step {A B} (m : M A) (k : A → M B) (w : World) (P : outcome B → Prop)
    (df dc : Z) :
  preserves blame m → returns m →
  (∀ a w1, ∃ w', P (k a w1).1 ∧ (k a w1).2 = w'
                 ∧ tasks_fail (app w') = tasks_fail (app w1) + df
                 ∧ tasks_cancel (app w') = tasks_cancel (app w1) + dc) →
  ∃ w', P ((m ≫= k) w).1 ∧ ((m ≫= k) w).2 = w'
        ∧ tasks_fail (app w') = tasks_fail (app w) + df
        ∧ tasks_cancel (app w') = tasks_cancel (app w) + dc.
Proof.
  intros Hp Hr Hk. rewrite bind_run. specialize (Hp w). destruct (Hr w) as [a Ha].
  destruct (m w) as [r w1]. simpl in *. subst r.
  destruct (Hk a w1) as (w' & HP & Hw & Hf & Hc). exists w'.
  injection Hp as Hp1 Hp2. split; [done|]. split; [done|]. split; congruence.
Qed.

Lemma on_failure_counts (e : exn) (w : World) :
  ∃ w', on_failure e w = (Return (VExc (mkExn CancelledError "")), w')
        ∧ tasks_fail (app w') = tasks_fail (app w) + 1
        ∧ tasks_cancel (app w') = tasks_cancel (app w).
Proof.
  enough (∃ w', (λ r, r = Return (VExc (mkExn CancelledError ""))) (on_failure e w).1
                ∧ (on_failure e w).2 = w'
                ∧ tasks_fail (app w') = tasks_fail (app w) + 1
                ∧ tasks_cancel (app w') = tasks_cancel (app w) + 0)
    as (w' & Hr & Hw & Hf & Hc).
  { exists w'. destruct (on_failure e w) as [r w2]. simpl in *. subst.
    split; [done|]. split; [done|lia]. }
  unfold on_failure. set (P := λ r : outcome variant, r = Return (VExc (mkExn CancelledError ""))).
  apply (blame_step _ _ _ P); [apply color_blame|apply returns_color|]. intros c1 w1.
  apply (blame_step _ _ _ P); [apply log_blame|apply returns_log_with|]. intros [] w2.
  apply (blame_step _ _ _ P); [apply log_blame|apply returns_log_with|]. intros [] w3.
  apply (blame_step _ _ _ P); [apply color_blame|apply returns_color|]. intros c0 w4.
  apply (blame_step _ _ _ P); [apply log_blame|apply returns_log_with|]. intros [] w5.
  eexists. split; [reflexivity|]. split; [reflexivity|]. simpl. split; lia.
Qed.

(** Whatever the body of [run_async] raises, the task is counted as
    failed, never as cancelled. *)
Lemma run_async_raise_counts_failure (fuel : nat) (self : nat) (e : exn)
    (w w1 : World) :
  run_async_body fuel self w = (Raise e, w1) →
  ∃ w', run_async fuel self w = (Return (VExc (mkExn CancelledError "")), w')
        ∧ tasks_fail (app w') = tasks_fail (app w1) + 1
        ∧ tasks_cancel (app w') = tasks_cancel (app w1).
Proof.
  intros Hbody. unfold run_async, try_clauses, try_except. rewrite Hbody.
  rewrite run_async_clause. apply on_failure_counts.
Qed.

(** C1, at the fan-out of the specification: [T_fail] fails and three
    tasks depend on it at different nesting levels.  Each dependent
    resolves to the cancellation sentinel, but each is counted in
    [tasks_fail]: the counters end at [tasks_fail = 4] and
    [tasks_cancel = 0], where the claim has 1 and 3.  In [run_async] the
    clause [except BaseException] stands before
    [except asyncio.CancelledError] and catches the cancellation that
    [_await_variant] raises. *)
Theorem cancellation_counted_as_failure :
  let w := (fan_out_build world0).2 in
  (fan_out_build world0).1 = Return (-1)
  ∧ tasks_total (app w) = 4
  ∧ tasks_pass (app w) = 0
  ∧ tasks_fail (app w) = 4
  ∧ tasks_cancel (app w) = 0
  ∧ (∀ t, (t < 4)%nat → futures w !! t = Some (VExc (mkExn CancelledError ""))).
Proof.
  vm_compute. repeat split.
  intros [|[|[|[|t]]]] Ht; try reflexivity. lia.
Qed.

(** Awaiting a task whose future holds a cancellation raises it. *)
Lemma await_cancelled_task (fuel : nat) (a : nat) (tk : Task) (e : exn) (w : World) :
  tasks w !! a = Some tk →
  promise tk = VFuture a →
  futures w !! a = Some (VExc e) →
  isinstance_exn e CancelledError = true →
  _await_variant (S (S fuel)) (VTask a) w = (Raise e, w).
Proof.
  intros Htk Hp Hfut He.
  change (_await_variant (S (S fuel)) (VTask a)) with
    (tk ← get_task a;
     _ ← when (is_None (promise tk)) queue_pending_tasks;
     tk ← get_task a;
     match promise tk with
     | VFuture u =>
         p ← await_future u;
         p' ← _await_variant (S fuel) p;
         _ ← modify_task a (set_promise p');
         mret (VTask a)
     | _ => mret (VTask a)
     end).
  rewrite bind_run, (get_task_run _ _ _ Htk), Hp. simpl is_None. unfold when.
  rewrite bind_run. unfold skip at 1. simpl.
  rewrite bind_run, (get_task_run _ _ _ Htk), Hp.
  rewrite bind_run. unfold await_future. rewrite bind_run. simpl. rewrite Hfut.
  simpl. rewrite bind_run. simpl. unfold is_cancel. by rewrite He.
Qed.

(** ** The expander leaves the class, the tasks and the futures alone *)

Section logfree.
Context {X : Type} (f : World → X) (Hf : logfree f).

Lemma logfree_log_with message sameline end_ :
  preserves f (log_with message sameline end_).
Proof. apply log_with_frame; apply Hf. Qed.

Lemma logfree_color r g b : preserves f (_color r g b).
Proof. unfold _color. frame. Qed.

Lemma logfree_abs_path (p : variant) (strict : bool) : preserves f (_abs_path p strict).
Proof.
  revert p. fix IH 1. intros p.
  assert (∀ q, preserves f (abs_path1 q strict)) as Hone
    by (intros q; unfold abs_path1, path_exists; clear IH; frame).
  destruct p; try apply Hone.
  change (preserves f (l' ← mapM (M:=M) (λ p, _abs_path p strict) l; mret (VList l'))).
  apply preserves_bind; [|intros; apply preserves_ret].
  induction l as [|x l IHl]; [apply preserves_ret|].
  rewrite mapM_M_cons. apply preserves_bind; [apply IH|]. intros y.
  apply preserves_bind; [apply IHl|]. intros. apply preserves_ret.
Qed.

Lemma logfree_run_cmd (c : variant) : preserves f (_run_cmd c).
Proof.
  unfold _run_cmd. destruct c; try apply preserves_raise.
  frame. all: apply Hf.
Qed.

Lemma logfree_apply_helper (h : helper) (args : list variant) :
  preserves f (apply_helper h args).
Proof.
  unfold apply_helper.
  destruct h; repeat (match goal with
                      | |- preserves _ (match ?x with _ => _ end) => destruct x
                      end);
    try apply preserves_raise; try apply preserves_lift; try apply preserves_ret;
    try apply logfree_abs_path; try apply logfree_run_cmd;
    try (apply preserves_fmap; apply logfree_color); frame.
Qed.

Lemma logfree_py_call (fv : variant) (args : list variant) :
  preserves f (py_call fv args).
Proof.
  unfold py_call. destruct fv; try apply preserves_raise.
  - apply logfree_apply_helper.
  - frame.
Qed.

Lemma logfree_get_task (t : nat) : preserves f (get_task t).
Proof. unfold get_task. frame. Qed.

Lemma logfree_expand_unknown (v : variant) : preserves f (expand_unknown v).
Proof.
  unfold expand_unknown, color_rgb, color_reset, log_msg.
  frame; try apply logfree_color; apply logfree_log_with.
Qed.

Lemma logfree_eval_macro_failed macro fail_ok err :
  preserves f (eval_macro_failed macro fail_ok err).
Proof.
  unfold eval_macro_failed, color_rgb, color_reset, log_exn, log_msg.
  frame; try apply logfree_color; apply logfree_log_with.
Qed.

Lemma logfree_expand_template_failed {A} old err :
  preserves f (expand_template_failed (A:=A) old err).
Proof.
  unfold expand_template_failed, color_rgb, color_reset, log_exn, log_msg.
  frame; try apply logfree_color; apply logfree_log_with.
Qed.
End logfree.

Section stable_expander.
Context {X : Type} (f : World → X) (Hf : stable f).

Lemma stable_logfree : logfree f.
Proof. destruct Hf as [Happ Hfs]. repeat split; intros; (apply Happ || apply Hfs). Qed.

Lemma stable_modify_app (g : App → App) : preserves f (modify_app g).
Proof. intros w. apply Hf. Qed.

Lemma stable_expander (fuel : nat) :
  (∀ C v fo, preserves f (expand fuel C v fo))
  ∧ (∀ C t fo, preserves f (expand_template fuel C t fo))
  ∧ (∀ C old t r fo, preserves f (template_loop fuel C old t r fo))
  ∧ (∀ C m fo, preserves f (eval_macro fuel C m fo))
  ∧ (∀ C k, preserves f (Expander_get fuel C k))
  ∧ (∀ C e, preserves f (py_eval fuel C e)).
Proof.
  induction fuel as [|fuel (IHx & IHt & IHl & IHm & IHg & IHe)].
  { repeat split; intros; apply preserves_out_of_fuel. }
  assert (∀ s, preserves f (log_msg s)) as Hlog
    by (intros; apply logfree_log_with, stable_logfree).
  assert (∀ C k, preserves f (getattr C k)) as Hget
    by (intros; apply getattr_preserves).
  assert (preserves f incr_depth ∧ preserves f decr_depth) as [Hinc Hdec]
    by (split; by apply stable_modify_app).
  repeat split.
  - intros C v fo. destruct v; simpl;
      try apply preserves_ret; try apply preserves_raise;
      try (by apply logfree_expand_unknown, stable_logfree).
    + destruct (macro_search s); [apply IHm|].
      destruct (bool_decide _); [|apply preserves_ret].
      apply preserves_bind; [apply IHt|]. intros. apply preserves_ret.
    + apply preserves_bind; [|intros; apply preserves_ret].
      apply preserves_mapM. intros. apply IHx.
    + apply preserves_bind; [apply logfree_get_task|]. intros. apply IHx.
  - intros C t fo. simpl.
    apply preserves_bind; [apply Hget|]. intros tr.
    apply preserves_bind; [apply preserves_gets|]. intros d.
    apply preserves_bind; [apply preserves_when, Hlog|]. intros _.
    apply preserves_bind.
    { apply preserves_try_finally; [|done].
      apply preserves_bind; [done|]. intros. apply IHl. }
    intros r.
    apply preserves_bind; [apply Hget|]. intros tr'.
    apply preserves_bind; [apply preserves_gets|]. intros d'.
    apply preserves_bind; [apply preserves_when, Hlog|]. intros _.
    apply preserves_ret.
  - intros C old t r fo. simpl.
    destruct (template_search t) as [[[before macro] after]|]; [|apply preserves_ret].
    apply preserves_bind; [|intros; apply IHl].
    apply preserves_try_except; [|intros; apply logfree_expand_template_failed, stable_logfree].
    apply preserves_bind; [apply IHm|]. intros.
    apply preserves_bind; [apply preserves_gets|]. intros. apply preserves_ret.
  - intros C m fo. simpl.
    apply preserves_bind; [apply preserves_gets|]. intros d.
    destruct (MAX_EXPAND_DEPTH <? d); [apply preserves_raise|].
    apply preserves_bind; [apply Hget|]. intros tr.
    apply preserves_bind; [apply preserves_when, Hlog|]. intros _.
    apply preserves_bind; [done|]. intros _.
    apply preserves_bind.
    { apply preserves_try_finally; [|done].
      apply preserves_try_except; [|intros; apply logfree_eval_macro_failed, stable_logfree].
      destruct (py_parse _); [apply IHe|apply preserves_raise]. }
    intros r.
    apply preserves_bind; [apply IHg|]. intros tr'.
    apply preserves_bind; [apply preserves_gets|]. intros d'.
    apply preserves_bind; [apply preserves_gets|]. intros h.
    apply preserves_bind; [apply preserves_when, Hlog|]. intros _.
    apply preserves_ret.
  - intros C k. simpl.
    apply preserves_bind; [apply Hget|]. intros v.
    apply preserves_bind; [apply IHx|]. intros x.
    destruct x; apply preserves_ret.
  - intros C e. destruct e; simpl.
    + apply preserves_ret.
    + apply IHg.
    + apply preserves_bind; [|intros; apply preserves_ret].
      apply preserves_mapM. intros. apply IHe.
    + apply preserves_bind; [apply IHe|]. intros o.
      destruct o; try apply preserves_raise; [apply Hget|].
      repeat case_bool_decide; try apply preserves_ret. apply IHg.
    + apply preserves_bind; [apply IHe|]. intros fv.
      apply preserves_bind; [apply preserves_mapM; intros; apply IHe|]. intros vs.
      apply logfree_py_call, stable_logfree.
Qed.
End stable_expander.

(** ** Pure macros *)

Lemma stable_cls : stable cls.
Proof. by split. Qed.

Lemma expand_pure_macro (fuel : nat) (C : fields) (s : string) (fail_ok : bool) :
  macro_search s = true →
  expand (S fuel) C (VStr s) fail_ok = eval_macro fuel C s fail_ok.
Proof. intros H. simpl. by rewrite H. Qed.

Lemma getattr_trace_off (C : fields) (w : World) :
  tracing_off C w → getattr C "trace" w = (Return (VBool false), w).
Proof.
  intros (HC & Hx & Ht). unfold getattr. rewrite HC, bind_run. simpl.
  unfold Config_class. rewrite assoc_get_app, Hx. simpl. by rewrite Ht.
Qed.

Lemma tracing_off_cls (C : fields) (w w' : World) :
  cls w' = cls w → tracing_off C w → tracing_off C w'.
Proof. unfold tracing_off. by intros ->. Qed.

Lemma Expander_get_trace_off (fuel : nat) (C : fields) (w : World) :
  tracing_off C w →
  Expander_get (S (S fuel)) C "trace" w = (Return (VBool false), w).
Proof.
  intros Hoff. simpl. by rewrite bind_run, (getattr_trace_off _ _ Hoff).
Qed.

Lemma gets_run {A} (g : World → A) (w : World) : gets g w = (Return (g w), w).
Proof. reflexivity. Qed.

Lemma modify_app_run (g : App → App) (w : World) :
  modify_app g w = (Return tt, with_app g w).
Proof. reflexivity. Qed.

Lemma ret_run {A} (a : A) (w : World) : mret (M:=M) a w = (Return a, w).
Proof. reflexivity. Qed.

Lemma when_log_returns (b : bool) (s : string) (w : World) :
  when b (log_msg s) w = (Return tt, (when b (log_msg s) w).2).
Proof.
  apply injective_projections; [|done]. simpl.
  destruct b; [apply log_with_returns|done].
Qed.



(** [eval_macro] below the depth limit: the first trace line, the
    increment, the evaluation, the decrement, the second read of [trace]
    (through the [Expander]) and the second trace line.  Whatever the
    evaluation of the expression returns is returned as it is. *)
Lemma eval_macro_returns_evaluation (fuel : nat) (C : fields) (s : string)
    (e : expr) (fail_ok : bool) (tr v tr' : variant) (w w1 w2 : World) :
  py_parse (strip_ends s) = Some e →
  expand_depth (app w) ≤ MAX_EXPAND_DEPTH →
  getattr C "trace" w = (Return tr, w) →
  py_eval (S (S fuel)) C e
    (incr_depth (when (truthy tr)
       (log_msg (bars (expand_depth (app w)) +:+ "┏ Eval '" +:+ s +:+ "'")) w).2).2
    = (Return v, w1) →
  Expander_get (S (S fuel)) C "trace" (decr_depth w1).2 = (Return tr', w2) →
  eval_macro (S (S (S fuel))) C s fail_ok w
  = (Return v,
     (when (truthy tr')
        (log_msg (bars (expand_depth (app w2)) +:+ "┗ " +:+ py_str (host w2) v)) w2).2).
Proof.
  intros Hparse Hdepth Htr Heval Hexit.
  change (eval_macro (S (S (S fuel))) C s fail_ok) with
    (d ← gets (λ w, expand_depth (app w));
     if MAX_EXPAND_DEPTH <? d then
       raise (mkExn RecursionError ("Expanding '" +:+ s +:+ "' failed to terminate"))
     else
       tr ← getattr C "trace";
       _ ← when (truthy tr) (log_msg (bars d +:+ "┏ Eval '" +:+ s +:+ "'"));
       _ ← incr_depth;
       result ← try_finally
         (try_except
            match py_parse (strip_ends s) with
            | Some e => py_eval (S (S fuel)) C e
            | None => raise (mkExn SyntaxError "invalid syntax")
            end
            (eval_macro_failed s fail_ok))
         decr_depth;
       tr' ← Expander_get (S (S fuel)) C "trace";
       d' ← gets (λ w, expand_depth (app w));
       h ← gets host;
       _ ← when (truthy tr') (log_msg (bars d' +:+ "┗ " +:+ py_str h result));
       mret result).
  rewrite bind_run, gets_run.
  rewrite (proj2 (Z.ltb_ge _ _)) by done.
  rewrite bind_run, Htr.
  rewrite bind_run, when_log_returns.
  rewrite bind_run.
  change (incr_depth ?x) with (Return tt, (incr_depth x).2). cbv beta iota.
  rewrite bind_run. unfold try_finally, try_except. rewrite Hparse, Heval.
  rewrite bind_run.
  change (decr_depth w1) with (Return tt, (decr_depth w1).2). cbv beta iota.
  rewrite ret_run, bind_run, Hexit.
  rewrite bind_run, gets_run, bind_run, gets_run.
  by rewrite bind_run, when_log_returns.
Qed.


Lemma py_eval_int_name (fuel : nat) (C : fields) (x : string) (n : Z) (w : World) :
  assoc_get x C = Some (VInt n) →
  py_eval (S (S (S fuel))) C (EName x) w = (Return (VInt n), w).
Proof.
  intros Hx. simpl. unfold getattr. by rewrite Hx.
Qed.


(** With tracing off nothing is logged: the world after the expansion is
    the world after the evaluation, with the counter decremented. *)
Lemma pure_macro_tracing_off (fuel : nat) (C : fields) (s : string) (e : expr)
    (fail_ok : bool) (v : variant) (w w1 : World) :
  macro_search s = true →
  py_parse (strip_ends s) = Some e →
  expand_depth (app w) ≤ MAX_EXPAND_DEPTH →
  tracing_off C w →
  py_eval (S (S fuel)) C e
    (with_app (λ a, set_expand_depth (expand_depth a + 1) a) w) = (Return v, w1) →
  expand (S (S (S (S fuel)))) C (VStr s) fail_ok w
  = (Return v, with_app (λ a, set_expand_depth (expand_depth a - 1) a) w1).
Proof.
  intros Hmacro Hparse Hdepth Hoff Heval.
  rewrite expand_pure_macro by done.
  assert (cls w1 = cls w) as Hcls.
  { pose proof (proj2 (proj2 (proj2 (proj2 (proj2
      (stable_expander cls stable_cls (S (S fuel))))))) C e
      (with_app (λ a, set_expand_depth (expand_depth a + 1) a) w)) as H.
    by rewrite Heval in H. }
  apply (eval_macro_returns_evaluation fuel C s e fail_ok (VBool false) v (VBool false)
           w w1 (with_app (λ a, set_expand_depth (expand_depth a - 1) a) w1));
    [done|done|by apply getattr_trace_off|exact Heval|].
  apply Expander_get_trace_off. by apply (tracing_off_cls C w).
Qed.


Example traced_macro_log :
  (expand 7 C_traced (VStr "{files}") false world0).1
  = Return (VList [VStr "a.c"; VStr "b.c"])
  ∧ log (app (expand 7 C_traced (VStr "{files}") false world0).2)
    = "┏ Eval '{files}'" +:+ LF +:+ "┗ <object>" +:+ LF.
Proof. vm_compute. by split. Qed.

(** An attribute read on an [Expander]: [config] is the instance
    attribute, the config itself; any other name but [get] goes through
    [__getattr__] and is the expanded field. *)
Example expander_attributes :
  expand 9 C_files (VStr "{sub.config}") false world0
  = (Return (VConfig [("x", VInt 1)]), world0)
  ∧ expand 9 C_files (VStr "{sub.x}") false world0 = (Return (VInt 1), world0)
  ∧ expand 9 C_files (VStr "{sub.config.x}") false world0 = (Return (VInt 1), world0).
Proof. vm_compute. by repeat split. Qed.


(** ** Computations that return or raise *)

Lemma settles_ret {A} (a : A) : settles (mret a).
Proof. done. Qed.

Lemma settles_raise {A} (e : exn) : settles (raise (A:=A) e).
Proof. done. Qed.

Lemma settles_gets {A} (g : World → A) : settles (gets g).
Proof. done. Qed.

Lemma settles_modify (g : World → World) : settles (modify g).
Proof. done. Qed.

Lemma settles_lift {A} (r : result A) : settles (lift r).
Proof. by destruct r. Qed.

Lemma settles_bind {A B} (m : M A) (k : A → M B) :
  settles m → (∀ a, settles (k a)) → settles (m ≫= k).
Proof.
  intros Hm Hk w. rewrite bind_run. specialize (Hm w).
  destruct (m w) as [[a|e|b|] w1]; simpl in *; try done. apply Hk.
Qed.

Lemma settles_when (b : bool) (body : M unit) : settles body → settles (when b body).
Proof. by destruct b. Qed.

Lemma settles_mapM {A B} (g : A → M B) (l : list A) :
  (∀ x, settles (g x)) → settles (mapM (M:=M) g l).
Proof.
  intros Hg. induction l as [|x l IH]; [done|].
  rewrite mapM_M_cons. apply settles_bind; [apply Hg|]. intros y.
  apply settles_bind; [done|]. intros. apply settles_ret.
Qed.

Lemma settles_returns {A} (m : M A) : returns m → settles m.
Proof. intros H w. destruct (H w) as [a Ha]. by rewrite Ha. Qed.

Ltac settle_step :=
  match goal with
  | |- settles (mbind _ _) => apply settles_bind; [|intros ?]
  | |- settles (_ ≫= _) => apply settles_bind; [|intros ?]
  | |- settles (when _ _) => apply settles_when
  | |- settles (mapM _ _) => apply settles_mapM; intros ?
  | |- settles (fmap _ _) => apply settles_bind; [|intros ?]
  | |- settles (mret _) => apply settles_ret
  | |- settles (raise _) => apply settles_raise
  | |- settles (gets _) => apply settles_gets
  | |- settles (lift _) => apply settles_lift
  | |- settles skip => apply settles_ret
  | |- settles (modify _) => apply settles_modify
  | |- settles (modify_app _) => apply settles_modify
  | |- settles (log_with _ _ _) => apply settles_returns, returns_log_with
  | |- settles (log_msg _) => apply settles_returns, returns_log_with
  | |- settles (log_exn _) => apply settles_returns, returns_log_with
  | |- settles (_color _ _ _) => apply settles_returns, returns_color
  | |- settles (color_rgb _ _ _) => apply settles_returns, returns_color
  | |- settles color_reset => apply settles_returns, returns_color
  | |- settles (if ?b then _ else _) => destruct b
  | |- settles (match ?x with _ => _ end) => destruct x
  | |- settles (let '(_, _) := ?x in _) => destruct x
  end.

Ltac settle := repeat settle_step.

Lemma settles_getattr (C : fields) (key : string) : settles (getattr C key).
Proof. unfold getattr. settle. Qed.

Lemma settles_get_task (t : nat) : settles (get_task t).
Proof. unfold get_task. settle. Qed.

Lemma settles_abs_path (p : variant) (strict : bool) : settles (_abs_path p strict).
Proof.
  revert p. fix IH 1. intros p.
  assert (∀ q, settles (abs_path1 q strict)) as Hone
    by (intros q; unfold abs_path1, path_exists; clear IH; settle).
  destruct p; try apply Hone.
  change (settles (l' ← mapM (M:=M) (λ p, _abs_path p strict) l; mret (VList l'))).
  apply settles_bind; [|intros; apply settles_ret].
  induction l as [|x l IHl]; [apply settles_ret|].
  rewrite mapM_M_cons. apply settles_bind; [apply IH|]. intros y.
  apply settles_bind; [apply IHl|]. intros. apply settles_ret.
Qed.

Lemma settles_run_cmd (c : variant) : settles (_run_cmd c).
Proof. unfold _run_cmd. settle. Qed.

Lemma settles_apply_helper (h : helper) (args : list variant) :
  settles (apply_helper h args).
Proof.
  unfold apply_helper.
  destruct h; repeat (match goal with
                      | |- settles (match ?x with _ => _ end) => destruct x
                      end);
    try apply settles_raise; try apply settles_lift; try apply settles_ret;
    try apply settles_abs_path; try apply settles_run_cmd; settle.
Qed.

Lemma settles_py_call (fv : variant) (args : list variant) : settles (py_call fv args).
Proof.
  unfold py_call. destruct fv; try apply settles_raise.
  - apply settles_apply_helper.
  - settle.
Qed.

Lemma settles_expand_unknown (v : variant) : settles (expand_unknown v).
Proof. unfold expand_unknown. settle. Qed.

Lemma settles_eval_macro_failed macro fail_ok err :
  settles (eval_macro_failed macro fail_ok err).
Proof. unfold eval_macro_failed. settle. Qed.

Lemma settles_expand_template_failed {A} old err :
  settles (expand_template_failed (A:=A) old err).
Proof. unfold expand_template_failed. settle. Qed.

(** ** Convergence *)

Lemma conv_mono {A} P (f : nat → M A) (Q Q' : A → Prop) :
  (∀ a, Q a → Q' a) → conv P f Q → conv P f Q'.
Proof.
  intros HQ Hf w Hw. destruct (Hf w Hw) as (n & r & w' & Hrun & HP & Hr).
  exists n, r, w'. split; [done|]. split; [done|].
  destruct r; try done. by apply HQ.
Qed.

Lemma conv_ext {A} P (f g : nat → M A) (Q : A → Prop) :
  (∀ fuel, f (S fuel) = g fuel) → conv P g Q → conv P f Q.
Proof.
  intros Hfg Hg w Hw. destruct (Hg w Hw) as (n & r & w' & Hrun & HP & Hr).
  exists (S n), r, w'. split; [|done].
  intros [|fuel] Hfuel; [lia|]. rewrite Hfg. apply Hrun. lia.
Qed.

(** A computation that does not use the fuel. *)
Lemma conv_simple {A} (P : World → Prop) (m : M A) (Q : A → Prop) :
  (∀ w, P w → P (m w).2 ∧ match (m w).1 with
                           | Return a => Q a
                           | Raise _ => True
                           | _ => False
                           end) →
  conv P (λ _, m) Q.
Proof.
  intros H w Hw. destruct (H w Hw) as [HP Hr].
  exists 0%nat, (m w).1, (m w).2. split; [intros; by destruct (m w)|done].
Qed.

Lemma conv_ret {A} P (a : A) (Q : A → Prop) : Q a → conv P (λ _, mret a) Q.
Proof. intros. by apply conv_simple. Qed.

Lemma conv_raise {A} P (e : exn) (Q : A → Prop) : conv P (λ _, raise e) Q.
Proof. by apply conv_simple. Qed.

Lemma conv_bind {A B} P (m : nat → M A) (k : nat → A → M B)
    (Q1 : A → Prop) (Q2 : B → Prop) :
  conv P m Q1 →
  (∀ a, Q1 a → conv P (λ fuel, k fuel a) Q2) →
  conv P (λ fuel, m fuel ≫= k fuel) Q2.
Proof.
  intros Hm Hk w Hw. destruct (Hm w Hw) as (n1 & r1 & w1 & Hrun1 & HP1 & Hr1).
  destruct r1 as [a|e| |]; try done.
  - destruct (Hk a Hr1 w1 HP1) as (n2 & r2 & w2 & Hrun2 & HP2 & Hr2).
    exists (n1 `max` n2)%nat, r2, w2. split; [|done].
    intros fuel Hfuel. rewrite bind_run, Hrun1 by lia. apply Hrun2. lia.
  - exists n1, (Raise e), w1. split; [|done].
    intros fuel Hfuel. by rewrite bind_run, Hrun1.
Qed.

Lemma conv_mapM {A B} P (g : nat → A → M B) (l : list A) (Q : B → Prop) :
  Forall (λ x, conv P (λ fuel, g fuel x) Q) l →
  conv P (λ fuel, mapM (M:=M) (g fuel) l) (Forall Q).
Proof.
  induction 1 as [|x l Hx Hl IH]; [by apply conv_ret|].
  apply (conv_ext P _ (λ fuel, y ← g (S fuel) x; k ← mapM (g (S fuel)) l; mret (y :: k))).
  { intros. apply mapM_M_cons. }
  apply (conv_bind P (λ fuel, g (S fuel) x) _ Q).
  { intros w Hw. destruct (Hx w Hw) as (n & r & w' & Hrun & HP & Hr).
    exists n, r, w'. split; [|done]. intros. apply Hrun. lia. }
  intros y Hy.
  apply (conv_bind P (λ fuel, mapM (g (S fuel)) l) _ (Forall Q)).
  { intros w Hw. destruct (IH w Hw) as (n & r & w' & Hrun & HP & Hr).
    exists n, r, w'. split; [|done]. intros. apply Hrun. lia. }
  intros k Hk. apply conv_ret. by constructor.
Qed.

Lemma conv_try_except {A} P (body : nat → M A) (handler : exn → M A) (Q : A → Prop) :
  conv P body Q →
  (∀ e, conv P (λ _, handler e) Q) →
  conv P (λ fuel, try_except (body fuel) handler) Q.
Proof.
  intros Hb Hh w Hw. destruct (Hb w Hw) as (n & r & w1 & Hrun & HP & Hr).
  destruct r as [a|e| |]; try done.
  - exists n, (Return a), w1. split; [|done].
    intros fuel Hfuel. unfold try_except. by rewrite Hrun.
  - destruct (Hh e w1 HP) as (n2 & r2 & w2 & Hrun2 & HP2 & Hr2).
    exists n, r2, w2. split; [|done].
    intros fuel Hfuel. unfold try_except. rewrite Hrun by done. by apply (Hrun2 n2).
Qed.

Lemma place_logfree : logfree place.
Proof. by repeat split. Qed.

Lemma at_depth_place E d w w' : place w' = place w → at_depth E d w → at_depth E d w'.
Proof.
  intros Heq [HE Hdw].
  pose proof (f_equal fst Heq) as Henv. pose proof (f_equal snd Heq) as Hd.
  simpl in Henv, Hd. unfold depth_of in Hd. split; [by rewrite Henv|by rewrite Hd].
Qed.

(** A fuel-free computation that settles and does not move the world out
    of its place. *)
Lemma conv_settled {A} E d (m : M A) (Q : A → Prop) :
  settles m → preserves place m →
  (∀ w a, at_depth E d w → (m w).1 = Return a → Q a) →
  conv (at_depth E d) (λ _, m) Q.
Proof.
  intros Hs Hp HQ. apply conv_simple. intros w Hw. split.
  - eapply at_depth_place; [apply Hp|done].
  - specialize (Hs w). specialize (HQ w).
    destruct (m w).1; try done. by apply HQ.
Qed.

(** Entering and leaving one level of expansion. *)
Lemma at_depth_incr E d w :
  at_depth E d w →
  at_depth E (d + 1) (with_app (λ a, set_expand_depth (expand_depth a + 1) a) w).
Proof. intros [HE Hd]. split; [done|]. simpl. by rewrite Hd. Qed.

Lemma at_depth_decr E d w :
  at_depth E (d + 1) w →
  at_depth E d (with_app (λ a, set_expand_depth (expand_depth a - 1) a) w).
Proof. intros [HE Hd]. split; [done|]. simpl. rewrite Hd. lia. Qed.

Lemma conv_level {A} E d (body : nat → M A) (Q : A → Prop) :
  conv (at_depth E (d + 1)) body Q →
  conv (at_depth E d) (λ fuel, try_finally (_ ← incr_depth; body fuel) decr_depth) Q.
Proof.
  intros Hb w Hw.
  destruct (Hb _ (at_depth_incr E d w Hw)) as (n & r & w1 & Hrun & HP & Hr).
  destruct r as [a|e| |]; try done.
  - exists n, (Return a), (with_app (λ a, set_expand_depth (expand_depth a - 1) a) w1).
    split; [|split; [by apply at_depth_decr|done]].
    intros fuel Hfuel. unfold try_finally. rewrite bind_run. unfold incr_depth.
    rewrite modify_app_run, Hrun by done. reflexivity.
  - exists n, (Raise e), (with_app (λ a, set_expand_depth (expand_depth a - 1) a) w1).
    split; [|split; [by apply at_depth_decr|done]].
    intros fuel Hfuel. unfold try_finally. rewrite bind_run. unfold incr_depth.
    rewrite modify_app_run, Hrun by done. reflexivity.
Qed.

Lemma conv_level_after {A} E d (body : nat → M A) (Q : A → Prop) :
  conv (at_depth E (d + 1)) body Q →
  conv (at_depth E d) (λ fuel, _ ← incr_depth; try_finally (body fuel) decr_depth) Q.
Proof.
  intros Hb w Hw.
  destruct (Hb _ (at_depth_incr E d w Hw)) as (n & r & w1 & Hrun & HP & Hr).
  destruct r as [a|e| |]; try done.
  - exists n, (Return a), (with_app (λ a, set_expand_depth (expand_depth a - 1) a) w1).
    split; [|split; [by apply at_depth_decr|done]].
    intros fuel Hfuel. rewrite bind_run. unfold incr_depth.
    rewrite modify_app_run. unfold try_finally. rewrite Hrun by done. reflexivity.
  - exists n, (Raise e), (with_app (λ a, set_expand_depth (expand_depth a - 1) a) w1).
    split; [|split; [by apply at_depth_decr|done]].
    intros fuel Hfuel. rewrite bind_run. unfold incr_depth.
    rewrite modify_app_run. unfold try_finally. rewrite Hrun by done. reflexivity.
Qed.

(** ** Clean values *)

(** Induction over values, through lists and field tables. *)
Lemma variant_rect' (P : variant → Prop) :
  P VNone → (∀ b, P (VBool b)) → (∀ n, P (VInt n)) → (∀ s, P (VStr s)) →
  (∀ l, Forall P l → P (VList l)) →
  (∀ d, Forall (λ kv, P kv.2) d → P (VDict d)) →
  (∀ d, Forall (λ kv, P kv.2) d → P (VConfig d)) →
  (∀ d, Forall (λ kv, P kv.2) d → P (VExpander d)) →
  (∀ t, P (VTask t)) → (∀ t, P (VFuture t)) → (∀ e, P (VExc e)) →
  (∀ h, P (VFunc h)) → (∀ k, P (VCallback k)) → (∀ n, P (VNative n)) →
  ∀ v, P v.
Proof.
  intros HNone HBool HInt HStr HList HDict HConfig HExp HTask HFut HExc HFunc HCb HNat.
  fix IH 1. intros v. destruct v as [| | | |l|d|d|d| | | | | |].
  - exact HNone.
  - apply HBool.
  - apply HInt.
  - apply HStr.
  - apply HList. revert l. fix IHl 1. intros [|x l]; constructor; [apply IH|apply IHl].
  - apply HDict. revert d. fix IHd 1.
    intros [|[k x] d]; constructor; [apply IH|apply IHd].
  - apply HConfig. revert d. fix IHd 1.
    intros [|[k x] d]; constructor; [apply IH|apply IHd].
  - apply HExp. revert d. fix IHd 1.
    intros [|[k x] d]; constructor; [apply IH|apply IHd].
  - apply HTask.
  - apply HFut.
  - apply HExc.
  - apply HFunc.
  - apply HCb.
  - apply HNat.
Qed.

Lemma clean_fields_cons (k : string) (x : variant) (d : fields) :
  clean_fields ((k, x) :: d)
  = negb (bool_decide (k = "trace")) && clean x && clean_fields d.
Proof. reflexivity. Qed.

Lemma clean_dict (d : fields) : clean (VDict d) = clean_fields d.
Proof. reflexivity. Qed.

Lemma clean_expander (d : fields) : clean (VExpander d) = clean_fields d.
Proof. reflexivity. Qed.

Lemma clean_list (l : list variant) : clean (VList l) = forallb clean l.
Proof. reflexivity. Qed.

Lemma clean_list_Forall (l : list variant) :
  clean (VList l) = true ↔ Forall (λ x, clean x = true) l.
Proof.
  rewrite clean_list. induction l as [|x l IH]; simpl.
  - split; [constructor|done].
  - rewrite andb_true_iff, IH, Forall_cons. done.
Qed.

Lemma clean_fields_get (d : fields) (k : string) (v : variant) :
  clean_fields d = true → assoc_get k d = Some v → clean v = true.
Proof.
  induction d as [|[k' x] d IH]; [done|].
  rewrite clean_fields_cons, !andb_true_iff. intros [[_ Hx] Hd]. simpl.
  case_bool_decide; [by intros [= <-]|by apply IH].
Qed.

Lemma clean_fields_no_trace (d : fields) :
  clean_fields d = true → assoc_get "trace" d = None.
Proof.
  induction d as [|[k' x] d IH]; [done|].
  rewrite clean_fields_cons, !andb_true_iff. intros [[Hk _] Hd]. simpl.
  destruct (bool_decide (k' = "trace")); [done|by apply IH].
Qed.

Lemma clean_fields_app (d1 d2 : fields) :
  clean_fields (d1 ++ d2) = clean_fields d1 && clean_fields d2.
Proof.
  induction d1 as [|[k x] d1 IH]; [done|].
  change (((k, x) :: d1) ++ d2) with ((k, x) :: (d1 ++ d2)).
  rewrite !clean_fields_cons, IH. by rewrite !andb_assoc.
Qed.

Lemma clean_flatten (v : variant) :
  clean v = true → Forall (λ x, clean x = true) (_flatten v).
Proof.
  induction v as [| | | |l IH| | | | | | | | |] using variant_rect';
    intros Hv; try (by repeat constructor).
  apply clean_list_Forall in Hv.
  change (_flatten (VList l)) with (concat (map _flatten l)).
  induction l as [|x l IHl]; [constructor|].
  apply Forall_cons in IH as [IHx IHrest]. apply Forall_cons in Hv as [Hx Hrest].
  simpl. apply Forall_app. split; [by apply IHx|by apply IHl].
Qed.

(** What [mapM] returns, element by element. *)
Lemma mapM_result_Forall {A B} (g : A → result B) (Q : B → Prop) (l : list A)
    (l' : list B) :
  (∀ x y, g x = Ok y → Q y) → mapM (M:=result) g l = Ok l' → Forall Q l'.
Proof.
  intros Hg. revert l'. induction l as [|x l IH]; intros l'.
  - intros [= <-]. constructor.
  - rewrite mapM_result_cons. destruct (g x) as [y|] eqn:Hy; [|done].
    simpl. destruct (mapM g l) as [k|]; [|done]. simpl. intros [= <-].
    constructor; [by eapply Hg|by apply IH].
Qed.

Lemma clean_path_join (a b r : variant) : path_join a b = Ok r → clean r = true.
Proof.
  unfold path_join. destruct (fspath a); simpl; [|done].
  destruct (fspath b); simpl; [|done]. by intros [= <-].
Qed.

Lemma clean_collapse (l : list variant) :
  Forall (λ x, clean x = true) l → clean (collapse l) = true.
Proof.
  intros Hl. destruct l as [|x [|y l]]; [done| |by apply clean_list_Forall].
  by apply Forall_cons in Hl as [Hx _].
Qed.

Lemma clean_join_path2 (a b r : variant) : _join_path2 a b = Ok r → clean r = true.
Proof.
  unfold _join_path2, join_pairs.
  destruct (mapM _ (_flatten a)) as [rows|] eqn:Hrows; [|done]. simpl.
  intros [= <-]. apply clean_collapse. apply Forall_concat.
  eapply mapM_result_Forall; [|exact Hrows]. intros x row Hrow. simpl in Hrow.
  eapply mapM_result_Forall; [|exact Hrow]. intros y r. simpl. apply clean_path_join.
Qed.

Lemma clean_join_path (args : list variant) (r : variant) :
  Forall (λ x, clean x = true) args → _join_path args = Ok r → clean r = true.
Proof.
  revert r. induction args as [|a rest IH]; intros r Hargs.
  - by intros [= <-].
  - apply Forall_cons in Hargs as [Ha Hrest].
    destruct rest as [|b [|c rest]].
    + intros [= <-]. apply clean_list_Forall. by repeat constructor.
    + apply clean_join_path2.
    + change (_join_path (a :: b :: c :: rest)) with
        (x ← _join_path (b :: c :: rest); _join_path2 a x).
      destruct (_join_path (b :: c :: rest)) as [x|]; [|done].
      apply clean_join_path2.
Qed.

Lemma clean_rel_path (p b r : variant) : _rel_path p b = Ok r → clean r = true.
Proof.
  revert r. induction p as [| | | |l IH| | | | | | | | |] using variant_rect';
    intros r; try (simpl; unfold rel_path1; simpl; done).
  - simpl. unfold rel_path1. destruct b; simpl; try done.
    case_bool_decide; by intros [= <-].
  - change (_rel_path (VList l) b) with (VList <$> mapM (M:=result) (λ p, _rel_path p b) l).
    destruct (mapM _ l) as [k|] eqn:Hk; [|done]. intros [= <-].
    apply clean_list_Forall.
    revert k Hk. induction l as [|x l IHl]; intros k.
    + intros [= <-]. constructor.
    + apply Forall_cons in IH as [IHx IHrest].
      rewrite mapM_result_cons. destruct (_rel_path x b) as [y|] eqn:Hy; [|done].
      simpl. destruct (mapM _ l) as [k'|]; [|done]. simpl. intros [= <-].
      constructor; [by apply IHx|by apply IHl].
Qed.

Lemma clean_swap_ext (n e r : variant) : _swap_ext n e = Ok r → clean r = true.
Proof.
  assert (∀ q r, swap_ext1 q e = Ok r → clean r = true) as Hone.
  { intros q r0. unfold swap_ext1. destruct (fspath q); simpl; [|done].
    destruct e; try done. by intros [= <-]. }
  revert r. induction n as [| | | |l IH| | | | | | | | |] using variant_rect';
    intros r; try apply Hone.
  change (_swap_ext (VList l) e) with (VList <$> mapM (M:=result) (λ n, _swap_ext n e) l).
  destruct (mapM _ l) as [k|] eqn:Hk; [|done]. intros [= <-].
  apply clean_list_Forall.
  revert k Hk. induction l as [|x l IHl]; intros k.
  - intros [= <-]. constructor.
  - apply Forall_cons in IH as [IHx IHrest].
    rewrite mapM_result_cons. destruct (_swap_ext x e) as [y|] eqn:Hy; [|done].
    simpl. destruct (mapM _ l) as [k'|]; [|done]. simpl. intros [= <-].
    constructor; [by apply IHx|by apply IHl].
Qed.

(** What [mapM] returns in [M], element by element. *)
Lemma mapM_M_Forall {A B} (g : A → M B) (Q : B → Prop) (l : list A) :
  (∀ x w y, x ∈ l → (g x w).1 = Return y → Q y) →
  ∀ w l', (mapM (M:=M) g l w).1 = Return l' → Forall Q l'.
Proof.
  induction l as [|x l IH]; intros Hg w l'.
  - intros [= <-]. constructor.
  - rewrite mapM_M_cons, bind_run.
    destruct (g x w) as [[y|e|b|] w1] eqn:Hy; try done.
    rewrite bind_run.
    destruct (mapM g l w1) as [[k|e|b|] w2] eqn:Hk; try done.
    intros [= <-]. constructor.
    + apply (Hg x w y); [left|by rewrite Hy].
    + apply (IH (λ x0 w0 y0 Hin, Hg x0 w0 y0 (list_elem_of_further _ _ _ Hin)) w1).
      by rewrite Hk.
Qed.

Lemma clean_abs_path1 (q : variant) (strict : bool) (w : World) (r : variant) :
  (abs_path1 q strict w).1 = Return r → clean r = true.
Proof.
  unfold abs_path1, path_exists. rewrite bind_run.
  destruct (fspath q) as [p|e]; simpl; [|done].
  rewrite !bind_run, !gets_run. rewrite bind_run, gets_run.
  match goal with |- context [strict && negb ?b] => destruct (strict && negb b) end;
    simpl; [done|]. by intros [= <-].
Qed.

Lemma clean_abs_path (p : variant) (strict : bool) (w : World) (r : variant) :
  (_abs_path p strict w).1 = Return r → clean r = true.
Proof.
  revert w r. induction p as [| | | |l IH| | | | | | | | |] using variant_rect';
    intros w r; try apply clean_abs_path1.
  change (_abs_path (VList l) strict)
    with (l' ← mapM (M:=M) (λ p, _abs_path p strict) l; mret (VList l')).
  rewrite bind_run.
  destruct (mapM (M:=M) _ l w) as [[k|e|b|] w1] eqn:Hk; try done.
  intros [= <-]. apply clean_list_Forall.
  eapply (mapM_M_Forall _ _ l); [|by rewrite Hk].
  intros x w0 y Hin. rewrite Forall_forall in IH. by apply IH.
Qed.

Lemma clean_color (r g b : variant) (w : World) (v : variant) :
  ((VStr <$> _color r g b) w).1 = Return v → clean v = true.
Proof.
  unfold fmap, M_fmap. rewrite bind_run.
  destruct (_color r g b w) as [[x|e|k|] w1]; try done. by intros [= <-].
Qed.

Lemma clean_run_cmd (c : variant) (w : World) (v : variant) :
  (_run_cmd c w).1 = Return v → clean v = true.
Proof.
  unfold _run_cmd. destruct c; try done.
  rewrite !bind_run, !gets_run. rewrite bind_run, gets_run. rewrite bind_run, gets_run.
  destruct (shell _ _ _ _) as [files' [[out err] rc]]. rewrite bind_run. simpl.
  destruct (rc =? 0); [|done]. by intros [= <-].
Qed.

Lemma clean_fmap_VStr (l : list string) : Forall (λ x, clean x = true) (VStr <$> l).
Proof. induction l; constructor; done. Qed.

Lemma clean_apply_helper (h : helper) (args : list variant) (w : World) (v : variant) :
  Forall (λ x, clean x = true) args →
  (apply_helper h args w).1 = Return v → clean v = true.
Proof.
  intros Hargs. unfold apply_helper.
  destruct h; repeat (match goal with
                      | |- (match ?x with _ => _ end _).1 = _ → _ =>
                          destruct x eqn:?
                      end); try done;
    repeat match goal with
           | H : Forall _ (_ :: _) |- _ => apply Forall_cons in H as [? H]
           end;
    try (by apply clean_color); try apply clean_abs_path; try apply clean_run_cmd.
  all: try (unfold lift;
            match goal with
            | |- ((match ?r with _ => _ end) _).1 = _ → _ => destruct r eqn:Hr
            end; [|done]; intros [= <-]).
  all: try (by eapply clean_join_path; [|exact Hr]).
  all: try (by eapply clean_rel_path).
  all: try (by eapply clean_swap_ext).
  - intros [= <-]. apply clean_list_Forall, clean_fmap_VStr.
  - intros [= <-]. apply clean_list_Forall. by apply clean_flatten.
  - rewrite bind_run. destruct (fspath _); [|done]. by intros [= <-].
Qed.

Lemma clean_py_call E (fv : variant) (args : list variant) (w : World) (v : variant) :
  tame_env E → env_of w = E →
  Forall (λ x, clean x = true) args →
  (py_call fv args w).1 = Return v → clean v = true.
Proof.
  intros HE Hw Hargs. unfold py_call. destruct fv; try done.
  - by apply clean_apply_helper.
  - rewrite bind_run, gets_run. unfold lift.
    destruct (call_function _ _ _) as [r|e] eqn:Hr; [|done]. intros [= <-].
    apply (env_host E HE k args). rewrite <- Hw. exact Hr.
Qed.

(** Every value of a field table is clean. *)
Lemma clean_values_get (d : fields) (k : string) (v : variant) :
  Forall (λ kv, clean kv.2 = true) d → assoc_get k d = Some v → clean v = true.
Proof.
  induction 1 as [|[k' x] d Hx Hd IH]; [done|]. simpl.
  case_bool_decide; [by intros [= <-]|done].
Qed.

Lemma clean_fields_values (d : fields) :
  clean_fields d = true → Forall (λ kv, clean kv.2 = true) d.
Proof.
  induction d as [|[k x] d IH]; [constructor|].
  rewrite clean_fields_cons, !andb_true_iff. intros [[_ Hx] Hd].
  constructor; [done|by apply IH].
Qed.

Lemma clean_Config_class (c : Flags) :
  clean_fields (extra_flags c) = true →
  Forall (λ kv, clean kv.2 = true) (Config_class c).
Proof.
  intros Hc. unfold Config_class. rewrite !Forall_app. split; [|split; [|split]].
  - by apply clean_fields_values.
  - repeat constructor.
  - repeat constructor.
  - repeat constructor.
Qed.

Lemma clean_getattr (C : fields) (key : string) (w : World) (v : variant) :
  clean_fields C = true → clean_fields (extra_flags (cls w)) = true →
  (getattr C key w).1 = Return v → clean v = true.
Proof.
  intros HC Hw. unfold getattr.
  destruct (assoc_get key C) as [x|] eqn:Hx.
  - intros [= <-]. eapply clean_fields_get; [exact HC|exact Hx].
  - rewrite bind_run, gets_run.
    destruct (assoc_get key (Config_class (cls w))) as [x|] eqn:Hy; [|done].
    intros [= <-]. eapply clean_values_get; [|exact Hy]. by apply clean_Config_class.
Qed.

(** [trace] is the command-line flag when nothing re-binds it. *)
Lemma getattr_trace_flag (C : fields) (w : World) :
  clean_fields C = true → clean_fields (extra_flags (cls w)) = true →
  getattr C "trace" w = (Return (VBool (trace (cls w))), w).
Proof.
  intros HC Hw. unfold getattr. rewrite (clean_fields_no_trace C HC), bind_run, gets_run.
  unfold Config_class. rewrite assoc_get_app, (clean_fields_no_trace _ Hw). reflexivity.
Qed.

(** ** The parser yields atoms as literals *)

Lemma atomic_name_atom (x : string) (e : expr) : name_atom x = Some e → atomic e = true.
Proof.
  unfold name_atom. repeat case_bool_decide; try done; by intros [= <-].
Qed.

Lemma atomic_parse (fuel : nat) :
  (∀ ts e r, parse_expr fuel ts = Some (e, r) → atomic e = true)
  ∧ (∀ ts e r, parse_atom fuel ts = Some (e, r) → atomic e = true)
  ∧ (∀ e0 ts e r, atomic e0 = true → parse_trailers fuel e0 ts = Some (e, r) →
       atomic e = true)
  ∧ (∀ ts close es r, parse_items fuel ts close = Some (es, r) →
       forallb atomic es = true).
Proof.
  induction fuel as [|fuel (IHe & IHa & IHt & IHi)]; [done|].
  split; [|split; [|split]].
  - intros ts e r. simpl.
    destruct (parse_atom fuel ts) as [[a ts1]|] eqn:Ha; [|done]. simpl.
    apply IHt. by eapply IHa.
  - intros ts e r. simpl. destruct ts as [|[x|n|s| | | | | |] ts]; try done.
    + destruct (name_atom x) as [a|] eqn:Hx; [|done]. simpl. intros [= <- <-].
      by eapply atomic_name_atom.
    + by intros [= <- <-].
    + by intros [= <- <-].
    + destruct (parse_expr fuel ts) as [[e' r']|] eqn:He; [|done]. simpl.
      destruct r' as [|[] r'']; try done. intros [= <- <-]. by eapply IHe.
    + destruct (parse_items fuel ts TRBrk) as [[es r']|] eqn:Hi; [|done]. simpl.
      intros [= <- <-]. simpl. by eapply IHi.
  - intros e0 ts e r He0. simpl.
    destruct ts as [|[x|n|s| | | | | |] ts]; try (by intros [= <- <-]).
    + destruct (parse_items fuel ts TRPar) as [[es r']|] eqn:Hi; [|done]. simpl.
      apply IHt. simpl. rewrite He0. by eapply IHi.
    + destruct ts as [|[x|n|s| | | | | |] ts]; try done.
      case_bool_decide; [done|]. by apply IHt.
  - intros ts close es r. simpl. destruct ts as [|t ts]; [done|].
    case_bool_decide; [by intros [= <- <-]|].
    destruct (parse_expr fuel (t :: ts)) as [[e r1]|] eqn:He; [|done]. simpl.
    destruct r1 as [|t' r2]; [done|].
    assert (atomic e = true) as Hatom by by eapply IHe.
    destruct (decide (t' = TComma)) as [->|Hne].
    + destruct (parse_items fuel r2 close) as [[es' r3]|] eqn:Hi; [|done]. simpl.
      intros [= <- <-]. simpl. rewrite Hatom. by eapply IHi.
    + assert ((if bool_decide (t' = close) then Some ([e], r2) else None)
              = Some (es, r) → forallb atomic es = true) as Hlast.
      { case_bool_decide; [|done]. intros [= <- <-]. simpl. by rewrite Hatom. }
      destruct t'; try done.
Qed.

Lemma atomic_py_parse (s : string) (e : expr) : py_parse s = Some e → atomic e = true.
Proof.
  unfold py_parse. destruct (lex _ s) as [ts|]; [|done]. simpl.
  destruct (parse_expr _ ts) as [[e' rest]|] eqn:He; [|done]. simpl.
  case_bool_decide; [|done]. intros [= <-].
  by eapply (proj1 (atomic_parse _)).
Qed.

Lemma clean_atomic_literal (v : variant) : atomic (ELit v) = true → clean v = true.
Proof. by destruct v. Qed.

(** ** Values that unfold in finitely many steps *)

Lemma shallow_mono (ts : list Task) (n m : nat) (v : variant) :
  (n ≤ m)%nat → shallow n ts v = true → shallow m ts v = true.
Proof.
  revert m v. induction n as [|n IH]; intros m v Hnm; [done|].
  destruct m as [|m]; [lia|]. simpl.
  destruct v; try done.
  - rewrite !forallb_forall. intros Hl x Hx. apply IH; [lia|by apply Hl].
  - destruct (ts !! t); [|done]. apply IH. lia.
Qed.

Lemma shallow_list (ts : list Task) (l : list variant) :
  Forall (λ x, ∃ n, shallow n ts x = true) l →
  ∃ n, Forall (λ x, shallow n ts x = true) l.
Proof.
  induction 1 as [|x l [n Hn] _ [m Hm]]; [by exists O|].
  exists (n `max` m)%nat. constructor.
  - eapply shallow_mono; [|exact Hn]. lia.
  - eapply Forall_impl; [exact Hm|]. intros y Hy. simpl in Hy.
    eapply shallow_mono; [|exact Hy]. lia.
Qed.

Lemma shallow_exists E (v : variant) :
  tame_env E → ∃ n, shallow n E.1.1 v = true.
Proof.
  intros [[N HN] _ _ _].
  induction v as [| | | |l IH| | | |t| | | | |] using variant_rect';
    try (by exists 1%nat).
  - destruct (shallow_list _ _ IH) as [n Hn]. exists (S n). simpl.
    apply forallb_forall. intros x Hx. rewrite Forall_forall in Hn.
    apply Hn. by apply list_elem_of_In.
  - exists (S N). simpl. destruct (E.1.1 !! t) as [tk|] eqn:Ht; [|done]. by eapply HN.
Qed.

(** ** The template loop consumes its template *)

Lemma split_first_length (c : ascii) (s x y : string) :
  split_first c s = Some (x, y) →
  String.length s = (String.length x + 1 + String.length y)%nat.
Proof.
  revert x y. induction s as [|a s IH]; intros x y; [done|]. simpl.
  destruct (Ascii.eqb a c).
  - intros [= <- <-]. simpl. lia.
  - destruct (split_first c s) as [[x' y']|]; [|done]. simpl. intros [= <- <-].
    simpl. rewrite (IH x' y' eq_refl). lia.
Qed.

Lemma template_search_shorter (t b m a : string) :
  template_search t = Some (b, m, a) → (String.length a < String.length t)%nat.
Proof.
  unfold template_search.
  destruct (split_first lbrace t) as [[before rest]|] eqn:H1; [|done]. simpl.
  destruct (split_first rbrace rest) as [[inner after]|] eqn:H2; [|done]. simpl.
  intros [= <- <- <-].
  apply split_first_length in H1. apply split_first_length in H2. lia.
Qed.

(** ** Expansion ends, level by level

    [eval_macro] at depth [d] rests on the evaluator one level up, and
    above [MAX_EXPAND_DEPTH] on nothing: the guard raises.  Everything
    else at depth [d] follows from [eval_macro] at [d]. *)

Section termination.
Context (E : list Task * Flags * Host) (HE : tame_env E).

Lemma at_depth_flags d w : at_depth E d w → clean_fields (extra_flags (cls w)) = true.
Proof. intros [<- _]. apply (env_flags _ HE). Qed.

Lemma conv_depth d :
  conv (at_depth E d) (λ _, gets (λ w, expand_depth (app w))) (λ d0, d0 = d).
Proof.
  apply conv_settled; [apply settles_gets|apply preserves_gets|].
  intros w a [_ Hd] [= <-]. exact Hd.
Qed.

Lemma conv_host d : conv (at_depth E d) (λ _, gets host) (λ h, h = E.2).
Proof.
  apply conv_settled; [apply settles_gets|apply preserves_gets|].
  by intros w a [<- _] [= <-].
Qed.

Lemma conv_trace d (C : fields) :
  clean_fields C = true →
  conv (at_depth E d) (λ _, getattr C "trace") (λ tr, tr = VBool (trace E.1.2)).
Proof.
  intros HC. apply conv_settled; [apply settles_getattr|apply getattr_preserves|].
  intros w a Hw. rewrite (getattr_trace_flag C w HC (at_depth_flags d w Hw)).
  destruct Hw as [<- _]. by intros [= <-].
Qed.

Lemma conv_getattr d (C : fields) (key : string) :
  clean_fields C = true →
  conv (at_depth E d) (λ _, getattr C key) (λ a, clean a = true).
Proof.
  intros HC. apply conv_settled; [apply settles_getattr|apply getattr_preserves|].
  intros w a Hw. apply clean_getattr; [done|by eapply at_depth_flags].
Qed.

Lemma conv_log d (b : bool) (s : string) :
  conv (at_depth E d) (λ _, when b (log_msg s)) (λ _, True).
Proof.
  apply conv_settled; [| |done].
  - apply settles_when, settles_returns. unfold log_msg. apply returns_log_with.
  - apply preserves_when. unfold log_msg. apply logfree_log_with, place_logfree.
Qed.

Lemma conv_get_task d (t : nat) :
  conv (at_depth E d) (λ _, get_task t) (λ tk, E.1.1 !! t = Some tk).
Proof.
  apply conv_settled; [apply settles_get_task|apply logfree_get_task|].
  intros w a [<- _]. unfold get_task. rewrite bind_run, gets_run. simpl.
  destruct (tasks w !! t); [|done]. by intros [= <-].
Qed.

Lemma conv_py_call d (fv : variant) (vs : list variant) :
  Forall (λ x, clean x = true) vs →
  conv (at_depth E d) (λ _, py_call fv vs) (λ a, clean a = true).
Proof.
  intros Hvs.
  apply conv_settled; [apply settles_py_call|apply logfree_py_call, place_logfree|].
  intros w a [Hw _]. by apply (clean_py_call E).
Qed.

Lemma bind_raise_run {A B} (m : M A) (e : exn) (w : World) (b : B) :
  ((m ≫= λ _, raise e) w).1 ≠ Return b.
Proof. rewrite bind_run. by destruct (m w) as [[| | |] ?]. Qed.

Lemma bind_never {A B} (m : M A) (k : A → M B) (w : World) (b : B) :
  (∀ a w', (k a w').1 ≠ Return b) → ((m ≫= k) w).1 ≠ Return b.
Proof. intros Hk. rewrite bind_run. destruct (m w) as [[| | |] ?]; done. Qed.

Lemma expand_unknown_raises (v : variant) (w : World) (b : variant) :
  (expand_unknown v w).1 ≠ Return b.
Proof. unfold expand_unknown. repeat (apply bind_never; intros). done. Qed.

Lemma expand_template_failed_raises {A} old err (w : World) (b : A) :
  (expand_template_failed old err w).1 ≠ Return b.
Proof. unfold expand_template_failed. repeat (apply bind_never; intros). done. Qed.

Lemma clean_eval_macro_failed macro fo err (w : World) (b : variant) :
  (eval_macro_failed macro fo err w).1 = Return b → clean b = true.
Proof.
  unfold eval_macro_failed. destruct fo; [by intros [= <-]|].
  intros H. exfalso. revert H. repeat (apply bind_never; intros). done.
Qed.

Lemma conv_expand_unknown d (v : variant) (Q : variant → Prop) :
  conv (at_depth E d) (λ _, expand_unknown v) Q.
Proof.
  apply conv_settled;
    [apply settles_expand_unknown|apply logfree_expand_unknown, place_logfree|].
  intros w a _ H. by apply expand_unknown_raises in H.
Qed.

Lemma conv_expand_template_failed {A} d old err (Q : A → Prop) :
  conv (at_depth E d) (λ _, expand_template_failed old err) Q.
Proof.
  apply conv_settled; [apply settles_expand_template_failed
                      |apply logfree_expand_template_failed, place_logfree|].
  intros w a _ H. by apply expand_template_failed_raises in H.
Qed.

Lemma conv_eval_macro_failed d macro fo err :
  conv (at_depth E d) (λ _, eval_macro_failed macro fo err) (λ a, clean a = true).
Proof.
  apply conv_settled; [apply settles_eval_macro_failed
                      |apply logfree_eval_macro_failed, place_logfree|].
  intros w a _. apply clean_eval_macro_failed.
Qed.

(** Reading [trace] through the expander, when nothing re-binds it. *)
Lemma conv_trace_lookup d (C : fields) :
  clean_fields C = true →
  conv (at_depth E d) (λ fuel, Expander_get fuel C "trace")
       (λ tr, tr = VBool (trace E.1.2)).
Proof.
  intros HC w Hw. exists 2%nat, (Return (VBool (trace E.1.2))), w.
  split; [|done]. intros [|[|fuel]] Hfuel; [lia|lia|].
  change (Expander_get (S (S fuel)) C "trace")
    with (v ← getattr C "trace"; expanded ← expand (S fuel) C v false;
          match expanded with VConfig d => mret (VExpander d) | _ => mret expanded end).
  rewrite bind_run, (getattr_trace_flag C w HC (at_depth_flags d w Hw)).
  destruct Hw as [<- _]. reflexivity.
Qed.

(** The guard of [eval_macro]. *)
Lemma eval_macro_guard (fuel : nat) (C : fields) (macro : string) (fo : bool)
    (w : World) :
  MAX_EXPAND_DEPTH < expand_depth (app w) →
  eval_macro (S fuel) C macro fo w
  = (Raise (mkExn RecursionError ("Expanding '" +:+ macro +:+ "' failed to terminate")),
     w).
Proof.
  intros Hd. simpl. rewrite bind_run, gets_run.
  apply Z.ltb_lt in Hd. by rewrite Hd.
Qed.

Lemma bind_assoc_run {A B C} (m : M A) (f : A → M B) (g : B → M C) (w : World) :
  (m ≫= λ x, f x ≫= g) w = ((m ≫= f) ≫= g) w.
Proof. rewrite !bind_run. by destruct (m w) as [[| | |] ?]. Qed.

Lemma conv_eq {A} P (f g : nat → M A) (Q : A → Prop) :
  (∀ fuel w, f fuel w = g fuel w) → conv P g Q → conv P f Q.
Proof.
  intros Hfg Hg w Hw. destruct (Hg w Hw) as (n & r & w' & Hrun & HP & Hr).
  exists n, r, w'. split; [|done]. intros fuel Hfuel. rewrite Hfg. by apply Hrun.
Qed.

Lemma conv_level_then {A B} d (body : nat → M A) (k : nat → A → M B)
    (Q1 : A → Prop) (Q2 : B → Prop) :
  conv (at_depth E (d + 1)) body Q1 →
  (∀ a, Q1 a → conv (at_depth E d) (λ fuel, k fuel a) Q2) →
  conv (at_depth E d)
       (λ fuel, _ ← incr_depth; a ← try_finally (body fuel) decr_depth; k fuel a) Q2.
Proof.
  intros Hb Hk.
  apply (conv_eq _ _ (λ fuel, (_ ← incr_depth; try_finally (body fuel) decr_depth)
                               ≫= k fuel)).
  { intros. apply bind_assoc_run. }
  eapply conv_bind; [by apply conv_level_after|done].
Qed.

Lemma eval_macro_ends_step d : py_eval_ends E (d + 1) → eval_macro_ends E d.
Proof.
  intros HPY C macro fo HC.
  apply (conv_ext _ _ (λ fuel,
      d ← gets (λ w, expand_depth (app w));
      if MAX_EXPAND_DEPTH <? d then
        raise (mkExn RecursionError
                 ("Expanding '" +:+ macro +:+ "' failed to terminate"))
      else
        tr ← getattr C "trace";
        _ ← when (truthy tr) (log_msg (bars d +:+ "┏ Eval '" +:+ macro +:+ "'"));
        _ ← incr_depth;
        result ← try_finally
          (try_except
             match py_parse (strip_ends macro) with
             | Some e => py_eval fuel C e
             | None => raise (mkExn SyntaxError "invalid syntax")
             end
             (eval_macro_failed macro fo))
          decr_depth;
        tr' ← Expander_get fuel C "trace";
        d' ← gets (λ w, expand_depth (app w));
        h ← gets host;
        _ ← when (truthy tr') (log_msg (bars d' +:+ "┗ " +:+ py_str h result));
        mret result)); [done|].
  eapply conv_bind; [apply conv_depth|]. intros d0 ->. simpl.
  destruct (MAX_EXPAND_DEPTH <? d); [apply conv_raise|].
  eapply conv_bind; [by apply conv_trace|]. intros tr _. cbv beta.
  eapply conv_bind; [apply conv_log|]. intros _ _. cbv beta.
  apply (conv_level_then d _ _ (λ a, clean a = true)).
  { apply conv_try_except; [|intros; apply conv_eval_macro_failed].
    destruct (py_parse (strip_ends macro)) as [e|] eqn:He; [|apply conv_raise].
    apply HPY; [done|by eapply atomic_py_parse]. }
  intros result Hres. cbv beta.
  eapply conv_bind; [by apply conv_trace_lookup|]. intros tr' _. cbv beta.
  eapply conv_bind; [apply conv_depth|]. intros d' _. cbv beta.
  eapply conv_bind; [apply conv_host|]. intros h _. cbv beta.
  eapply conv_bind; [apply conv_log|]. intros _ _. cbv beta.
  by apply conv_ret.
Qed.

Lemma eval_macro_ends_high d : MAX_EXPAND_DEPTH < d → eval_macro_ends E d.
Proof.
  intros Hd C macro fo HC w Hw.
  exists 1%nat, (Raise (mkExn RecursionError
                          ("Expanding '" +:+ macro +:+ "' failed to terminate"))), w.
  split; [|done]. intros [|fuel] Hfuel; [lia|].
  apply eval_macro_guard. destruct Hw as [_ ->]. done.
Qed.

Lemma template_loop_ends_step d : eval_macro_ends E d → template_loop_ends E d.
Proof.
  intros HEM C old t res fo HC.
  remember (String.length t) as n eqn:Hn. revert t res Hn.
  induction n as [n IH] using lt_wf_ind. intros t res ->.
  apply (conv_ext _ _ (λ fuel,
      match template_search t with
      | Some (before, macro, after) =>
          piece ← try_except
            (variant ← eval_macro fuel C macro fo;
             h ← gets host; mret (stringify h variant))
            (expand_template_failed old);
          template_loop fuel C old after ((res +:+ before) +:+ piece) fo
      | None => mret (res +:+ t)
      end)); [done|].
  destruct (template_search t) as [[[before macro] after]|] eqn:Ht;
    [|by apply conv_ret].
  apply (conv_bind _ _ _ (λ _, True)).
  - apply conv_try_except; [|intros; apply conv_expand_template_failed].
    eapply conv_bind; [by apply HEM|]. intros v _. cbv beta.
    eapply conv_bind; [apply conv_host|]. intros h _. cbv beta. by apply conv_ret.
  - intros piece _. eapply IH; [|reflexivity]. by eapply template_search_shorter.
Qed.

Lemma expand_template_ends_step d :
  template_loop_ends E (d + 1) → expand_template_ends E d.
Proof.
  intros HTL C t fo HC.
  apply (conv_ext _ _ (λ fuel,
      tr ← getattr C "trace";
      d ← gets (λ w, expand_depth (app w));
      _ ← when (truthy tr) (log_msg (bars d +:+ "┏ Expand '" +:+ t +:+ "'"));
      result ← try_finally
        (_ ← incr_depth; template_loop fuel C t t "" fo)
        decr_depth;
      tr' ← getattr C "trace";
      d' ← gets (λ w, expand_depth (app w));
      _ ← when (truthy tr') (log_msg (bars d' +:+ "┗ '" +:+ result +:+ "'"));
      mret result)); [done|].
  eapply conv_bind; [by apply conv_trace|]. intros tr _. cbv beta.
  eapply conv_bind; [apply conv_depth|]. intros d0 _. cbv beta.
  eapply conv_bind; [apply conv_log|]. intros _ _. cbv beta.
  apply (conv_bind _ _ _ (λ _, True)); [by apply conv_level, HTL|].
  intros result _. cbv beta.
  eapply conv_bind; [by apply conv_trace|]. intros tr' _. cbv beta.
  eapply conv_bind; [apply conv_depth|]. intros d' _. cbv beta.
  eapply conv_bind; [apply conv_log|]. intros _ _. cbv beta.
  by apply conv_ret.
Qed.

Lemma expand_ends_step d :
  eval_macro_ends E d → expand_template_ends E d → expand_ends E d.
Proof.
  intros HEM HET C v fo HC Hv.
  destruct (shallow_exists E v HE) as [n Hn]. revert v fo Hv Hn.
  induction n as [|n IH]; intros v fo Hv Hn; [done|].
  destruct v as [| | |s|l| | | |t| |e| | |];
    try (match goal with
         | |- conv _ (λ fuel, expand fuel _ ?v _) _ =>
             apply (conv_ext _ _ (λ _, mret v)); [done|]; by apply conv_ret
         end);
    try (match goal with
         | |- conv _ (λ fuel, expand fuel _ ?v _) _ =>
             apply (conv_ext _ _ (λ _, expand_unknown v)); [done|];
             apply conv_expand_unknown
         end).
  - apply (conv_ext _ _ (λ fuel,
        if macro_search s then eval_macro fuel C s fo
        else if bool_decide (is_Some (template_search s)) then
          r ← expand_template fuel C s fo; mret (VStr r)
        else mret (VStr s))); [done|].
    destruct (macro_search s); [by apply HEM|].
    destruct (bool_decide _); [|by apply conv_ret].
    eapply conv_bind; [by apply HET|]. intros r _. by apply conv_ret.
  - apply (conv_ext _ _ (λ fuel,
        l' ← mapM (M:=M) (λ s, expand fuel C s false) l; mret (VList l'))); [done|].
    eapply conv_bind.
    + apply (conv_mapM _ (λ fuel s, expand fuel C s false) l (λ a, clean a = true)).
      apply clean_list_Forall in Hv. simpl in Hn. rewrite forallb_forall in Hn.
      rewrite Forall_forall in Hv. apply Forall_forall. intros x Hx.
      apply IH; [by apply Hv|]. apply Hn. by apply list_elem_of_In.
    + intros l' Hl'. apply conv_ret. by apply clean_list_Forall.
  - apply (conv_ext _ _ (λ fuel,
        tk ← get_task t; expand fuel C (promise tk) fo)); [done|].
    eapply conv_bind; [apply conv_get_task|]. intros tk Htk. cbv beta.
    apply IH; [exact (env_promises E HE t tk Htk)|]. simpl in Hn. by rewrite Htk in Hn.
  - apply (conv_ext _ _ (λ _, raise e)); [done|]. apply conv_raise.
Qed.

Lemma Expander_get_ends_step d : expand_ends E d → Expander_get_ends E d.
Proof.
  intros HEX C key HC.
  apply (conv_ext _ _ (λ fuel,
      v ← getattr C key;
      expanded ← expand fuel C v false;
      match expanded with
      | VConfig d => mret (VExpander d)
      | _ => mret expanded
      end)); [done|].
  eapply conv_bind; [by apply conv_getattr|]. intros v Hv. cbv beta.
  eapply conv_bind; [by apply HEX|]. intros x Hx. cbv beta.
  destruct x; by apply conv_ret.
Qed.

(** Induction over expressions, through their lists. *)
Lemma expr_rect' (P : expr → Prop) :
  (∀ v, P (ELit v)) → (∀ x, P (EName x)) →
  (∀ es, Forall P es → P (EList es)) →
  (∀ e x, P e → P (EAttr e x)) →
  (∀ f args, P f → Forall P args → P (ECall f args)) →
  ∀ e, P e.
Proof.
  intros HLit HName HList HAttr HCall. fix IH 1. intros e.
  destruct e as [v|x|es|e x|f args].
  - apply HLit.
  - apply HName.
  - apply HList. revert es. fix IHl 1. intros [|a es]; constructor; [apply IH|apply IHl].
  - apply HAttr, IH.
  - apply HCall; [apply IH|].
    revert args. fix IHl 1. intros [|a es]; constructor; [apply IH|apply IHl].
Qed.

Lemma atomic_Forall (es : list expr) :
  forallb atomic es = true → Forall (λ e, atomic e = true) es.
Proof.
  rewrite forallb_forall, Forall_forall. intros H x Hx. apply H. by apply list_elem_of_In.
Qed.

Lemma py_eval_ends_step d : Expander_get_ends E d → py_eval_ends E d.
Proof.
  intros HEG C e HC.
  induction e as [v|x|es IH|e x IH|f args IHf IHargs] using expr_rect'; intros He.
  - apply (conv_ext _ _ (λ _, mret v)); [done|]. apply conv_ret.
    by apply clean_atomic_literal.
  - apply (conv_ext _ _ (λ fuel, Expander_get fuel C x)); [done|]. by apply HEG.
  - apply (conv_ext _ _ (λ fuel,
        l ← mapM (M:=M) (py_eval fuel C) es; mret (VList l))); [done|].
    eapply conv_bind.
    + apply (conv_mapM _ (λ fuel, py_eval fuel C) es (λ a, clean a = true)).
      simpl in He. apply atomic_Forall in He.
      rewrite Forall_forall in IH. rewrite Forall_forall in He.
      apply Forall_forall. intros a Ha. apply IH; [done|by apply He].
    + intros l Hl. apply conv_ret. by apply clean_list_Forall.
  - apply (conv_ext _ _ (λ fuel,
        o ← py_eval fuel C e;
        match o with
        | VExpander d =>
            if bool_decide (x = "config") then mret (VConfig d)
            else if bool_decide (x = "get") then mret (VNative "get")
            else Expander_get fuel d x
        | VConfig d => getattr d x
        | _ => raise (mkExn AttributeError
                        ("'" +:+ type_name o +:+ "' object has no attribute '"
                         +:+ x +:+ "'"))
        end)); [done|].
    eapply conv_bind; [by apply IH|]. intros o Ho. cbv beta.
    destruct o; try apply conv_raise.
    + by apply conv_getattr.
    + repeat case_bool_decide; [by apply conv_ret..|]. by apply HEG.
  - simpl in He. apply andb_true_iff in He as [Hf Hargs].
    apply (conv_ext _ _ (λ fuel,
        fv ← py_eval fuel C f;
        vs ← mapM (M:=M) (py_eval fuel C) args;
        py_call fv vs)); [done|].
    eapply conv_bind; [by apply IHf|]. intros fv _. cbv beta.
    eapply conv_bind.
    + apply (conv_mapM _ (λ fuel, py_eval fuel C) args (λ a, clean a = true)).
      apply atomic_Forall in Hargs.
      rewrite Forall_forall in IHargs. rewrite Forall_forall in Hargs.
      apply Forall_forall. intros a Ha. apply IHargs; [done|by apply Hargs].
    + intros vs Hvs. by apply conv_py_call.
Qed.

(** Everything at depth [d], from [eval_macro] at [d] and the loop one
    level up. *)
Lemma expansion_ends_level d :
  eval_macro_ends E d → template_loop_ends E (d + 1) →
  template_loop_ends E d ∧ expand_ends E d ∧ py_eval_ends E d.
Proof.
  intros HEM HTL. split; [by apply template_loop_ends_step|].
  assert (expand_ends E d) as HEX
    by by apply expand_ends_step, expand_template_ends_step.
  split; [done|]. by apply py_eval_ends_step, Expander_get_ends_step.
Qed.

Lemma expansion_ends_from (n : nat) (d : Z) :
  MAX_EXPAND_DEPTH + 1 - Z.of_nat n ≤ d →
  template_loop_ends E d ∧ expand_ends E d ∧ py_eval_ends E d.
Proof.
  revert d. induction n as [|n IH]; intros d Hd.
  - apply expansion_ends_level; [apply eval_macro_ends_high; lia|].
    apply template_loop_ends_step, eval_macro_ends_high. lia.
  - destruct (IH (d + 1)) as (HTL & _ & HPY); [lia|].
    apply expansion_ends_level; [by apply eval_macro_ends_step|done].
Qed.

Lemma expansion_ends (d : Z) :
  template_loop_ends E d ∧ expand_ends E d ∧ py_eval_ends E d.
Proof.
  apply (expansion_ends_from (Z.to_nat (MAX_EXPAND_DEPTH + 1 - d))). lia.
Qed.

End termination.

(** ** A cyclic chain of fields *)

Lemma bind_raises {A B} (m : M A) (k : A → M B) (e : exn) :
  returns m → (∀ a w, (k a w).1 = Raise e) → ∀ w, ((m ≫= k) w).1 = Raise e.
Proof.
  intros Hm Hk w. rewrite bind_run. destruct (Hm w) as [a Ha].
  destruct (m w) as [r w1]. simpl in Ha. subst r. apply Hk.
Qed.

Lemma eval_macro_failed_reraises (macro : string) (err : exn) (w : World) :
  ∃ w', eval_macro_failed macro false err w = (Raise err, w') ∧ place w' = place w.
Proof.
  exists (eval_macro_failed macro false err w).2. split.
  - apply injective_projections; [|done]. simpl.
    unfold eval_macro_failed, log_exn, log_msg, color_rgb, color_reset.
    apply bind_raises; [apply returns_log_with|]. intros _ w1.
    apply bind_raises; [apply returns_color|]. intros c1 w2.
    apply bind_raises; [apply returns_color|]. intros c0 w3.
    apply bind_raises; [apply returns_log_with|]. done.
  - apply (logfree_eval_macro_failed place place_logfree).
Qed.

Lemma when_log_run (b : bool) (s : string) (w : World) :
  ∃ w', when b (log_msg s) w = (Return tt, w') ∧ place w' = place w.
Proof.
  exists (when b (log_msg s) w).2. split.
  - apply injective_projections; [|done]. simpl.
    destruct b; [apply log_with_returns|done].
  - apply preserves_when. apply (logfree_log_with place place_logfree).
Qed.

Section chain.
Context (E : list Task * Flags * Host) (HE : tame_env E).
Context (C : fields) (HC : clean_fields C = true).
Context (ring : list string) (HS : cyclic_chain C ring).

Lemma eval_macro_chain (k : nat) (d : Z) (m : string) (w : World) :
  MAX_EXPAND_DEPTH + 1 - Z.of_nat k ≤ d → m ∈ ring → at_depth E d w →
  ∃ n m' w', m' ∈ ring
    ∧ (∀ fuel, (n ≤ fuel)%nat → eval_macro fuel C m false w = (Raise (overflow m'), w'))
    ∧ at_depth E d w'.
Proof.
  revert d m w. induction k as [|k IH]; intros d m w Hd Hm Hw.
  { exists 1%nat, m, w. split; [done|]. split; [|done].
    intros [|fuel] Hfuel; [lia|]. apply eval_macro_guard. destruct Hw as [_ ->]. lia. }
  destruct (decide (MAX_EXPAND_DEPTH < d)) as [Hhigh|Hlow].
  { exists 1%nat, m, w. split; [done|]. split; [|done].
    intros [|fuel] Hfuel; [lia|]. apply eval_macro_guard. by destruct Hw as [_ ->]. }
  destruct (HS m Hm) as (m1 & Hm1 & Hsearch & x & Hparse & Hget).
  destruct (HS m1 Hm1) as (_ & _ & Hsearch1 & _).
  destruct (when_log_run (truthy (VBool (trace (cls w))))
              (bars d +:+ "┏ Eval '" +:+ m +:+ "'") w) as (w1 & Hlog & Hw1).
  pose proof (at_depth_place E d w w1 Hw1 Hw) as Hat1.
  pose proof (at_depth_incr E d w1 Hat1) as Hat2.
  destruct (IH (d + 1) m1 _ ltac:(lia) Hm1 Hat2) as (n & m' & w3 & Hm' & Hrun & Hat3).
  destruct (eval_macro_failed_reraises m (overflow m') w3) as (w4 & Hfail & Hw4).
  pose proof (at_depth_place E (d + 1) w3 w4 Hw4 Hat3) as Hat4.
  exists (n + 4)%nat, m', (with_app (λ a, set_expand_depth (expand_depth a - 1) a) w4).
  split; [done|]. split; [|by apply at_depth_decr].
  intros fuel Hfuel.
  destruct fuel as [|[|[|[|fuel]]]]; try lia.
  change (eval_macro (S (S (S (S fuel)))) C m false)
    with (d ← gets (λ w, expand_depth (app w));
      if MAX_EXPAND_DEPTH <? d then raise (overflow m)
      else
        tr ← getattr C "trace";
        _ ← when (truthy tr) (log_msg (bars d +:+ "┏ Eval '" +:+ m +:+ "'"));
        _ ← incr_depth;
        result ← try_finally
          (try_except
             match py_parse (strip_ends m) with
             | Some e => py_eval (S (S (S fuel))) C e
             | None => raise (mkExn SyntaxError "invalid syntax")
             end
             (eval_macro_failed m false))
          decr_depth;
        tr' ← Expander_get (S (S (S fuel))) C "trace";
        d' ← gets (λ w, expand_depth (app w));
        h ← gets host;
        _ ← when (truthy tr') (log_msg (bars d' +:+ "┗ " +:+ py_str h result));
        mret result).
  rewrite bind_run, gets_run. destruct Hw as [HwE Hwd]. rewrite Hwd.
  assert ((MAX_EXPAND_DEPTH <? d) = false) as Hguard by (apply Z.ltb_ge; lia).
  rewrite Hguard.
  rewrite bind_run, (getattr_trace_flag C w HC (at_depth_flags E HE d w (conj HwE Hwd))).
  rewrite bind_run, Hlog. unfold incr_depth. rewrite bind_run, modify_app_run.
  rewrite bind_run.
  rewrite Hparse.
  assert (py_eval (S (S (S fuel))) C (EName x)
            (with_app (λ a, set_expand_depth (expand_depth a + 1) a) w1)
          = (Raise (overflow m'), w3)) as Heval.
  { change (py_eval (S (S (S fuel))) C (EName x))
      with (v ← getattr C x;
            expanded ← expand (S fuel) C v false;
            match expanded with VConfig d => mret (VExpander d) | _ => mret expanded end).
    rewrite bind_run. unfold getattr at 1. rewrite Hget. rewrite ret_run, bind_run.
    change (expand (S fuel) C (VStr m1) false)
      with (if macro_search m1 then eval_macro fuel C m1 false
            else if bool_decide (is_Some (template_search m1)) then
              r ← expand_template fuel C m1 false; mret (VStr r)
            else mret (VStr m1)).
    rewrite Hsearch1, Hrun; [done|lia]. }
  unfold try_finally, try_except. rewrite Heval, Hfail.
  rewrite bind_run. unfold decr_depth. rewrite modify_app_run. reflexivity.
Qed.

Lemma expand_chain (d : Z) (m : string) (w : World) :
  m ∈ ring → at_depth E d w →
  ∃ n m' w', m' ∈ ring
    ∧ (∀ fuel, (n ≤ fuel)%nat →
         expand fuel C (VStr m) false w = (Raise (overflow m'), w'))
    ∧ at_depth E d w'.
Proof.
  intros Hm Hw.
  destruct (eval_macro_chain (Z.to_nat (MAX_EXPAND_DEPTH + 1 - d)) d m w ltac:(lia) Hm Hw)
    as (n & m' & w' & Hm' & Hrun & Hw').
  destruct (HS m Hm) as (_ & _ & Hsearch & _).
  exists (S n), m', w'. split; [done|]. split; [|done].
  intros [|fuel] Hfuel; [lia|].
  change (expand (S fuel) C (VStr m) false)
    with (if macro_search m then eval_macro fuel C m false
          else if bool_decide (is_Some (template_search m)) then
            r ← expand_template fuel C m false; mret (VStr r)
          else mret (VStr m)).
  rewrite Hsearch. apply Hrun. lia.
Qed.

End chain.

(** ** A config that re-binds [trace] *)

Lemma out_of_fuel_bind {A B} (m : M A) (k : A → M B) (w : World) :
  (m w).1 = OutOfFuel → ((m ≫= k) w).1 = OutOfFuel.
Proof. rewrite bind_run. by destruct (m w) as [[| | |] ?]. Qed.

(** Below the depth limit, [eval_macro] on a name of [C_trace] runs out of
    every amount of fuel: after the evaluation it reads [trace] through
    the expander, which evaluates the macro [{y}], which reads [trace]
    again at the same depth. *)
Lemma eval_macro_trace_loop (fuel : nat) :
  ∀ (macro n : string) (w : World),
    n = "x" ∨ n = "y" →
    py_parse (strip_ends macro) = Some (EName n) →
    expand_depth (app w) ≤ MAX_EXPAND_DEPTH →
    (eval_macro fuel C_trace macro false w).1 = OutOfFuel.
Proof.
  induction fuel as [fuel IH] using lt_wf_ind. intros macro n w Hn Hparse Hd.
  destruct fuel as [|fuel]; [done|].
  change (eval_macro (S fuel) C_trace macro false)
    with (d ← gets (λ w, expand_depth (app w));
      if MAX_EXPAND_DEPTH <? d then raise (overflow macro)
      else
        tr ← getattr C_trace "trace";
        _ ← when (truthy tr) (log_msg (bars d +:+ "┏ Eval '" +:+ macro +:+ "'"));
        _ ← incr_depth;
        result ← try_finally
          (try_except
             match py_parse (strip_ends macro) with
             | Some e => py_eval fuel C_trace e
             | None => raise (mkExn SyntaxError "invalid syntax")
             end
             (eval_macro_failed macro false))
          decr_depth;
        tr' ← Expander_get fuel C_trace "trace";
        d' ← gets (λ w, expand_depth (app w));
        h ← gets host;
        _ ← when (truthy tr') (log_msg (bars d' +:+ "┗ " +:+ py_str h result));
        mret result).
  rewrite bind_run, gets_run.
  assert ((MAX_EXPAND_DEPTH <? expand_depth (app w)) = false) as ->
    by (apply Z.ltb_ge; lia).
  rewrite bind_run.
  change (getattr C_trace "trace" w) with (Return (VStr "{y}"), w).
  destruct (when_log_run (truthy (VStr "{y}"))
              (bars (expand_depth (app w)) +:+ "┏ Eval '" +:+ macro +:+ "'") w)
    as (w1 & Hlog & Hw1).
  rewrite bind_run, Hlog. unfold incr_depth. rewrite bind_run, modify_app_run.
  rewrite Hparse.
  set (w2 := with_app (λ a, set_expand_depth (expand_depth a + 1) a) w1).
  assert (depth_of w1 = depth_of w) as Hd1 by exact (f_equal snd Hw1).
  assert (∀ f, (py_eval f C_trace (EName n) w2).1 = OutOfFuel
               ∨ ∃ val g, f = S (S (S g))
                          ∧ py_eval f C_trace (EName n) w2 = (Return val, w2))
    as Hname.
  { intros f. destruct Hn as [-> | ->]; destruct f as [|[|[|g]]]; try (by left);
      right; eexists; exists g; (split; [done|reflexivity]). }
  rewrite bind_run. destruct (Hname fuel) as [Hout|(val & g & -> & Heval)].
  { unfold try_finally, try_except.
    destruct (py_eval fuel C_trace (EName n) w2) as [r w']. simpl in Hout. by subst r. }
  rename g into fuel. unfold try_finally, try_except. rewrite Heval.
  unfold decr_depth. rewrite bind_run, modify_app_run, ret_run.
  set (w3 := with_app (λ a, set_expand_depth (expand_depth a - 1) a) w2).
  apply out_of_fuel_bind.
  change (Expander_get (S (S (S fuel))) C_trace "trace")
    with (v ← getattr C_trace "trace";
          expanded ← expand (S (S fuel)) C_trace v false;
          match expanded with VConfig d => mret (VExpander d) | _ => mret expanded end).
  rewrite bind_run.
  change (getattr C_trace "trace" w3) with (Return (VStr "{y}"), w3).
  apply out_of_fuel_bind.
  change (expand (S (S fuel)) C_trace (VStr "{y}") false)
    with (eval_macro (S fuel) C_trace "{y}" false).
  apply (IH (S fuel) ltac:(lia) "{y}" "y"); [by right|reflexivity|].
  unfold w3, w2. unfold depth_of in Hd1. simpl. rewrite Hd1. lia.
Qed.

(** C4.  The depth guard does not bound the expansion of a config that
    binds [trace] to a macro.  The value [{x}] and the fields hold no
    reference cycle ([x] is [1], [y] is [False]), yet the expansion ends
    at no nesting depth, and the guard never raises: after its
    [try]/[finally] block, where the counter is back at the caller's
    value, [eval_macro] reads [config.trace] on the [Expander], which
    expands the field [{y}], whose [eval_macro] reads [trace] in the same
    way again.  Every nested [eval_macro] is entered with the counter at 0
    (its trace line carries no depth bar): with fuel 70 the log shows 23
    of them, one inside the other, more than [MAX_EXPAND_DEPTH].  In the
    code the nesting is stopped by the interpreter's own recursion limit
    only, which the model does not have.  Without the [trace] field, and
    with [trace] bound to [True], the same expansion returns [1]. *)
Theorem trace_macro_never_settles :
  shallow 1 [] (VStr "{x}") = true
  ∧ (∀ fuel, (expand fuel C_trace (VStr "{x}") false world0).1 = OutOfFuel)
  ∧ (expand 7 [("y", VBool false); ("x", VInt 1)] (VStr "{x}") false world0).1
    = Return (VInt 1)
  ∧ (expand 7 [("trace", VBool true); ("y", VBool false); ("x", VInt 1)]
       (VStr "{x}") false world0).1
    = Return (VInt 1)
  ∧ log (app (expand 70 C_trace (VStr "{x}") false world0).2)
    = "┏ Eval '{x}'" +:+ LF +:+ String.concat "" (replicate 22 ("┏ Eval '{y}'" +:+ LF)).
Proof.
  split; [done|]. split; [|by vm_compute].
  intros [|fuel]; [done|].
  change (expand (S fuel) C_trace (VStr "{x}") false)
    with (eval_macro fuel C_trace "{x}" false).
  apply (eval_macro_trace_loop fuel "{x}" "x"); [by left|reflexivity|done].
Qed.

(** ** The depth guard *)

(** Where [trace] is left to the class attribute, the guard does bound
    the expansion.  [eval_macro] raises [RecursionError] whenever it is
    entered with the counter above [MAX_EXPAND_DEPTH], which is 20.  When
    no field of the config (or of a config nested in it) and no
    command-line flag binds [trace] (a field that binds it to a bool is
    left out too), and the task promises refer to one another without a
    cycle, [expand(C, v)] ends for every value [v], by returning or by
    raising, with the counter back at its value before the call; the
    helpers and callbacks that a macro calls are functions of the host
    here, so they end.  And expanding a macro of a ring of pure macros,
    each of which is the name of a field that holds the next, raises the
    [RecursionError] of the guard. *)
Theorem expansion_depth_guard (E : list Task * Flags * Host) (C : fields) :
  tame_env E → clean (VConfig C) = true →
  MAX_EXPAND_DEPTH = 20
  ∧ (∀ fuel macro fail_ok w,
       MAX_EXPAND_DEPTH < expand_depth (app w) →
       eval_macro (S fuel) C macro fail_ok w = (Raise (overflow macro), w))
  ∧ (∀ v fail_ok d,
       clean v = true →
       conv (at_depth E d) (λ fuel, expand fuel C v fail_ok) (λ a, clean a = true))
  ∧ (∀ ring m d w,
       cyclic_chain C ring → m ∈ ring → at_depth E d w →
       ∃ n m' w',
         m' ∈ ring
         ∧ (∀ fuel, (n ≤ fuel)%nat →
              expand fuel C (VStr m) false w = (Raise (overflow m'), w'))
         ∧ at_depth E d w').
Proof.
  intros HE HC. split; [done|]. split; [|split].
  - intros. by apply eval_macro_guard.
  - intros v fail_ok d Hv.
    destruct (expansion_ends E HE d) as (_ & Hexpand & _). by apply Hexpand.
  - intros ring m d w Hring Hm Hw. by apply (expand_chain E HE C HC ring Hring).
Qed.

Lemma expansion_depth_guard_witness :
  tame_env (env_of world0) ∧ clean (VConfig C_cycle) = true
  ∧ cyclic_chain C_cycle ["{a}"; "{b}"]
  ∧ conv (at_depth (env_of world0) 0) (λ fuel, expand fuel C_cycle (VStr "{c}") false)
         (λ a, clean a = true)
  ∧ ∃ n m' w',
      m' ∈ ["{a}"; "{b}"]
      ∧ (∀ fuel, (n ≤ fuel)%nat →
           expand fuel C_cycle (VStr "{a}") false world0 = (Raise (overflow m'), w'))
      ∧ at_depth (env_of world0) 0 w'.
Proof.
  assert (tame_env (env_of world0)) as HE.
  { split.
    - exists O. intros t tk Ht. destruct t; discriminate Ht.
    - intros t tk Ht. destruct t; discriminate Ht.
    - reflexivity.
    - intros k args r Hr. injection Hr as <-. reflexivity. }
  assert (cyclic_chain C_cycle ["{a}"; "{b}"]) as Hring.
  { intros m Hm. apply elem_of_cons in Hm as [->|Hm];
      [|apply elem_of_cons in Hm as [->|Hm]; [|by apply elem_of_nil in Hm]].
    - exists "{b}". split; [right; left|].
      split; [reflexivity|]. exists "a". split; reflexivity.
    - exists "{a}". split; [left|].
      split; [reflexivity|]. exists "b". split; reflexivity. }
  split; [exact HE|]. split; [reflexivity|]. split; [exact Hring|].
  destruct (expansion_depth_guard (env_of world0) C_cycle HE eq_refl)
    as (_ & _ & Hends & Hcycle).
  split.
  - apply Hends. reflexivity.
  - apply (Hcycle ["{a}"; "{b}"] "{a}" 0 world0 Hring); [left|split; reflexivity].
Defined.

(** The two fields of [C_cycle] that name one another: the guard stops the
    expansion at depth 21. *)
Example expand_cycle_raises :
  (expand 100 C_cycle (VStr "{a}") false world0).1 = Raise (overflow "{b}")
  ∧ expand_depth (app (expand 100 C_cycle (VStr "{a}") false world0).2) = 0
  ∧ (expand 100 C_cycle (VStr "{c}") false world0).1 = Return (VStr "libz.a").
Proof. vm_compute. by repeat split. Qed.

(** ** The job pool when the acquisition succeeds *)

Lemma jobs_logfree : logfree jobs_of.
Proof. by repeat split. Qed.

Lemma jobs_modify_task (self : nat) (g : Task → Task) : preserves jobs_of (modify_task self g).
Proof. unfold modify_task. frame. Qed.

Lemma jobs_status_line r g b a : preserves jobs_of (status_line r g b a).
Proof. unfold status_line, color_rgb, color_reset. frame; apply logfree_color. Qed.

Lemma jobs_run_command (self : nat) (command : variant) :
  preserves jobs_of (run_command self command).
Proof.
  unfold run_command, get_action, log_msg.
  frame; try apply getattr_preserves; try apply logfree_get_task;
    try apply jobs_modify_task;
    try (apply logfree_log_with, jobs_logfree);
    try (apply logfree_apply_helper, jobs_logfree).
Qed.

Lemma jobs_run_each (self : nat) (a : Action) (chatty : bool)
    (commands : list variant) (result : variant) :
  preserves jobs_of (run_each self a chatty commands result).
Proof.
  revert result. induction commands as [|c rest IH]; intros result; simpl.
  - apply preserves_ret.
  - unfold color_rgb, color_reset, log_msg.
    frame; try apply getattr_preserves; try apply logfree_color;
      try (apply logfree_log_with, jobs_logfree); try apply jobs_run_command;
      try apply IH.
Qed.

Lemma settles_modify_task (self : nat) (g : Task → Task) : settles (modify_task self g).
Proof. unfold modify_task. settle. Qed.

Lemma settles_run_command (self : nat) (command : variant) :
  settles (run_command self command).
Proof.
  unfold run_command, get_action.
  settle; try apply settles_getattr; try apply settles_get_task;
    try apply settles_modify_task; try apply settles_apply_helper.
Qed.

Lemma settles_run_each (self : nat) (a : Action) (chatty : bool)
    (commands : list variant) (result : variant) :
  settles (run_each self a chatty commands result).
Proof.
  revert result. induction commands as [|c rest IH]; intros result; simpl.
  - apply settles_ret.
  - settle; try apply settles_getattr; try apply settles_run_command; try apply IH.
Qed.

Lemma acquire_jobs_run (w : World) (c : Z) :
  c ≤ jobs (cls w) → c ≤ jobs_available (app w) →
  acquire_jobs (VInt c) w
  = (Return tt, with_app (λ a, set_jobs_available (jobs_available a - c) a) w).
Proof.
  intros Hpool Havail. unfold acquire_jobs. rewrite bind_run. simpl.
  rewrite bind_run, gets_run.
  assert ((jobs (cls w) <? c) = false) as -> by (apply Z.ltb_ge; lia).
  rewrite bind_run, gets_run.
  assert ((jobs_available (app w) <? c) = false) as -> by (apply Z.ltb_ge; lia).
  reflexivity.
Qed.

(** On the paths where the jobs are acquired, the pool is balanced: the
    commands succeed or one of them fails, and [jobs_available] is back at
    its prior value. *)
Lemma run_commands_balanced (w : World) (self : nat) (tk : Task) (a : Action) (c : Z) :
  tasks w !! self = Some tk →
  action tk = Some a →
  a_job_count a = VInt c →
  c ≤ jobs (cls w) → c ≤ jobs_available (app w) →
  match (run_commands self w).1 with Return _ | Raise _ => True | _ => False end
  ∧ jobs_available (app (run_commands self w).2) = jobs_available (app w).
Proof.
  intros Htk Ha Hcount Hpool Havail. unfold run_commands.
  rewrite bind_run, (get_action_run _ _ _ _ Htk Ha).
  rewrite bind_run, (get_task_run _ _ _ Htk). rewrite Hcount.
  unfold try_finally. rewrite bind_run, (acquire_jobs_run w c Hpool Havail).
  set (w1 := with_app (λ a0, set_jobs_available (jobs_available a0 - c) a0) w).
  match goal with
  | |- context [mbind ?k (getattr (config tk) "verbose")] =>
      set (body := mbind k (getattr (config tk) "verbose"))
  end.
  assert (settles body) as Hsettles.
  { unfold body, status_line. settle; try apply settles_getattr; apply settles_run_each. }
  assert (preserves jobs_of body) as Hjobs.
  { unfold body, color_rgb, color_reset, log_msg.
    frame; try apply getattr_preserves; try apply jobs_status_line;
      try apply logfree_color; try (apply logfree_log_with, jobs_logfree);
      apply jobs_run_each. }
  specialize (Hsettles w1). specialize (Hjobs w1).
  unfold jobs_of in Hjobs.
  destruct (body w1) as [[v|e| |] w2]; simpl in Hsettles, Hjobs; try done;
    cbv beta iota; rewrite bind_run, release_jobs_run; (split; [done|]);
    simpl; rewrite Hjobs; lia.
Qed.

Example run_commands_balanced_example :
  jobs_available (app (run_commands 0 world_touched).2) = jobs_available (app world_touched).
Proof. vm_compute. reflexivity. Qed.
